(** * Circle renderer and prefix-sum kernels: a shallow embedding

    The development follows the two CUDA sources of the repository:
    the scan / find_peaks file (nextPow2, upsweep_kernel, downsweep_kernel,
    exclusive_scan, cudaScan, find_peak_kernel, make_list_kernel, find_peaks)
    and render/cudaRenderer.cu (kernelMarkBlocks, kernelScan2,
    kernelMakeLists, kernelRenderPixelsLocal).

    Conventions.
    - A C [int] is a [Z] kept in the range [-2^31, 2^31) by [wrap]; every
      arithmetic operation of the source is written with its wrap-around.
    - Device memory is a [list Z]; an access outside the allocation is the
      error [OutOfBounds] (undefined behaviour in the source).
    - A kernel launch runs the thread body once per thread of the grid.  The
      threads of one launch are run one after the other in index order; the
      barriers of the source ([__syncthreads], the end of a launch) are the
      boundaries between such passes. *)

From Stdlib Require Import ZArith QArith Qround Lia Bool List.
From stdpp Require Import base tactics option list numbers list_numbers.

Local Open Scope Z_scope.

(** ** 32-bit integers *)

Module Int32.

Definition wrap (z : Z) : Z := (z + 2 ^ 31) mod 2 ^ 32 - 2 ^ 31.

Definition is_int (z : Z) : Prop := - 2 ^ 31 <= z < 2 ^ 31.

Definition add (a b : Z) : Z := wrap (a + b).
Definition sub (a b : Z) : Z := wrap (a - b).
Definition mul (a b : Z) : Z := wrap (a * b).
(** C division truncates towards zero. *)
Definition div (a b : Z) : Z := wrap (Z.quot a b).
(** [>>] on a signed int is an arithmetic shift. *)
Definition shr (a k : Z) : Z := Z.shiftr a k.
Definition or (a b : Z) : Z := Z.lor a b.

(** Unsigned 32-bit values ([uint] in the shared-memory arrays). *)
Definition wrapu (z : Z) : Z := z mod 2 ^ 32.

End Int32.

(** ** Outcomes of running device or host code *)

Inductive error : Type :=
  | OutOfBounds     (* an access outside an allocation *)
  | Uninitialized   (* the value of a local that was never assigned is used *)
  | OutOfFuel.      (* a loop of the model did not finish within its fuel *)

Inductive outcome (A : Type) : Type :=
  | Ok (a : A)
  | Err (e : error).
Arguments Ok {A} a.
Arguments Err {A} e.

#[global] Instance outcome_ret : MRet outcome := fun A a => Ok a.
#[global] Instance outcome_bind : MBind outcome :=
  fun A B f m => match m with Ok a => f a | Err e => Err e end.

Fixpoint foldM {A S : Type} (f : A -> S -> outcome S) (l : list A) (s : S)
  : outcome S :=
  match l with
  | [] => Ok s
  | a :: l' => s' ← f a s; foldM f l' s'
  end.

(** ** Device memory *)

Abbreviation buf := (list Z).

Definition in_bounds {A : Type} (d : list A) (i : Z) : bool :=
  (0 <=? i) && (i <? Z.of_nat (length d)).

Definition load {A : Type} (d : list A) (i : Z) : outcome A :=
  if in_bounds d i then
    match d !! Z.to_nat i with Some v => Ok v | None => Err OutOfBounds end
  else Err OutOfBounds.

Definition store {A : Type} (d : list A) (i : Z) (v : A) : outcome (list A) :=
  if in_bounds d i then Ok (<[Z.to_nat i := v]> d) else Err OutOfBounds.

(** [cudaMalloc] returns memory with unspecified contents: [junk] is what
    happens to be there. *)
Definition cudaMalloc (n : Z) (junk : Z -> Z) : buf := junk <$> seqZ 0 n.

(** [cudaMemcpy dst src count]: the first [count] elements of [src] replace
    those of [dst]. *)
Definition cudaMemcpy (dst src : buf) (count : Z) : outcome buf :=
  if (0 <=? count) && (count <=? Z.of_nat (length src))
     && (count <=? Z.of_nat (length dst))
  then Ok (take (Z.to_nat count) src ++ drop (Z.to_nat count) dst)
  else Err OutOfBounds.

(** The thread indices [blockIdx.x * blockDim.x + threadIdx.x] of a
    one-dimensional launch [<<<blocks, threadsPerBlock>>>]. *)
Definition grid1D (blocks threadsPerBlock : Z) : list Z :=
  b ← seqZ 0 blocks; t ← seqZ 0 threadsPerBlock;
  [Int32.add (Int32.mul b threadsPerBlock) t].

Definition launch1D {St : Type} (blocks threadsPerBlock : Z)
    (thread : Z -> St -> outcome St) (s : St) : outcome St :=
  foldM thread (grid1D blocks threadsPerBlock) s.

(** A launch [<<<numBlocks, blockDim>>>] of a kernel whose threads use
    [blockIdx.x] and [threadIdx.x] separately. *)
Definition launch_blocks {St : Type} (numBlocks blockDim : Z)
    (thread : Z -> Z -> St -> outcome St) (s : St) : outcome St :=
  foldM (fun blockIdx => foldM (thread blockIdx) (seqZ 0 blockDim))
    (seqZ 0 numBlocks) s.

(** The thread indices [(indexX, indexY)] of a two-dimensional launch with
    [gridDim = (gx, gy)] and [blockDim = (bx, by)]. *)
Definition grid2D (gx gy bx by_ : Z) : list (Z * Z) :=
  blockIdx_y ← seqZ 0 gy; blockIdx_x ← seqZ 0 gx;
  threadIdx_y ← seqZ 0 by_; threadIdx_x ← seqZ 0 bx;
  [(Int32.add (Int32.mul blockIdx_x bx) threadIdx_x,
    Int32.add (Int32.mul blockIdx_y by_) threadIdx_y)].

(** ** The scan file *)

Module Scan.

Import Int32.

Definition nextPow2 (n : Z) : Z :=
  let n := sub n 1 in
  let n := or n (shr n 1) in
  let n := or n (shr n 2) in
  let n := or n (shr n 4) in
  let n := or n (shr n 8) in
  let n := or n (shr n 16) in
  add n 1.

Definition upsweep_kernel (length twod twod1 : Z) (index : Z)
    (device_data : buf) : outcome buf :=
  let i := mul index twod1 in
  if i <? length then
    a ← load device_data (sub (add i twod1) 1);
    b ← load device_data (sub (add i twod) 1);
    store device_data (sub (add i twod1) 1) (add a b)
  else Ok device_data.

Definition downsweep_kernel (length twod twod1 : Z) (index : Z)
    (device_data : buf) : outcome buf :=
  let i := mul index twod1 in
  if i <? length then
    t ← load device_data (sub (add i twod) 1);
    v ← load device_data (sub (add i twod1) 1);
    d1 ← store device_data (sub (add i twod) 1) v;
    w ← load d1 (sub (add i twod1) 1);
    store d1 (sub (add i twod1) 1) (add w t)
  else Ok device_data.

Definition threadsPerBlock : Z := 512.

(** [for (int twod = 1; twod < length; twod *= 2)] *)
Fixpoint upsweep_loop (fuel : nat) (length twod : Z) (d : buf) : outcome buf :=
  match fuel with
  | O => Err OutOfFuel
  | S fuel' =>
      if twod <? length then
        let twod1 := mul twod 2 in
        let N := div length twod1 in
        let blocks := div (sub (add N threadsPerBlock) 1) threadsPerBlock in
        d' ← launch1D blocks threadsPerBlock
               (upsweep_kernel length twod twod1) d;
        upsweep_loop fuel' length (mul twod 2) d'
      else Ok d
  end.

(** [for (int twod = length/2; twod >= 1; twod /= 2)] *)
Fixpoint downsweep_loop (fuel : nat) (length twod : Z) (d : buf) : outcome buf :=
  match fuel with
  | O => Err OutOfFuel
  | S fuel' =>
      if 1 <=? twod then
        let twod1 := mul twod 2 in
        let N := div length twod1 in
        let blocks := div (sub (add N threadsPerBlock) 1) threadsPerBlock in
        d' ← launch1D blocks threadsPerBlock
               (downsweep_kernel length twod twod1) d;
        downsweep_loop fuel' length (div twod 2) d'
      else Ok d
  end.

(** [twod] doubles from 1, or halves from [length/2], inside an [int]: a loop
    that ends at all ends within 32 rounds. *)
Definition loop_fuel : nat := 33.

Definition exclusive_scan (device_data : buf) (length : Z) : outcome buf :=
  let length := nextPow2 length in
  d1 ← upsweep_loop loop_fuel length 1 device_data;
  (* cudaMemset(device_data+length-1, 0, sizeof(int)) *)
  d2 ← store d1 (length - 1) 0;
  downsweep_loop loop_fuel length (div length 2) d2.

(** [cudaScan inarray end resultarray], with [len = end - inarray]. *)
Definition cudaScan (junk : Z -> Z) (inarray : buf) (len : Z)
    (resultarray : buf) : outcome buf :=
  let rounded_length := nextPow2 len in
  let device_data := cudaMalloc rounded_length junk in
  device_data ← cudaMemcpy device_data inarray len;
  device_data ← exclusive_scan device_data len;
  cudaMemcpy resultarray device_data len.

Definition find_peak_kernel (data : buf) (length : Z) (i : Z) (peaks : buf)
  : outcome buf :=
  a ← load data (sub i 1);
  b ← load data i;
  if a <? b then
    c ← load data (add i 1);
    store peaks i (if b >? c then 1 else 0)
  else store peaks i 0.

Definition make_list_kernel (peaks prefixes : buf) (i : Z) (result : buf)
  : outcome buf :=
  p ← load peaks i;
  if negb (p =? 0) then
    idx ← load prefixes i;
    store result idx i
  else Ok result.

(** [find_peaks device_input length device_output]; the three [junk]
    arguments are the contents of the memory that [cudaMalloc] hands out for
    [peaks], for [prefixes] and inside [cudaScan]. *)
Definition find_peaks (junk_peaks junk_prefixes junk_scan : Z -> Z)
    (device_input : buf) (length : Z) (device_output : buf)
  : outcome (Z * buf) :=
  let N := nextPow2 length in
  let blocks := div (sub (add N threadsPerBlock) 1) threadsPerBlock in
  let peaks := cudaMalloc N junk_peaks in
  let prefixes := cudaMalloc N junk_prefixes in
  peaks ← launch1D blocks threadsPerBlock (find_peak_kernel device_input length) peaks;
  peaks ← store peaks 0 0;
  peaks ← store peaks (length - 1) 0;
  prefixes ← cudaScan junk_scan peaks length prefixes;
  device_output ← launch1D blocks threadsPerBlock
                    (make_list_kernel peaks prefixes) device_output;
  ans ← load prefixes (length - 1);
  Ok (ans, device_output).

(** [cudaFindPeaks input length output output_length] without its timer:
    the result is the pair of [*output_length] and [output]. *)
Definition cudaFindPeaks
    (junk_input junk_output junk_peaks junk_prefixes junk_scan : Z -> Z)
    (input : buf) (length : Z) (output : buf) : outcome (Z * buf) :=
  let rounded_length := nextPow2 length in
  let device_input := cudaMalloc rounded_length junk_input in
  let device_output := cudaMalloc rounded_length junk_output in
  device_input ← cudaMemcpy device_input input length;
  r ← find_peaks junk_peaks junk_prefixes junk_scan device_input length device_output;
  output ← cudaMemcpy output r.2 length;
  Ok (r.1, output).

End Scan.


(** ** The renderer *)

(** Single-precision arithmetic is a parameter of the model: the kernels are
    transcribed over any type [F] with these operations, and what is proved
    about them holds for every interpretation, IEEE floats included. *)
Class FloatOps (F : Type) : Type := {
  f_of_int : Z -> F;          (* int to float conversion *)
  f_to_int : F -> Z;          (* float to int conversion *)
  f_lit : Q -> F;             (* a literal such as [.5f] *)
  fadd : F -> F -> F;
  fsub : F -> F -> F;
  fmul : F -> F -> F;
  fdiv : F -> F -> F;
  fgt : F -> F -> bool;
  fle : F -> F -> bool;
  fsqrt : F -> F;
  fexp : F -> F;
  fminf : F -> F -> F;
  fmaxf : F -> F -> F
}.

Record float3 (F : Type) : Type := Float3 { x3 : F; y3 : F; z3 : F }.
Record float4 (F : Type) : Type := Float4 { x4 : F; y4 : F; z4 : F; w4 : F }.
Arguments Float3 {F}. Arguments x3 {F}. Arguments y3 {F}. Arguments z3 {F}.
Arguments Float4 {F}. Arguments x4 {F}. Arguments y4 {F}. Arguments z4 {F}.
Arguments w4 {F}.

(** The scene names that the renderer source tests for; [CIRCLE_RGB] stands
    for the flat-colour scenes (the header that declares the enumeration is
    not among the sources). *)
Inductive SceneName : Type :=
  | CIRCLE_RGB | SNOWFLAKES | BOUNCING_BALLS | HYPNOSIS | FIREWORKS
  | SNOWFLAKES_SINGLE_FRAME.

Definition is_snow (s : SceneName) : bool :=
  match s with SNOWFLAKES | SNOWFLAKES_SINGLE_FRAME => true | _ => false end.

(** [cuConstRendererParams], without the image it points to. *)
Record GlobalConstants (F : Type) : Type := {
  sceneName : SceneName;
  numberOfCircles : Z;
  position : list F;
  velocity : list F;
  color : list F;
  radius : list F;
  imageWidth : Z;
  imageHeight : Z
}.
Arguments sceneName {F}. Arguments numberOfCircles {F}.
Arguments position {F}. Arguments velocity {F}. Arguments color {F}.
Arguments radius {F}. Arguments imageWidth {F}. Arguments imageHeight {F}.

Module Render.

Import Int32.

Definition SCAN_BLOCK_DIM : Z := 1024.

Definition load3 {F : Type} (d : list F) (i : Z) : outcome (float3 F) :=
  a ← load d i; b ← load d (i + 1); c ← load d (i + 2); Ok (Float3 a b c).

Definition load4 {F : Type} (d : list F) (i : Z) : outcome (float4 F) :=
  a ← load d i; b ← load d (i + 1); c ← load d (i + 2); e ← load d (i + 3);
  Ok (Float4 a b c e).

Definition store4 {F : Type} (d : list F) (i : Z) (v : float4 F)
  : outcome (list F) :=
  d ← store d i (x4 v); d ← store d (i + 1) (y4 v);
  d ← store d (i + 2) (z4 v); store d (i + 3) (w4 v).

(** The loop shared by [kernelMarkBlocks] and [kernelMakeLists]:
<<
    int j = 0;
    do {
        if (circleIdx >= numCircles) break;
        BODY
        circleIdx += blockDim.x;
        j++;
    } while (j < maxIterations);
>> *)
Fixpoint strided_loop {St : Type} (fuel : nat) (numCircles blockDim maxIterations : Z)
    (body : Z -> St -> outcome St) (j circleIdx : Z) (s : St) : outcome St :=
  match fuel with
  | O => Err OutOfFuel
  | S fuel' =>
      if circleIdx >=? numCircles then Ok s
      else
        s ← body circleIdx s;
        let circleIdx := add circleIdx blockDim in
        let j := add j 1 in
        if j <? maxIterations
        then strided_loop fuel' numCircles blockDim maxIterations body j circleIdx s
        else Ok s
  end.

Section Kernels.

Context {F : Type} `{FloatOps F}.

(** Modelled from the spec: [circleInBox] (circleBoxTest.cu_inl is not among
    the sources).  The spec has it return 1 iff the circle's axis-aligned
    bounding box, from its centre and radius, overlaps the box, boundaries
    included, and 0 otherwise. *)
Definition circleInBox (circleX circleY circleRadius boxL boxR boxT boxB : F) : Z :=
  if fle (fsub circleX circleRadius) boxR && fle boxL (fadd circleX circleRadius)
     && fle (fsub circleY circleRadius) boxT && fle boxB (fadd circleY circleRadius)
  then 1 else 0.

(** Modelled from the spec: [lookupColor] (lookupColor.cu_inl is not among
    the sources), a pure function from the normalised distance to a colour. *)
Context (lookupColor : F -> float3 F).

Variable cuConstRendererParams : GlobalConstants F.

(** The box that [kernelMarkBlocks] tests the circles of block [blockIdx]
    against, as [(boxL, boxR, boxT, boxB)]. *)
Definition mark_box (blockSize blockIdx : Z) : F * F * F * F :=
  let imageWidth := f_of_int (imageWidth cuConstRendererParams) in
  let imageHeight := f_of_int (imageHeight cuConstRendererParams) in
  let gridXSize :=
    f_to_int (fdiv (fsub (fadd imageWidth (f_of_int blockSize)) (f_of_int 1))
                   (f_of_int blockSize)) in
  let blockX := Z.rem blockIdx gridXSize in
  let blockY := div blockIdx gridXSize in
  let boxL := fdiv (fadd (f_of_int (mul blockSize blockX)) (f_lit (1 # 2))) imageWidth in
  let boxR := fdiv (fadd (f_of_int (mul blockSize (add blockX 1))) (f_lit (1 # 2))) imageWidth in
  let boxB := fdiv (fadd (f_of_int (mul blockSize blockY)) (f_lit (1 # 2))) imageHeight in
  let boxT := fdiv (fadd (f_of_int (mul blockSize (add blockY 1))) (f_lit (1 # 2))) imageHeight in
  (boxL, boxR, boxT, boxB).

(** [int gridXSize = (imageWidth + blockSize - 1) / blockSize] of
    [kernelMarkBlocks]: the number of tiles in a row, which the kernel
    computes from the [float] image width. *)
Definition mark_gridXSize (blockSize : Z) : Z :=
  let imageWidth := f_of_int (imageWidth cuConstRendererParams) in
  f_to_int (fdiv (fsub (fadd imageWidth (f_of_int blockSize)) (f_of_int 1))
                 (f_of_int blockSize)).

Definition mark_body (blockSize numCircles blockIdx : Z) (circleIdx : Z)
    (hitCircles : buf) : outcome buf :=
  p ← load3 (position cuConstRendererParams) (mul 3 circleIdx);
  let '(boxL, boxR, boxT, boxB) := mark_box blockSize blockIdx in
  r ← load (radius cuConstRendererParams) circleIdx;
  store hitCircles (add (mul blockIdx numCircles) circleIdx)
    (circleInBox (x3 p) (y3 p) r boxL boxR boxT boxB).

(** One thread of [kernelMarkBlocks<<<numBlocks, blockDim>>>]. *)
Definition kernelMarkBlocks (blockDim blockSize numCircles : Z)
    (blockIdx threadIdx : Z) (hitCircles : buf) : outcome buf :=
  let maxIterations := div (sub (add numCircles blockDim) 1) blockDim in
  strided_loop (S (Z.to_nat maxIterations)) numCircles blockDim maxIterations
    (mark_body blockSize numCircles blockIdx) 0 threadIdx hitCircles.

(** Modelled from the spec: [sharedMemExclusiveScan] (exclusiveScan.cu_inl
    is not among the sources), the work-group exclusive scan: called by every
    thread of the block, it leaves in [output[i]] the sum of
    [input[0..i-1]], for [i < size], in unsigned 32-bit arithmetic. *)
Definition sharedMemExclusiveScan (input : buf) (size : Z) : buf :=
  (fun i => wrapu (foldr Z.add 0 (take (Z.to_nat i) input))) <$> seqZ 0 size.

(** The three passes of one round of [kernelScan2], between its barriers;
    in round [j] the local [i] of thread [threadIdx] is
    [threadIdx + j * SCAN_BLOCK_DIM]. *)
Definition scan2_load (hitCircles : buf) (numCircles blockIdx j : Z)
    (threadIdx : Z) (prefixSumInput : buf) : outcome buf :=
  let i := add threadIdx (mul j SCAN_BLOCK_DIM) in
  if i <? numCircles then
    h ← load hitCircles (add (mul blockIdx numCircles) i);
    store prefixSumInput threadIdx (wrapu h)
  else Ok prefixSumInput.

Definition scan2_store (hitCircles prefixSumOutput : buf) (numCircles blockIdx j : Z)
    (threadIdx : Z) (prefixes : buf) : outcome buf :=
  let i := add threadIdx (mul j SCAN_BLOCK_DIM) in
  if i <? numCircles then
    o ← load prefixSumOutput threadIdx;
    prefixes ← store prefixes (add (mul blockIdx numCircles) i) (wrap o);
    if 1 <=? j then
      let last := add (mul blockIdx numCircles) (sub (mul j SCAN_BLOCK_DIM) 1) in
      a ← load prefixes last;
      let a := if 0 <=? a then a else 0 in
      h ← load hitCircles last;
      let a := if h =? 1 then add a 1 else a in
      p ← load prefixes (add (mul blockIdx numCircles) i);
      store prefixes (add (mul blockIdx numCircles) i) (add p a)
    else Ok prefixes
  else Ok prefixes.

(** [do { ... i += SCAN_BLOCK_DIM; j++; } while (j < maxIterations)], run by
    the [SCAN_BLOCK_DIM] threads of a block in step. *)
Fixpoint scan2_rounds (fuel : nat) (hitCircles : buf) (numCircles blockIdx maxIterations : Z)
    (j : Z) (prefixSumInput prefixes : buf) : outcome (buf * buf) :=
  match fuel with
  | O => Err OutOfFuel
  | S fuel' =>
      prefixSumInput ← foldM (scan2_load hitCircles numCircles blockIdx j)
                         (seqZ 0 SCAN_BLOCK_DIM) prefixSumInput;
      let prefixSumOutput := sharedMemExclusiveScan prefixSumInput SCAN_BLOCK_DIM in
      prefixes ← foldM (scan2_store hitCircles prefixSumOutput numCircles blockIdx j)
                   (seqZ 0 SCAN_BLOCK_DIM) prefixes;
      let j := add j 1 in
      if j <? maxIterations
      then scan2_rounds fuel' hitCircles numCircles blockIdx maxIterations j
             prefixSumInput prefixes
      else Ok (prefixSumInput, prefixes)
  end.

(** One block of [kernelScan2<<<numBlocks, SCAN_BLOCK_DIM>>>]; [shared] is
    what the block's shared memory holds when it starts. *)
Definition kernelScan2 (shared : Z -> Z -> Z) (hitCircles : buf) (numCircles : Z)
    (blockIdx : Z) (prefixes : buf) : outcome buf :=
  let maxIterations := div (sub (add numCircles SCAN_BLOCK_DIM) 1) SCAN_BLOCK_DIM in
  let prefixSumInput := cudaMalloc SCAN_BLOCK_DIM (shared blockIdx) in
  r ← scan2_rounds (S (Z.to_nat maxIterations)) hitCircles numCircles blockIdx
        maxIterations 0 prefixSumInput prefixes;
  Ok r.2.

Definition makeLists_body (hitCircles prefixes : buf) (numCircles blockIdx : Z)
    (circleIdx : Z) (hitCirclesList : buf) : outcome buf :=
  let index := add (mul blockIdx numCircles) circleIdx in
  idx ← load prefixes index;
  h ← load hitCircles index;
  hitCirclesList ←
    (if h =? 1
     then store hitCirclesList (add (mul blockIdx numCircles) idx) circleIdx
     else Ok hitCirclesList);
  if circleIdx =? sub numCircles 1 then
    if (h =? 1) && (idx <? sub numCircles 1)
    then store hitCirclesList (add (add (mul blockIdx numCircles) idx) 1) (-1)
    else if h =? 0
         then store hitCirclesList (add (mul blockIdx numCircles) idx) (-1)
         else Ok hitCirclesList
  else Ok hitCirclesList.

(** One thread of [kernelMakeLists<<<numBlocks, blockDim>>>]. *)
Definition kernelMakeLists (blockDim : Z) (hitCircles prefixes : buf)
    (blockIdx threadIdx : Z) (hitCirclesList : buf) : outcome buf :=
  let numCircles := numberOfCircles cuConstRendererParams in
  let maxIterations := div (sub (add numCircles blockDim) 1) blockDim in
  strided_loop (S (Z.to_nat maxIterations)) numCircles blockDim maxIterations
    (makeLists_body hitCircles prefixes numCircles blockIdx) 0 threadIdx
    hitCirclesList.

(** The shading value of circle [circleIndex] at a pixel that it covers, as
    [(rgb, alpha)]. *)
Definition shade (p : float3 F) (pixelDist rad : F) (circleIndex : Z)
  : outcome (float3 F * F) :=
  if is_snow (sceneName cuConstRendererParams) then
    let kCircleMaxAlpha := f_lit (1 # 2) in
    let falloffScale := f_lit 4 in
    let normPixelDist := fdiv (fsqrt pixelDist) rad in
    let rgb := lookupColor normPixelDist in
    let maxAlpha := fadd (f_lit (6 # 10)) (fmul (f_lit (4 # 10)) (fsub (f_lit 1) (z3 p))) in
    let maxAlpha := fmul kCircleMaxAlpha (fmaxf (fminf maxAlpha (f_lit 1)) (f_lit 0)) in
    let alpha :=
      fmul maxAlpha
        (fexp (fmul (fmul (fmul (f_lit (-1)) falloffScale) normPixelDist) normPixelDist)) in
    Ok (rgb, alpha)
  else
    let index3 := mul 3 circleIndex in
    rgb ← load3 (color cuConstRendererParams) index3;
    Ok (rgb, f_lit (1 # 2)).

Definition composite (rgb : float3 F) (alpha : F) (existingColor : float4 F)
  : float4 F :=
  let oneMinusAlpha := fsub (f_lit 1) alpha in
  {| x4 := fadd (fmul alpha (x3 rgb)) (fmul oneMinusAlpha (x4 existingColor));
     y4 := fadd (fmul alpha (y3 rgb)) (fmul oneMinusAlpha (y4 existingColor));
     z4 := fadd (fmul alpha (z3 rgb)) (fmul oneMinusAlpha (z4 existingColor));
     w4 := fadd alpha (w4 existingColor) |}.

(** [for (int i = 0; i < numCircles; i++)] of [kernelRenderPixelsLocal];
    [newColor] is [None] as long as the local was never assigned. *)
Fixpoint render_loop (fuel : nat) (hitCirclesList : buf) (calcBlockId numCircles : Z)
    (pixelCenter : F * F) (i : Z) (existingColor : float4 F)
    (newColor : option (float4 F)) : outcome (float4 F * option (float4 F)) :=
  match fuel with
  | O => Err OutOfFuel
  | S fuel' =>
      if i <? numCircles then
        circleIndex ← load hitCirclesList (add (mul calcBlockId numCircles) i);
        if circleIndex <? 0 then Ok (existingColor, newColor)
        else
          let i3 := mul 3 circleIndex in
          p ← load3 (position cuConstRendererParams) i3;
          let diffX := fsub (x3 p) pixelCenter.1 in
          let diffY := fsub (y3 p) pixelCenter.2 in
          let pixelDist := fadd (fmul diffX diffX) (fmul diffY diffY) in
          rad ← load (radius cuConstRendererParams) circleIndex;
          let maxDist := fmul rad rad in
          if fgt pixelDist maxDist
          then render_loop fuel' hitCirclesList calcBlockId numCircles pixelCenter
                 (add i 1) existingColor newColor
          else
            sh ← shade p pixelDist rad circleIndex;
            let newColor := composite sh.1 sh.2 existingColor in
            render_loop fuel' hitCirclesList calcBlockId numCircles pixelCenter
              (add i 1) newColor (Some newColor)
      else Ok (existingColor, newColor)
  end.

Definition pixel_center (pixelX pixelY : Z) : F * F :=
  let invWidth := fdiv (f_lit 1) (f_of_int (imageWidth cuConstRendererParams)) in
  let invHeight := fdiv (f_lit 1) (f_of_int (imageHeight cuConstRendererParams)) in
  (fmul invWidth (fadd (f_of_int pixelX) (f_lit (1 # 2))),
   fmul invHeight (fadd (f_of_int pixelY) (f_lit (1 # 2)))).

Definition pixel_block (blockSize pixelX pixelY : Z) : Z :=
  let gridXSize :=
    div (sub (add (imageWidth cuConstRendererParams) blockSize) 1) blockSize in
  add (mul (div pixelY blockSize) gridXSize) (div pixelX blockSize).

(** One thread of [kernelRenderPixelsLocal]. *)
Definition kernelRenderPixelsLocal (hitCirclesList : buf) (blockSize : Z)
    (index : Z * Z) (imageData : list F) : outcome (list F) :=
  let '(indexX, indexY) := index in
  let imageWidth := imageWidth cuConstRendererParams in
  let imageHeight := imageHeight cuConstRendererParams in
  if (indexX >=? imageWidth) || (indexY >=? imageHeight) then Ok imageData
  else
    let pixelY := indexY in
    let pixelX := indexX in
    let offset := mul 4 (add (mul pixelY imageWidth) pixelX) in
    let pixelCenter := pixel_center pixelX pixelY in
    let calcBlockId := pixel_block blockSize pixelX pixelY in
    let numCircles := numberOfCircles cuConstRendererParams in
    existingColor ← load4 imageData offset;
    r ← render_loop (S (Z.to_nat numCircles)) hitCirclesList calcBlockId numCircles
          pixelCenter 0 existingColor None;
    match r.2 with
    | Some newColor => store4 imageData offset newColor
    | None => Err Uninitialized
    end.

(** [CudaRenderer::render]: the four launches of a frame; each launch ends
    before the next starts.  [blockSize] and [numBlocks] are the globals set
    up by [setup]. *)
Definition render (blockSize numBlocks : Z) (shared : Z -> Z -> Z)
    (hitCircles prefixes hitCirclesList : buf) (imageData : list F)
  : outcome (buf * buf * buf * list F) :=
  let numCircles := numberOfCircles cuConstRendererParams in
  hitCircles ←
    launch_blocks numBlocks 1024 (kernelMarkBlocks 1024 blockSize numCircles) hitCircles;
  prefixes ← foldM (kernelScan2 shared hitCircles numCircles) (seqZ 0 numBlocks) prefixes;
  hitCirclesList ←
    launch_blocks numBlocks 1024 (kernelMakeLists 1024 hitCircles prefixes) hitCirclesList;
  let threadBlockSize := 32 in
  let gx := div (sub (add (imageWidth cuConstRendererParams) threadBlockSize) 1)
                threadBlockSize in
  let gy := div (sub (add (imageHeight cuConstRendererParams) threadBlockSize) 1)
                threadBlockSize in
  imageData ← foldM (kernelRenderPixelsLocal hitCirclesList blockSize)
                (grid2D gx gy threadBlockSize threadBlockSize) imageData;
  Ok (hitCircles, prefixes, hitCirclesList, imageData).

End Kernels.

End Render.

(** ** The other kernels of the renderer *)

Module Kernels.

Import Int32 Render.

Section OtherKernels.

Context {F : Type} `{FloatOps F}.
Context (lookupColor : F -> float3 F).
Variable cuConstRendererParams : GlobalConstants F.

(** One thread of [kernelClearImageSnowflake]. *)
Definition kernelClearImageSnowflake (index : Z * Z) (imageData : list F)
  : outcome (list F) :=
  let '(imageX, imageY) := index in
  let width := imageWidth cuConstRendererParams in
  let height := imageHeight cuConstRendererParams in
  if (imageX >=? width) || (imageY >=? height) then Ok imageData
  else
    let offset := mul 4 (add (mul imageY width) imageX) in
    let shade :=
      fadd (f_lit (4 # 10))
           (fdiv (fmul (f_lit (45 # 100)) (f_of_int (sub height imageY)))
                 (f_of_int height)) in
    store4 imageData offset (Float4 shade shade shade (f_lit 1)).

(** One thread of [kernelClearImage(r, g, b, a)]. *)
Definition kernelClearImage (r g b a : F) (index : Z * Z) (imageData : list F)
  : outcome (list F) :=
  let '(imageX, imageY) := index in
  let width := imageWidth cuConstRendererParams in
  let height := imageHeight cuConstRendererParams in
  if (imageX >=? width) || (imageY >=? height) then Ok imageData
  else
    let offset := mul 4 (add (mul imageY width) imageX) in
    store4 imageData offset (Float4 r g b a).

(** [CudaRenderer::clearImage]; the image of the renderer has the width and
    height that [setup] put into [cuConstRendererParams]. *)
Definition clearImage (imageData : list F) : outcome (list F) :=
  let gx := div (sub (add (imageWidth cuConstRendererParams) 16) 1) 16 in
  let gy := div (sub (add (imageHeight cuConstRendererParams) 16) 1) 16 in
  if is_snow (sceneName cuConstRendererParams)
  then foldM kernelClearImageSnowflake (grid2D gx gy 16 16) imageData
  else foldM (kernelClearImage (f_lit 1) (f_lit 1) (f_lit 1) (f_lit 1))
         (grid2D gx gy 16 16) imageData.

(** One thread of [kernelAdvanceHypnosis]; the kernel writes the radius
    array, which is the state here. *)
Definition kernelAdvanceHypnosis (index : Z) (radius : list F) : outcome (list F) :=
  if index >=? numberOfCircles cuConstRendererParams then Ok radius
  else
    let cutOff := f_lit (1 # 2) in
    r ← load radius index;
    if fgt r cutOff then store radius index (f_lit (2 # 100))
    else
      r ← load radius index;
      store radius index (fadd r (f_lit (1 # 100))).

(** The launch of [kernelAdvanceHypnosis] in [advanceAnimation]: blocks of
    256 threads. *)
Definition advanceHypnosis (radius : list F) : outcome (list F) :=
  let gridDim := div (sub (add (numberOfCircles cuConstRendererParams) 256) 1) 256 in
  launch1D gridDim 256 kernelAdvanceHypnosis radius.

(** [shadePixel(pixelCenter, p, imagePtr, circleIndex)]; [imagePtr] is the
    offset of the pixel in the image. *)
Definition shadePixel (pixelCenter : F * F) (p : float3 F) (imagePtr : Z)
    (circleIndex : Z) (imageData : list F) : outcome (list F) :=
  let diffX := fsub (x3 p) pixelCenter.1 in
  let diffY := fsub (y3 p) pixelCenter.2 in
  let pixelDist := fadd (fmul diffX diffX) (fmul diffY diffY) in
  rad ← load (radius cuConstRendererParams) circleIndex;
  let maxDist := fmul rad rad in
  if fgt pixelDist maxDist then Ok imageData
  else
    sh ← shade lookupColor cuConstRendererParams p pixelDist rad circleIndex;
    existingColor ← load4 imageData imagePtr;
    store4 imageData imagePtr (composite sh.1 sh.2 existingColor).

(** [for (int i = 0; i < cuConstRendererParams.numberOfCircles; i++)] of
    [kernelRenderPixels]. *)
Fixpoint renderPixels_loop (fuel : nat) (pixelCenterNorm : F * F) (imgPtr : Z)
    (i : Z) (imageData : list F) : outcome (list F) :=
  match fuel with
  | O => Err OutOfFuel
  | S fuel' =>
      if i <? numberOfCircles cuConstRendererParams then
        let i3 := mul 3 i in
        p ← load3 (position cuConstRendererParams) i3;
        imageData ← shadePixel pixelCenterNorm p imgPtr i imageData;
        renderPixels_loop fuel' pixelCenterNorm imgPtr (add i 1) imageData
      else Ok imageData
  end.

(** One thread of [kernelRenderPixels]: every circle, in index order. *)
Definition kernelRenderPixels (index : Z * Z) (imageData : list F)
  : outcome (list F) :=
  let '(indexX, indexY) := index in
  let imageWidth := imageWidth cuConstRendererParams in
  let imageHeight := imageHeight cuConstRendererParams in
  if (indexX >=? imageWidth) || (indexY >=? imageHeight) then Ok imageData
  else
    let pixelY := indexY in
    let pixelX := indexX in
    let imgPtr := mul 4 (add (mul pixelY imageWidth) pixelX) in
    let pixelCenterNorm := pixel_center cuConstRendererParams pixelX pixelY in
    renderPixels_loop (S (Z.to_nat (numberOfCircles cuConstRendererParams)))
      pixelCenterNorm imgPtr 0 imageData.

(** [for (int i = 0; i < numCircles; i++)] of [kernelRenderPixelsNew]. *)
Fixpoint renderPixelsNew_loop (fuel : nat) (hitCirclesList : buf)
    (calcBlockId numCircles : Z) (pixelCenterNorm : F * F) (imgPtr : Z)
    (i : Z) (imageData : list F) : outcome (list F) :=
  match fuel with
  | O => Err OutOfFuel
  | S fuel' =>
      if i <? numCircles then
        circleId ← load hitCirclesList (add (mul calcBlockId numCircles) i);
        if circleId <? 0 then Ok imageData
        else
          let i3 := mul 3 circleId in
          p ← load3 (position cuConstRendererParams) i3;
          imageData ← shadePixel pixelCenterNorm p imgPtr circleId imageData;
          renderPixelsNew_loop fuel' hitCirclesList calcBlockId numCircles
            pixelCenterNorm imgPtr (add i 1) imageData
      else Ok imageData
  end.

(** One thread of [kernelRenderPixelsNew]: the circles of the tile's list. *)
Definition kernelRenderPixelsNew (hitCirclesList : buf) (blockSize : Z)
    (index : Z * Z) (imageData : list F) : outcome (list F) :=
  let '(indexX, indexY) := index in
  let imageWidth := imageWidth cuConstRendererParams in
  let imageHeight := imageHeight cuConstRendererParams in
  if (indexX >=? imageWidth) || (indexY >=? imageHeight) then Ok imageData
  else
    let pixelY := indexY in
    let pixelX := indexX in
    let imgPtr := mul 4 (add (mul pixelY imageWidth) pixelX) in
    let pixelCenterNorm := pixel_center cuConstRendererParams pixelX pixelY in
    let calcBlockId := pixel_block cuConstRendererParams blockSize pixelX pixelY in
    let numCircles := numberOfCircles cuConstRendererParams in
    renderPixelsNew_loop (S (Z.to_nat numCircles)) hitCirclesList calcBlockId
      numCircles pixelCenterNorm imgPtr 0 imageData.

(** The number of tiles that [CudaRenderer::setup] computes and sizes the
    three tile buffers by. *)
Definition setup_numBlocks (blockSize : Z) : Z :=
  let blocksXSize :=
    div (sub (add (imageWidth cuConstRendererParams) blockSize) 1) blockSize in
  let blocksYSize :=
    div (sub (add (imageHeight cuConstRendererParams) blockSize) 1) blockSize in
  mul blocksXSize blocksYSize.

End OtherKernels.

End Kernels.

(** Exact rational arithmetic, to run the kernels on small scenes.  [sqrt]
    and [exp] are not rational functions; only the snowflake shading uses
    them, and the scenes evaluated below are flat-colour ones. *)
#[global] Instance Q_FloatOps : FloatOps Q := {|
  f_of_int := inject_Z;
  f_to_int := fun q => Z.quot (Qnum q) (Zpos (Qden q));
  f_lit := fun q => q;
  fadd := fun a b => Qred (Qplus a b);
  fsub := fun a b => Qred (Qminus a b);
  fmul := fun a b => Qred (Qmult a b);
  fdiv := fun a b => Qred (Qdiv a b);
  fgt := fun a b => negb (Qle_bool a b);
  fle := Qle_bool;
  fsqrt := fun a => a;
  fexp := fun a => a;
  fminf := fun a b => if Qle_bool a b then a else b;
  fmaxf := fun a b => if Qle_bool a b then b else a
|}.

(** * Specification vocabulary *)

Import Int32 Scan Render.

(** ** Reading buffers in statements *)

Definition get (d : buf) (j : Z) : Z := default 0 (d !! Z.to_nat j).

(** Sum of the first [j] elements. *)
Definition psum (a : buf) (j : Z) : Z := foldr Z.add 0 (take (Z.to_nat j) a).


Definition sumZ (l : list Z) : Z := foldr Z.add 0 l.


Definition agree_upto (n : Z) (x y : buf) : Prop :=
  forall i : nat, Z.of_nat i < n -> x !! i = y !! i.


Definition same_result (n : Z) (r1 r2 : outcome buf) : Prop :=
  match r1, r2 with
  | Ok o1, Ok o2 => agree_upto n o1 o2
  | Err e1, Err e2 => e1 = e2
  | _, _ => False
  end.


(** After the shifts by 1, 2, 4, 8 and 16 every bit below the highest set bit
    is set: [filled w x b] says that [x] has no bit above [b] and has the [w]
    bits from [b] downwards. *)
Definition filled (w x b : Z) : Prop :=
  (forall i, b < i -> Z.testbit x i = false) /\
  (forall i, 0 <= i -> b - w < i <= b -> Z.testbit x i = true).


Definition fill (x : Z) : Z :=
  let n := x in
  let n := or n (shr n 1) in
  let n := or n (shr n 2) in
  let n := or n (shr n 4) in
  let n := or n (shr n 8) in
  or n (shr n 16).


Section PassDefs.

Variables (L twod : Z) (d0 : buf).

(** What a cell holds after one up-sweep level at stride [twod]. *)
Definition up_cell (j : Z) : Z :=
  if (j + 1) mod (2 * twod) =? 0 then Int32.add (get d0 j) (get d0 (j - twod)) else get d0 j.

(** What a cell holds after one down-sweep level at stride [twod]. *)
Definition down_cell (j : Z) : Z :=
  if (j + 1) mod (2 * twod) =? 0 then Int32.add (get d0 j) (get d0 (j - twod))
  else if (j + 1) mod (2 * twod) =? twod then get d0 (j + twod)
  else get d0 j.

(** The buffer once the first [c] threads of a level have run. *)
Definition pass_inv (cell : Z -> Z) (c : Z) (d : buf) : Prop :=
  length d = length d0 /\
  forall j, 0 <= j < L -> get d j = if j <? c * (2 * twod) then cell j else get d0 j.

End PassDefs.

Definition blocks_of (n : Z) : Z := (n + 511) / 512.


Section TreeDefs.

Variables (a : buf) (k : Z).

(** Sum of the [2^t] cells that end at [j], as an [int]. *)
Definition seg (t j : Z) : Z := Int32.wrap (psum a (j + 1) - psum a (j + 1 - 2 ^ t)).

(** The sum tree after [m] up-sweep levels. *)
Definition up_inv (m : Z) (d : buf) : Prop :=
  length d = length a /\
  forall t j, 0 <= t <= m -> 0 <= j < 2 ^ k ->
    (j + 1) mod 2 ^ t = 0 -> ((j + 1) mod 2 ^ (t + 1) <> 0 \/ t = m) ->
    get d j = seg t j.

(** The buffer when the down-sweep has [m] levels to go. *)
Definition down_inv (m : Z) (d : buf) : Prop :=
  length d = length a /\
  (forall j, 0 <= j < 2 ^ k -> (j + 1) mod 2 ^ m = 0 ->
     get d j = Int32.wrap (psum a (j + 1 - 2 ^ m))) /\
  (forall t j, 0 <= t < m -> 0 <= j < 2 ^ k ->
     (j + 1) mod 2 ^ t = 0 -> (j + 1) mod 2 ^ (t + 1) <> 0 ->
     get d j = seg t j).

End TreeDefs.

Definition half_pow (m : Z) : Z := if m =? 0 then 0 else 2 ^ (m - 1).


Section CoverDefs.

Variables (N bd : Z).

(** The circles handled once the threads below [tid] are through and thread
    [tid] has made [j] rounds. *)
Definition covered (tid j : Z) (done : list Z) : Prop :=
  forall c, c ∈ done <->
    0 <= c < N /\ (c mod bd < tid \/ (c mod bd = tid /\ c < tid + j * bd)).

Definition covered_below (tid : Z) (done : list Z) : Prop :=
  forall c, c ∈ done <-> 0 <= c < N /\ c mod bd < tid.

End CoverDefs.

(** ** Hit rows and their compaction *)

(** The circles below [c] that hit tile [t], in increasing order. *)
Definition hits_before (hit : buf) (N t c : Z) : list Z :=
  filter (fun c' => get hit (t * N + c') = 1) (seqZ 0 c).

(** Row [t] of the prefix matrix holds the exclusive hit counts of row [t]
    of the hit matrix. *)
Definition prefix_row (hit prefixes : buf) (N t : Z) : Prop :=
  forall c, 0 <= c < N ->
    get prefixes (t * N + c) = Z.of_nat (length (hits_before hit N t c)).

Definition row (N t : Z) (l : buf) : buf :=
  take (Z.to_nat N) (drop (Z.to_nat (t * N)) l).


(** Number of circles below [c] that hit tile [t]. *)
Definition hit_count (hit : buf) (N t c : Z) : Z :=
  Z.of_nat (length (hits_before hit N t c)).


(** What the list-build stage has done to row [t] of the list buffer once
    the circles in [done] are through; [sent] tells whether the sentinel is
    written. *)
Definition lists_state (hit lst0 : buf) (N t : Z) (done : list Z) (sent : bool)
    (lst : buf) : Prop :=
  let hits := hits_before hit N t N in
  let count := Z.of_nat (length hits) in
  length lst = length lst0 /\
  (forall (s : nat) c, hits !! s = Some c ->
     get lst (t * N + Z.of_nat s)
     = if decide (c ∈ done) then c else get lst0 (t * N + Z.of_nat s)) /\
  (count < N ->
     get lst (t * N + count) = if sent then -1 else get lst0 (t * N + count)) /\
  (forall idx, 0 <= idx -> ~ (t * N <= idx < t * N + count) ->
     ~ (idx = t * N + count /\ count < N) -> get lst idx = get lst0 idx).


(** Row [t] of the list buffer after the list-build stage, against the
    buffer [lst0] the stage started from. *)
Definition row_built (hit lst0 : buf) (N t : Z) (lst : buf) : Prop :=
  let hits := hits_before hit N t N in
  let count := Z.of_nat (length hits) in
  (forall (s : nat) c, hits !! s = Some c -> get lst (t * N + Z.of_nat s) = c) /\
  (count < N -> get lst (t * N + count) = -1) /\
  (forall s, count < s < N -> get lst (t * N + s) = get lst0 (t * N + s)).


(** The list buffer once the blocks below [b] have run. *)
Definition grid_inv (hit lst0 : buf) (N : Z) (b : Z) (lst : buf) : Prop :=
  length lst = length lst0 /\
  (forall t, 0 <= t < b -> row_built hit lst0 N t lst) /\
  (forall idx, b * N <= idx -> get lst idx = get lst0 idx).

(** The layout of a row after the list-build stage. *)
Definition built_row (hit lst0 : buf) (N t : Z) : buf :=
  let hits := hits_before hit N t N in
  hits ++ (if decide (Z.of_nat (length hits) < N)
           then -1 :: drop (S (length hits)) (row N t lst0) else []).


(** Row [t] of the prefix buffer once the circles below [n] are done; the
    other rows are as in [prefixes0]. *)
Definition scan2_inv (hit prefixes0 : buf) (N t : Z) (n : Z) (p : buf) : Prop :=
  length p = length prefixes0 /\
  (forall c, 0 <= c < n -> c < N -> get p (t * N + c) = hit_count hit N t c) /\
  (forall idx, 0 <= idx -> ~ (t * N <= idx < t * N + N) -> get p idx = get prefixes0 idx).

(** The flag that the mark phase computes for circle [c] and tile [t]: the
    overlap test of the circle's bounding box against [mark_box]. *)
Definition box_overlap {F : Type} `{FloatOps F} (x y r : F) (box : F * F * F * F) : bool :=
  let '(boxL, boxR, boxT, boxB) := box in
  fle (fsub x r) boxR && fle boxL (fadd x r)
  && fle (fsub y r) boxT && fle boxB (fadd y r).

Definition circle_flag {F : Type} `{FloatOps F} (cu : GlobalConstants F)
    (blockSize t c : Z) : Z :=
  match position cu !! Z.to_nat (3 * c), position cu !! Z.to_nat (3 * c + 1),
        radius cu !! Z.to_nat c with
  | Some x, Some y, Some r =>
      if box_overlap x y r (mark_box cu blockSize t) then 1 else 0
  | _, _, _ => 0
  end.

(** The box of tile [(tx, ty)] in the words of the claim about the mark
    phase: from [(blockSize * tx + 0.5) / W] to
    [(blockSize * (tx + 1) + 0.5) / W] in [x] and from
    [(blockSize * ty + 0.5) / H] to [(blockSize * (ty + 1) + 0.5) / H] in
    [y], as [(boxL, boxR, boxT, boxB)]. *)
Definition tile_box {F : Type} `{FloatOps F} (cu : GlobalConstants F)
    (blockSize tx ty : Z) : F * F * F * F :=
  let W := f_of_int (imageWidth cu) in
  let Hh := f_of_int (imageHeight cu) in
  (fdiv (fadd (f_of_int (blockSize * tx)) (f_lit (1 # 2))) W,
   fdiv (fadd (f_of_int (blockSize * (tx + 1))) (f_lit (1 # 2))) W,
   fdiv (fadd (f_of_int (blockSize * (ty + 1))) (f_lit (1 # 2))) Hh,
   fdiv (fadd (f_of_int (blockSize * ty)) (f_lit (1 # 2))) Hh).


(** The hit buffer once block [t] has marked the circles in [done]. *)
Definition mark_inv {F : Type} `{FloatOps F} (cu : GlobalConstants F) (blockSize N : Z)
    (hit0 : buf) (t : Z) (done : list Z) (hit : buf) : Prop :=
  length hit = length hit0 /\
  (forall c, 0 <= c < N ->
     get hit (t * N + c)
     = if decide (c ∈ done) then circle_flag cu blockSize t c else get hit0 (t * N + c)) /\
  (forall idx, 0 <= idx -> ~ (t * N <= idx < t * N + N) -> get hit idx = get hit0 idx).

(** ** Compositing, as a fold over the circles of a tile *)

Section PaintDefs.

Context {F : Type} `{FloatOps F}.
Variable lookupColor : F -> float3 F.
Variable cu : GlobalConstants F.

(** Centre and radius of circle [c]. *)
Definition circle_at (c : Z) : option (float3 F * F) :=
  match position cu !! Z.to_nat (3 * c), position cu !! Z.to_nat (3 * c + 1),
        position cu !! Z.to_nat (3 * c + 2), radius cu !! Z.to_nat c with
  | Some x, Some y, Some z, Some r => Some (Float3 x y z, r)
  | _, _, _, _ => None
  end.

(** Squared distance from the pixel centre to the circle centre. *)
Definition dist2 (p : float3 F) (pixelCenter : F * F) : F :=
  fadd (fmul (fsub (x3 p) pixelCenter.1) (fsub (x3 p) pixelCenter.1))
       (fmul (fsub (y3 p) pixelCenter.2) (fsub (y3 p) pixelCenter.2)).

(** Circle [c] contributes to the pixel: the squared distance does not
    exceed the squared radius. *)
Definition covers (pixelCenter : F * F) (c : Z) : bool :=
  match circle_at c with
  | Some (p, rad) => negb (fgt (dist2 p pixelCenter) (fmul rad rad))
  | None => false
  end.

(** Colour and alpha of a snowflake at squared distance [d]. *)
Definition snow_shade (p : float3 F) (d rad : F) : float3 F * F :=
  let nd := fdiv (fsqrt d) rad in
  let clamped := fmaxf (fminf (fadd (f_lit (6 # 10))
                   (fmul (f_lit (4 # 10)) (fsub (f_lit 1) (z3 p)))) (f_lit 1)) (f_lit 0) in
  (lookupColor nd,
   fmul (fmul (f_lit (1 # 2)) clamped)
        (fexp (fmul (fmul (fmul (f_lit (-1)) (f_lit 4)) nd) nd))).

(** The over-operator: [alpha * rgb + (1 - alpha) * existing] on the colour
    channels, [alpha + existing] on the alpha channel. *)
Definition over (rgb : float3 F) (alpha : F) (e : float4 F) : float4 F :=
  Float4 (fadd (fmul alpha (x3 rgb)) (fmul (fsub (f_lit 1) alpha) (x4 e)))
         (fadd (fmul alpha (y3 rgb)) (fmul (fsub (f_lit 1) alpha) (y4 e)))
         (fadd (fmul alpha (z3 rgb)) (fmul (fsub (f_lit 1) alpha) (z4 e)))
         (fadd alpha (w4 e)).

(** What circle [c] does to the colour [e] of a pixel. *)
Definition paint (pixelCenter : F * F) (e : float4 F) (c : Z) : float4 F :=
  match circle_at c with
  | Some (p, rad) =>
      if fgt (dist2 p pixelCenter) (fmul rad rad) then e
      else if is_snow (sceneName cu) then
        let sh := snow_shade p (dist2 p pixelCenter) rad in over sh.1 sh.2 e
      else
        match color cu !! Z.to_nat (3 * c), color cu !! Z.to_nat (3 * c + 1),
              color cu !! Z.to_nat (3 * c + 2) with
        | Some r, Some g, Some b => over (Float3 r g b) (f_lit (1 # 2)) e
        | _, _, _ => e
        end
  | None => e
  end.

End PaintDefs.

(** Row [blk] of the list buffer starts with the circles [cs] and, unless
    [cs] fills the row, goes on with a negative entry. *)
Definition live_row (N : Z) (lst : buf) (blk : Z) (cs : list Z) : Prop :=
  Z.of_nat (length cs) <= N /\
  (forall (s : nat) c, cs !! s = Some c -> get lst (blk * N + Z.of_nat s) = c /\ 0 <= c < N) /\
  (Z.of_nat (length cs) < N -> get lst (blk * N + Z.of_nat (length cs)) < 0).

(** The four floats of pixel [(x, y)] in an image of width [W]. *)
Definition pixel {F : Type} (W : Z) (image : list F) (x y : Z) : option (float4 F) :=
  let off := Z.to_nat (4 * (y * W + x)) in
  match image !! off, image !! S off, image !! S (S off), image !! S (S (S off)) with
  | Some r, Some g, Some b, Some a => Some (Float4 r g b a)
  | _, _, _, _ => None
  end.

Definition set_pixel {F : Type} (W : Z) (image : list F) (x y : Z) (v : float4 F)
  : list F :=
  let off := Z.to_nat (4 * (y * W + x)) in
  <[S (S (S off)) := w4 v]> (<[S (S off) := z4 v]> (<[S off := y4 v]> (<[off := x4 v]> image))).


(** ** Small scenes, to run the kernels on *)

(** A flat-colour scene of [n] circles on a [w] by [h] image. *)
Definition flat_scene (n : Z) (pos col rad : list Q) (w h : Z) : GlobalConstants Q :=
  {| sceneName := CIRCLE_RGB; numberOfCircles := n;
     position := pos; velocity := []; color := col; radius := rad;
     imageWidth := w; imageHeight := h |}.

(** A scene of which only the number of circles matters. *)
Definition circles_only (n : Z) : GlobalConstants Q := flat_scene n [] [] [] 0 0.

(** One red circle of radius 0.1 at the centre of a 5 by 5 image. *)
Definition one_circle : GlobalConstants Q :=
  flat_scene 1 [1 # 2; 1 # 2; 0]%Q [1; 0; 0]%Q [1 # 10]%Q 5 5.

(** A red and a blue circle, both over the centre of a 5 by 5 image. *)
Definition two_circles : GlobalConstants Q :=
  flat_scene 2 [1 # 2; 1 # 2; 0; 1 # 2; 1 # 2; 0]%Q [1; 0; 0; 0; 0; 1]%Q
    [1 # 10; 1 # 5]%Q 5 5.

(** A circle of radius 1/1024 at (1/512, 1/512) in a 128 by 128 image: with
    tiles of 64 pixels it lies inside the first of the four tiles. *)
Definition corner_circle : GlobalConstants Q :=
  flat_scene 1 [1 # 512; 1 # 512; 0]%Q [1; 0; 0]%Q [1 # 1024]%Q 128 128.

(** Three circles on a 4 by 2 image, which tiles of 2 pixels split into a
    left and a right tile: a red circle in the left tile, a green one over
    both tiles, a blue one in the right tile. *)
Definition two_tiles : GlobalConstants Q :=
  flat_scene 3 [1 # 4; 1 # 2; 0; 3 # 4; 1 # 4; 0; 7 # 8; 1 # 4; 0]%Q
    [1; 0; 0; 0; 1; 0; 0; 0; 1]%Q [1 # 10; 3 # 10; 1 # 5]%Q 4 2.

(** An image of [n] pixels cleared to white, as [kernelClearImage(1, 1, 1, 1)]
    leaves it. *)
Definition white_image (n : nat) : list Q := mjoin (replicate n [1; 1; 1; 1]%Q).

(** No colour table: the flat-colour scenes do not look colours up. *)
Definition no_lookup (d : Q) : float3 Q := Float3 d d d.

(** ** Peaks and their compaction *)

(** The indices below [c] whose flag is set, in increasing order
    ([make_list_kernel] tests [if (peaks[i])]). *)
Definition flagged (peaks : buf) (c : Z) : list Z :=
  filter (fun i => get peaks i <> 0) (seqZ 0 c).

(** The flag that [find_peak_kernel] computes for index [i]. *)
Definition peak_flag (data : buf) (i : Z) : Z :=
  if (get data (i - 1) <? get data i) && (get data i >? get data (i + 1)) then 1 else 0.

(** The accesses of thread [i] of [find_peak_kernel] stay inside [data] and
    [peaks]: [data[i+1]] is read only when [data[i-1] < data[i]]. *)
Definition peak_thread_safe (data peaks : buf) (i : Z) : bool :=
  (1 <=? i) && (i <? Z.of_nat (length data)) && (i <? Z.of_nat (length peaks))
  && (negb (get data (i - 1) <? get data i) || (i + 1 <? Z.of_nat (length data))).

(** ** Images and launches over their pixels *)

(** The image in which every pixel [(x, y)] of [image] is replaced by
    [g x y] of it. *)
Definition map_pixels {F : Type} (W Hh : Z) (g : Z -> Z -> float4 F -> float4 F)
    (image image' : list F) : Prop :=
  length image' = length image /\
  forall x y, 0 <= x < W -> 0 <= y < Hh ->
    pixel W image' x y = g x y <$> pixel W image x y.

(** The grey of row [y] in the cleared snowflake image. *)
Definition snow_grey {F : Type} `{FloatOps F} (height y : Z) : F :=
  fadd (f_lit (4 # 10))
       (fdiv (fmul (f_lit (45 # 100)) (f_of_int (height - y))) (f_of_int height)).

(** One step of the hypnosis animation on a radius. *)
Definition hypnosis_step {F : Type} `{FloatOps F} (r : F) : F :=
  if fgt r (f_lit (1 # 2)) then f_lit (2 # 100) else fadd r (f_lit (1 # 100)).

(** The circles that the mark phase flags for tile [t], in increasing
    order. *)
Definition tile_circles {F : Type} `{FloatOps F} (cu : GlobalConstants F)
    (blockSize t : Z) : list Z :=
  filter (fun c => circle_flag cu blockSize t c = 1) (seqZ 0 (numberOfCircles cu)).

(** A circle of radius 1 over the whole of a 2 by 2 image. *)
Definition big_circle : GlobalConstants Q :=
  flat_scene 1 [1 # 2; 1 # 2; 0]%Q [1; 0; 0]%Q [1]%Q 2 2.

(** Flags and their exclusive counts for one block of 512 threads: the
    indices 1 and 3 are flagged. *)
Definition peaks_512 : buf := [0; 1; 0; 1] ++ replicate 508 0.
Definition prefixes_512 : buf := [0; 0; 1; 1] ++ replicate 508 2.

(** * Proofs *)

Module Int32Facts.

Lemma wrap_small z : is_int z -> wrap z = z.
Proof.
  unfold is_int, wrap. intros H.
  rewrite Z.mod_small by lia. lia.
Qed.

Lemma wrap_is_int z : is_int (wrap z).
Proof.
  unfold is_int, wrap.
  pose proof (Z.mod_pos_bound (z + 2 ^ 31) (2 ^ 32) ltac:(lia)). lia.
Qed.

Lemma wrap_shift z k : wrap (z + k * 2 ^ 32) = wrap z.
Proof.
  unfold wrap. replace (z + k * 2 ^ 32 + 2 ^ 31) with (z + 2 ^ 31 + k * 2 ^ 32) by lia.
  now rewrite Z.mod_add by lia.
Qed.

Lemma wrap_decomp z : exists q, wrap z = z + q * 2 ^ 32.
Proof.
  unfold wrap. exists (- ((z + 2 ^ 31) / 2 ^ 32)).
  pose proof (Z.div_mod (z + 2 ^ 31) (2 ^ 32) ltac:(lia)). lia.
Qed.

Lemma wrap_add_l a b : wrap (wrap a + b) = wrap (a + b).
Proof.
  destruct (wrap_decomp a) as [q ->].
  replace (a + q * 2 ^ 32 + b) with (a + b + q * 2 ^ 32) by lia.
  apply wrap_shift.
Qed.

Lemma wrap_add_r a b : wrap (a + wrap b) = wrap (a + b).
Proof. rewrite (Z.add_comm a), wrap_add_l. f_equal. lia. Qed.

Lemma wrap_sub_l a b : wrap (wrap a - b) = wrap (a - b).
Proof. unfold Z.sub. apply wrap_add_l. Qed.

Lemma wrap_idem a : wrap (wrap a) = wrap a.
Proof. apply wrap_small, wrap_is_int. Qed.

End Int32Facts.
Import Int32Facts.

Module NextPow2Facts.

Lemma filled_step w x b :
  0 < w -> 0 <= b -> filled w x b -> filled (2 * w) (or x (shr x w)) b.
Proof.
  intros Hw Hb0 [Hhi Hlo]. unfold or, shr. split; intros i Hi.
  - rewrite Z.lor_spec.
    rewrite Z.shiftr_spec by lia. rewrite !Hhi by lia. reflexivity.
  - intros Hr. rewrite Z.lor_spec, Z.shiftr_spec by lia.
    destruct (Z_lt_dec (b - w) i).
    + rewrite Hlo by lia. reflexivity.
    + rewrite (Hlo (i + w)) by lia. apply orb_true_r.
Qed.

Lemma filled_ones x b :
  0 <= b < 32 -> filled 32 x b -> x = Z.ones (b + 1).
Proof.
  intros Hb [Hhi Hlo]. apply Z.bits_inj'. intros i Hi.
  destruct (Z_lt_dec b i).
  - rewrite Hhi by lia. rewrite Z.ones_spec_high by lia. reflexivity.
  - rewrite Hlo by lia. rewrite Z.ones_spec_low by lia. reflexivity.
Qed.

Lemma nextPow2_fill n : nextPow2 n = add (fill (sub n 1)) 1.
Proof. reflexivity. Qed.

Lemma fill_pos x :
  0 < x < 2 ^ 31 -> fill x = 2 ^ (Z.log2 x + 1) - 1.
Proof.
  intros Hx.
  assert (Hb : 0 <= Z.log2 x < 31).
  { split; [apply Z.log2_nonneg|]. apply Z.log2_lt_pow2; lia. }
  assert (H1 : filled 1 x (Z.log2 x)).
  { split; intros i Hi.
    - apply Z.bits_above_log2; lia.
    - intros Hr. replace i with (Z.log2 x) by lia. apply Z.bit_log2. lia. }
  apply filled_step in H1; [|lia|lia].
  apply filled_step in H1; [|lia|lia].
  apply filled_step in H1; [|lia|lia].
  apply filled_step in H1; [|lia|lia].
  apply filled_step in H1; [|lia|lia].
  change (2 * (2 * (2 * (2 * (2 * 1))))) with 32 in H1.
  unfold fill.
  rewrite (filled_ones _ (Z.log2 x)); [| lia | exact H1].
  rewrite Z.ones_equiv. lia.
Qed.

Lemma fill_zero : fill 0 = 0.
Proof. reflexivity. Qed.

Lemma fill_neg x : - 2 ^ 31 <= x < 0 -> fill x = -1.
Proof.
  intros Hx.
  destruct (Z.eq_dec x (- 2 ^ 31)) as [->|Hne]; [reflexivity|].
  assert (Hhi : forall i, 31 <= i -> Z.testbit x i = true).
  { intros i Hi. apply Z.bits_iff_neg; [|lia].
    apply Z.lt_le_trans with 31; [|lia].
    apply Z.log2_lt_pow2; lia. }
  apply Z.bits_inj'. intros i Hi. rewrite Z.bits_m1 by lia.
  unfold fill, or, shr.
  repeat (rewrite !Z.lor_spec, !Z.shiftr_spec by lia).
  rewrite (Hhi (i + 16 + 8 + 4 + 2 + 1)) by lia.
  rewrite !orb_true_r. reflexivity.
Qed.

Lemma nextPow2_pos n :
  1 <= n <= 2 ^ 30 ->
  exists k, 0 <= k <= 30 /\ nextPow2 n = 2 ^ k /\ n <= 2 ^ k < 2 * n.
Proof.
  intros Hn. rewrite nextPow2_fill. unfold sub, add.
  rewrite (wrap_small (n - 1)) by (unfold is_int; lia).
  destruct (Z.eq_dec n 1) as [->|Hn1].
  { exists 0. split; [lia|]. split; [reflexivity|lia]. }
  rewrite fill_pos by lia.
  assert (Hl : 0 <= Z.log2 (n - 1) < 30).
  { split; [apply Z.log2_nonneg|]. apply Z.log2_lt_pow2; lia. }
  pose proof (Z.log2_spec (n - 1) ltac:(lia)) as Hs.
  rewrite <- Z.add_1_r in Hs.
  set (k := Z.log2 (n - 1) + 1) in *.
  assert (Hk : 2 ^ k = 2 * 2 ^ Z.log2 (n - 1)).
  { unfold k. rewrite Z.pow_add_r by lia. lia. }
  assert (2 ^ k <= 2 ^ 30) by (apply Z.pow_le_mono_r; lia).
  exists k. rewrite Z.sub_add, wrap_small by (unfold is_int; lia).
  split; [lia|]. split; [reflexivity|lia].
Qed.

Lemma nextPow2_nonpos n : - 2 ^ 31 < n <= 0 -> nextPow2 n = 0.
Proof.
  intros Hn. rewrite nextPow2_fill. unfold sub, add.
  rewrite (wrap_small (n - 1)) by (unfold is_int; lia).
  rewrite fill_neg by lia. reflexivity.
Qed.

Lemma nextPow2_big n : 2 ^ 30 < n < 2 ^ 31 -> nextPow2 n = - 2 ^ 31.
Proof.
  intros Hn. rewrite nextPow2_fill. unfold sub, add.
  rewrite (wrap_small (n - 1)) by (unfold is_int; lia).
  rewrite fill_pos by lia.
  assert (Z.log2 (n - 1) = 30) as ->.
  { apply Z.log2_unique; lia. }
  reflexivity.
Qed.

Lemma nextPow2_int_min : nextPow2 (- 2 ^ 31) = - 2 ^ 31.
Proof. reflexivity. Qed.

End NextPow2Facts.
Import NextPow2Facts.

Module MemFacts.

Lemma bind_Ok {A B} (f : A -> outcome B) a : (Ok a ≫= f) = f a.
Proof. reflexivity. Qed.

Lemma bind_Err {A B} (f : A -> outcome B) e : (Err e ≫= f) = Err e.
Proof. reflexivity. Qed.

Lemma load_ok (d : buf) i :
  0 <= i < Z.of_nat (length d) -> load d i = Ok (get d i).
Proof.
  intros H. unfold load, in_bounds, get.
  destruct (Z.leb_spec 0 i); [|lia]. destruct (Z.ltb_spec i (Z.of_nat (length d))); [|lia].
  cbn [andb]. destruct (lookup_lt_is_Some_2 d (Z.to_nat i)) as [v ->]; [lia|]. reflexivity.
Qed.

Lemma load_lookup {A : Type} (d : list A) i v :
  0 <= i -> d !! Z.to_nat i = Some v -> load d i = Ok v.
Proof.
  intros Hi Hv. unfold load, in_bounds. pose proof (lookup_lt_Some _ _ _ Hv).
  destruct (Z.leb_spec 0 i); [|lia]. destruct (Z.ltb_spec i (Z.of_nat (length d))); [|lia].
  cbn [andb]. rewrite Hv. reflexivity.
Qed.

Lemma load_oob {A : Type} (d : list A) i :
  i < 0 \/ Z.of_nat (length d) <= i -> load d i = Err OutOfBounds.
Proof.
  intros H. unfold load, in_bounds.
  destruct (Z.leb_spec 0 i); cbn [andb]; [|reflexivity].
  destruct (Z.ltb_spec i (Z.of_nat (length d))); [lia|reflexivity].
Qed.

Lemma store_ok {A : Type} (d : list A) i v :
  0 <= i < Z.of_nat (length d) -> store d i v = Ok (<[Z.to_nat i := v]> d).
Proof.
  intros H. unfold store, in_bounds.
  destruct (Z.leb_spec 0 i); [|lia]. destruct (Z.ltb_spec i (Z.of_nat (length d))); [|lia].
  reflexivity.
Qed.

Lemma store_oob {A : Type} (d : list A) i v :
  i < 0 \/ Z.of_nat (length d) <= i -> store d i v = Err OutOfBounds.
Proof.
  intros H. unfold store, in_bounds.
  destruct (Z.leb_spec 0 i); cbn [andb]; [|reflexivity].
  destruct (Z.ltb_spec i (Z.of_nat (length d))); [lia|reflexivity].
Qed.

Lemma get_insert (d : buf) i v j :
  0 <= i < Z.of_nat (length d) -> 0 <= j ->
  get (<[Z.to_nat i := v]> d) j = if j =? i then v else get d j.
Proof.
  intros Hi Hj. unfold get. destruct (Z.eqb_spec j i) as [->|Hne].
  - rewrite list_lookup_insert_eq by lia. reflexivity.
  - rewrite list_lookup_insert_ne by lia. reflexivity.
Qed.

Lemma get_lookup d (i : nat) :
  (i < length d)%nat -> d !! i = Some (get d (Z.of_nat i)).
Proof.
  intros H. unfold get. rewrite Nat2Z.id.
  destruct (lookup_lt_is_Some_2 d i H) as [v ->]. reflexivity.
Qed.

Lemma get_oob d j : Z.of_nat (length d) <= j -> get d j = 0.
Proof.
  intros H. unfold get. rewrite lookup_ge_None_2 by lia. reflexivity.
Qed.

Lemma psum_0 a : psum a 0 = 0.
Proof. reflexivity. Qed.

Lemma psum_succ a j :
  0 <= j < Z.of_nat (length a) -> psum a (j + 1) = psum a j + get a j.
Proof.
  intros H. unfold psum, get.
  replace (Z.to_nat (j + 1)) with (S (Z.to_nat j)) by lia.
  destruct (lookup_lt_is_Some_2 a (Z.to_nat j)) as [v Hv]; [lia|].
  rewrite (take_S_r _ _ _ Hv), Hv. simpl.
  generalize (take (Z.to_nat j) a). intros l.
  induction l as [|x l IH]; simpl; lia.
Qed.

Lemma foldM_app {A St : Type} (f : A -> St -> outcome St) l1 l2 s :
  foldM f (l1 ++ l2) s = (foldM f l1 s ≫= foldM f l2).
Proof.
  revert s. induction l1 as [|a l1 IH]; intros s; simpl; [reflexivity|].
  destruct (f a s); simpl; auto.
Qed.

(** A pass over the threads [0 .. T-1] keeps an invariant indexed by the
    number of threads already run. *)
Lemma foldM_seqZ_inv {St : Type} (P : Z -> St -> Prop) (body : Z -> St -> outcome St)
    (T : Z) (s0 : St) :
  P 0 s0 ->
  (forall c s, 0 <= c < T -> P c s -> exists s', body c s = Ok s' /\ P (c + 1) s') ->
  exists s', foldM body (seqZ 0 T) s0 = Ok s' /\ P (Z.max 0 T) s'.
Proof.
  intros H0 Hstep.
  destruct (Z_le_gt_dec T 0) as [HT|HT].
  { rewrite seqZ_nil by lia. exists s0. rewrite Z.max_l by lia. auto. }
  rewrite Z.max_r by lia.
  assert (Hgen : forall n : nat, Z.of_nat n <= T ->
            exists s', foldM body (seqZ 0 (Z.of_nat n)) s0 = Ok s' /\ P (Z.of_nat n) s').
  { induction n as [|n IH]; intros Hn.
    - exists s0. auto.
    - destruct IH as (s1 & Hf & HP); [lia|].
      destruct (Hstep (Z.of_nat n) s1 ltac:(lia) HP) as (s2 & Hb & HP2).
      exists s2. rewrite seqZ_S, foldM_app, Hf, Z.add_0_l. split.
      + cbn. rewrite Hb. reflexivity.
      + replace (Z.of_nat (S n)) with (Z.of_nat n + 1) by lia. exact HP2. }
  specialize (Hgen (Z.to_nat T) ltac:(lia)). rewrite Z2Nat.id in Hgen by lia. exact Hgen.
Qed.

Lemma bind_singleton_fmap (g h : Z -> Z) (l : list Z) :
  (forall t, t ∈ l -> g t = h t) -> (l ≫= fun t => [g t]) = h <$> l.
Proof.
  induction l as [|x l IH]; intros H; [reflexivity|].
  cbn. rewrite H by apply list_elem_of_here. f_equal.
  apply IH. intros t Ht. apply H. now apply list_elem_of_further.
Qed.

Lemma grid1D_seqZ blocks tpb :
  0 <= blocks -> 0 <= tpb -> blocks * tpb <= 2 ^ 31 ->
  grid1D blocks tpb = seqZ 0 (blocks * tpb).
Proof.
  intros Hb Ht Hbound. unfold grid1D.
  assert (Hgen : forall n : nat, Z.of_nat n <= blocks ->
     (seqZ 0 (Z.of_nat n) ≫= fun b => seqZ 0 tpb ≫= fun t => [add (mul b tpb) t])
     = seqZ 0 (Z.of_nat n * tpb)).
  { induction n as [|n IH]; intros Hn.
    - reflexivity.
    - rewrite seqZ_S, bind_app, IH, Z.add_0_l by lia. cbn [mbind list_bind app].
      rewrite app_nil_r.
      rewrite (bind_singleton_fmap _ (Z.add (Z.of_nat n * tpb))).
      + rewrite fmap_add_seqZ, Z.add_0_r.
        replace (Z.of_nat (S n) * tpb) with (Z.of_nat n * tpb + tpb) by lia.
        rewrite seqZ_app by nia. reflexivity.
      + intros t Hin. apply elem_of_seqZ in Hin. unfold add, mul.
        rewrite (wrap_small (Z.of_nat n * tpb)) by (unfold is_int; nia).
        apply wrap_small. unfold is_int. nia. }
  specialize (Hgen (Z.to_nat blocks) ltac:(lia)). rewrite Z2Nat.id in Hgen by lia. exact Hgen.
Qed.

End MemFacts.
Import MemFacts.

Ltac zbool :=
  repeat match goal with
  | |- context [Z.eqb ?a ?b] => destruct (Z.eqb_spec a b)
  | |- context [Z.ltb ?a ?b] => destruct (Z.ltb_spec a b)
  | |- context [Z.leb ?a ?b] => destruct (Z.leb_spec a b)
  end; cbn [andb orb negb].

Lemma mod_block B c x r :
  0 < B -> c * B <= x < (c + 1) * B -> 0 <= r < B ->
  x mod B = r <-> x = c * B + r.
Proof.
  intros HB Hx Hr. split.
  - intros <-. pose proof (Z.div_mod x B ltac:(lia)) as Hd.
    pose proof (Z.mod_pos_bound x B HB).
    assert (x / B = c) by nia. subst c. lia.
  - intros ->. rewrite Z.add_comm, Z.mod_add by lia. apply Z.mod_small. lia.
Qed.

Lemma mod_block_top B c j :
  0 < B -> c * B <= j < (c + 1) * B ->
  (j + 1) mod B = 0 <-> j = (c + 1) * B - 1.
Proof.
  intros HB Hj. destruct (Z.eq_dec j ((c + 1) * B - 1)) as [->|Hne].
  - replace ((c + 1) * B - 1 + 1) with ((c + 1) * B) by lia.
    rewrite Z.mod_mul by lia. tauto.
  - rewrite (mod_block B c (j + 1) 0) by lia. lia.
Qed.

Section Pass.

Variables (L N twod : Z) (d0 : buf).
Hypothesis Htwod : 0 < twod.
Hypothesis HL : L = N * (2 * twod).
Hypothesis HN : 0 < N.
Hypothesis HL30 : L <= 2 ^ 30.
Hypothesis Hlen : Z.of_nat (length d0) = L.

Lemma thread_index c :
  0 <= c -> c * (2 * twod) < 2 ^ 31 -> mul c (2 * twod) = c * (2 * twod).
Proof.
  intros. apply wrap_small. unfold is_int.
  assert (0 <= c * (2 * twod)) by (apply Z.mul_nonneg_nonneg; lia). lia.
Qed.

Lemma active_thread c :
  0 <= c -> c * (2 * twod) < L -> c < N /\ (c + 1) * (2 * twod) <= L.
Proof.
  intros Hc Hlt. rewrite HL in Hlt |- *.
  assert (c < N) by (apply (Z.mul_lt_mono_pos_r (2 * twod)); lia).
  split; [assumption|]. apply Z.mul_le_mono_nonneg_r; lia.
Qed.

Lemma up_thread c d :
  0 <= c -> c * (2 * twod) < 2 ^ 31 -> pass_inv L twod d0 (up_cell twod d0) c d ->
  exists d', upsweep_kernel L twod (2 * twod) c d = Ok d' /\ pass_inv L twod d0 (up_cell twod d0) (c + 1) d'.
Proof.
  intros Hc Hov [Hl Hd]. unfold upsweep_kernel. rewrite thread_index by assumption.
  set (i := c * (2 * twod)).
  destruct (Z.ltb_spec i L) as [Hact|Hidle].
  - destruct (active_thread c Hc Hact) as [HcN Hend]. fold i in Hend.
    assert (Hi : (c + 1) * (2 * twod) = i + 2 * twod) by (unfold i; lia).
    assert (E1 : sub (add i (2 * twod)) 1 = i + 2 * twod - 1).
    { unfold sub, add. rewrite (wrap_small (i + 2 * twod)) by (unfold is_int; lia).
      apply wrap_small. unfold is_int. lia. }
    assert (E2 : sub (add i twod) 1 = i + twod - 1).
    { unfold sub, add. rewrite (wrap_small (i + twod)) by (unfold is_int; lia).
      apply wrap_small. unfold is_int. lia. }
    rewrite E1, E2.
    rewrite !load_ok by lia. cbn [mbind outcome_bind].
    rewrite store_ok by lia.
    eexists. split; [reflexivity|]. split; [now rewrite length_insert|].
    intros j Hj. rewrite get_insert by lia.
    rewrite (Hd (i + 2 * twod - 1)), (Hd (i + twod - 1)) by lia.
    fold i. unfold up_cell.
    pose proof (mod_block_top (2 * twod) c j ltac:(lia)) as Htop. fold i in Htop.
    destruct (Z.eqb_spec j (i + 2 * twod - 1)) as [->|Hne].
    + replace (i + 2 * twod - 1 + 1) with ((c + 1) * (2 * twod)) by lia.
      rewrite Z.mod_mul by lia.
      replace (i + 2 * twod - 1 - twod) with (i + twod - 1) by lia.
      zbool; try lia; reflexivity.
    + rewrite Hd by lia. fold i. unfold up_cell.
      zbool; try lia; reflexivity.
  - exists d. split; [reflexivity|]. split; [assumption|].
    intros j Hj. rewrite Hd by assumption. fold i. zbool; try lia; reflexivity.
Qed.

Lemma down_thread c d :
  0 <= c -> c * (2 * twod) < 2 ^ 31 -> pass_inv L twod d0 (down_cell twod d0) c d ->
  exists d', downsweep_kernel L twod (2 * twod) c d = Ok d'
             /\ pass_inv L twod d0 (down_cell twod d0) (c + 1) d'.
Proof.
  intros Hc Hov [Hl Hd]. unfold downsweep_kernel. rewrite thread_index by assumption.
  set (i := c * (2 * twod)).
  destruct (Z.ltb_spec i L) as [Hact|Hidle].
  - destruct (active_thread c Hc Hact) as [HcN Hend]. fold i in Hend.
    assert (Hi : (c + 1) * (2 * twod) = i + 2 * twod) by (unfold i; lia).
    assert (E1 : sub (add i (2 * twod)) 1 = i + 2 * twod - 1).
    { unfold sub, add. rewrite (wrap_small (i + 2 * twod)) by (unfold is_int; lia).
      apply wrap_small. unfold is_int. lia. }
    assert (E2 : sub (add i twod) 1 = i + twod - 1).
    { unfold sub, add. rewrite (wrap_small (i + twod)) by (unfold is_int; lia).
      apply wrap_small. unfold is_int. lia. }
    rewrite E1, E2.
    rewrite !load_ok by lia. cbn [mbind outcome_bind].
    rewrite store_ok by lia. cbn [mbind outcome_bind].
    rewrite load_ok by (rewrite length_insert; lia). cbn [mbind outcome_bind].
    rewrite store_ok by (rewrite length_insert; lia).
    eexists. split; [reflexivity|]. split; [now rewrite !length_insert|].
    intros j Hj. rewrite !get_insert by (rewrite ?length_insert; lia).
    rewrite (Hd (i + 2 * twod - 1)), (Hd (i + twod - 1)) by lia.
    fold i. unfold down_cell.
    pose proof (mod_block_top (2 * twod) c j ltac:(lia)) as Htop. fold i in Htop.
    pose proof (mod_block (2 * twod) c (j + 1) twod ltac:(lia)) as Hmid. fold i in Hmid.
    destruct (Z.eqb_spec j (i + 2 * twod - 1)) as [->|Hne].
    + replace (i + 2 * twod - 1 + 1) with ((c + 1) * (2 * twod)) by lia.
      rewrite Z.mod_mul by lia.
      replace (i + 2 * twod - 1 - twod) with (i + twod - 1) by lia.
      zbool; try lia; reflexivity.
    + destruct (Z.eqb_spec j (i + twod - 1)) as [->|Hne2].
      * replace (i + twod - 1 + 1) with (twod + c * (2 * twod)) by (unfold i; lia).
        rewrite Z.mod_add by lia. rewrite (Z.mod_small twod (2 * twod)) by lia.
        replace (i + twod - 1 + twod) with (i + 2 * twod - 1) by lia.
        zbool; try lia; reflexivity.
      * rewrite Hd by lia. fold i. unfold down_cell.
        zbool; try lia; reflexivity.
  - exists d. split; [reflexivity|]. split; [assumption|].
    intros j Hj. rewrite Hd by assumption. fold i. zbool; try lia; reflexivity.
Qed.

Lemma pass_inv_0 cell : pass_inv L twod d0 cell 0 d0.
Proof.
  split; [reflexivity|]. intros j Hj. zbool; [lia|reflexivity].
Qed.

Lemma pass_done cell T d :
  N <= T -> pass_inv L twod d0 cell T d ->
  length d = length d0 /\ forall j, 0 <= j < L -> get d j = cell j.
Proof.
  intros HT [Hl Hd]. split; [assumption|].
  intros j Hj. rewrite Hd by assumption. zbool; [reflexivity|nia].
Qed.

Lemma up_pass T :
  N <= T -> (T - 1) * (2 * twod) < 2 ^ 31 ->
  exists d', foldM (upsweep_kernel L twod (2 * twod)) (seqZ 0 T) d0 = Ok d'
    /\ length d' = length d0 /\ forall j, 0 <= j < L -> get d' j = up_cell twod d0 j.
Proof.
  intros HT Hov.
  destruct (foldM_seqZ_inv (pass_inv L twod d0 (up_cell twod d0)) (upsweep_kernel L twod (2 * twod)) T d0)
    as (d' & Hrun & Hinv).
  - apply pass_inv_0.
  - intros c d Hc Hinv. apply up_thread; [lia|nia|assumption].
  - exists d'. split; [assumption|]. rewrite Z.max_r in Hinv by lia.
    eapply pass_done; eassumption.
Qed.

(** The first [T] threads alone, as long as their indices do not overflow. *)
Lemma up_partial T :
  (T - 1) * (2 * twod) < 2 ^ 31 ->
  exists d', foldM (upsweep_kernel L twod (2 * twod)) (seqZ 0 T) d0 = Ok d'
    /\ length d' = length d0.
Proof.
  intros Hov.
  destruct (foldM_seqZ_inv (pass_inv L twod d0 (up_cell twod d0)) (upsweep_kernel L twod (2 * twod)) T d0)
    as (d' & Hrun & Hinv).
  - apply pass_inv_0.
  - intros c d Hc Hinv. apply up_thread; [lia|nia|assumption].
  - exists d'. split; [assumption|]. apply Hinv.
Qed.

Lemma down_pass T :
  N <= T -> (T - 1) * (2 * twod) < 2 ^ 31 ->
  exists d', foldM (downsweep_kernel L twod (2 * twod)) (seqZ 0 T) d0 = Ok d'
    /\ length d' = length d0 /\ forall j, 0 <= j < L -> get d' j = down_cell twod d0 j.
Proof.
  intros HT Hov.
  destruct (foldM_seqZ_inv (pass_inv L twod d0 (down_cell twod d0)) (downsweep_kernel L twod (2 * twod)) T d0)
    as (d' & Hrun & Hinv).
  - apply pass_inv_0.
  - intros c d Hc Hinv. apply down_thread; [lia|nia|assumption].
  - exists d'. split; [assumption|]. rewrite Z.max_r in Hinv by lia.
    eapply pass_done; eassumption.
Qed.

End Pass.

Module Pow2.

Lemma pos m : 0 <= m -> 0 < 2 ^ m.
Proof. intros. apply Z.pow_pos_nonneg; lia. Qed.

Lemma double m : 0 <= m -> 2 ^ (m + 1) = 2 * 2 ^ m.
Proof. intros. rewrite Z.pow_add_r by lia. lia. Qed.

Lemma le_mono s t : 0 <= s <= t -> 2 ^ s <= 2 ^ t.
Proof. intros. apply Z.pow_le_mono_r; lia. Qed.

Lemma lt_mono s t : 0 <= s < t -> 2 ^ s < 2 ^ t.
Proof. intros. apply Z.pow_lt_mono_r; lia. Qed.

Lemma split k m : 0 <= m <= k -> 2 ^ k = 2 ^ (k - m) * 2 ^ m.
Proof. intros. rewrite <- Z.pow_add_r by lia. f_equal. lia. Qed.

Lemma mod_weaken s t x : 0 <= s <= t -> x mod 2 ^ t = 0 -> x mod 2 ^ s = 0.
Proof.
  intros Hst Hx. pose proof (pos s ltac:(lia)). pose proof (pos t ltac:(lia)).
  apply Z.mod_divide in Hx; [|lia]. apply Z.mod_divide; [lia|].
  eapply Z.divide_trans; [|exact Hx].
  exists (2 ^ (t - s)). apply split. lia.
Qed.

Lemma mod_half m x :
  0 <= m -> x mod 2 ^ m = 0 -> x mod 2 ^ (m + 1) = 0 \/ x mod 2 ^ (m + 1) = 2 ^ m.
Proof.
  intros Hm Hx. pose proof (pos m Hm) as Hp. rewrite double by assumption.
  apply Z.mod_divide in Hx; [|lia]. destruct Hx as [q ->].
  pose proof (Z.div_mod q 2 ltac:(lia)) as Hq.
  pose proof (Z.mod_pos_bound q 2 ltac:(lia)) as Hr.
  assert (q mod 2 = 0 \/ q mod 2 = 1) as [E|E] by lia; rewrite E in Hq.
  - left. replace (q * 2 ^ m) with (q / 2 * (2 * 2 ^ m)) by lia.
    apply Z.mod_mul. lia.
  - right. replace (q * 2 ^ m) with (2 ^ m + q / 2 * (2 * 2 ^ m)) by lia.
    rewrite Z.mod_add by lia. apply Z.mod_small. lia.
Qed.

Lemma mod_half_not s x :
  0 <= s -> x mod 2 ^ (s + 1) = 2 ^ s -> x mod 2 ^ (s + 1) <> 0.
Proof. intros Hs ->. pose proof (pos s Hs). lia. Qed.

End Pow2.
Import Pow2.

(** The grid of one level of the sweep over a buffer of [2^k] cells, at
    stride [twod = 2^m]. *)
Section Geometry.

Variables (k m : Z).
Hypothesis Hm : 0 <= m < k.
Hypothesis Hk : k <= 30.

Let L := 2 ^ k.
Let twod := 2 ^ m.
Let N := 2 ^ (k - m - 1).

Lemma geo_bounds : 0 < twod /\ 2 * twod <= L /\ L <= 2 ^ 30 /\ 0 < N /\ L = N * (2 * twod).
Proof.
  unfold L, twod, N.
  pose proof (Pow2.pos m ltac:(lia)). pose proof (Pow2.pos (k - m - 1) ltac:(lia)).
  pose proof (Pow2.le_mono k 30 ltac:(lia)).
  pose proof (Pow2.le_mono (m + 1) k ltac:(lia)) as Hle.
  rewrite Pow2.double in Hle by lia.
  repeat split; try lia.
  rewrite <- Pow2.double by lia. rewrite (Pow2.split k (m + 1)) by lia.
  f_equal. f_equal. lia.
Qed.

Lemma geo_twod1 : mul twod 2 = 2 * twod.
Proof.
  destruct geo_bounds as (? & ? & ? & ? & ?).
  unfold mul. rewrite wrap_small by (unfold is_int; lia). lia.
Qed.

Lemma geo_N : div L (2 * twod) = N.
Proof.
  destruct geo_bounds as (? & ? & ? & ? & HLN).
  unfold div. rewrite HLN, Z.quot_mul by lia.
  apply wrap_small. unfold is_int. nia.
Qed.

Lemma geo_blocks :
  div (sub (add N threadsPerBlock) 1) threadsPerBlock = blocks_of N.
Proof.
  destruct geo_bounds as (? & ? & ? & ? & HLN).
  assert (N <= 2 ^ 29) by nia.
  unfold div, sub, add, threadsPerBlock, blocks_of.
  rewrite (wrap_small (N + 512)) by (unfold is_int; lia).
  rewrite (wrap_small (N + 512 - 1)) by (unfold is_int; lia).
  rewrite Z.quot_div_nonneg by lia.
  replace (N + 512 - 1) with (N + 511) by lia.
  pose proof (Z.div_mod (N + 511) 512 ltac:(lia)).
  pose proof (Z.mod_pos_bound (N + 511) 512 ltac:(lia)).
  apply wrap_small. unfold is_int. lia.
Qed.

Lemma geo_threads :
  let T := blocks_of N * 512 in
  0 <= blocks_of N /\ N <= T <= N + 511 /\ (N < 512 -> T = 512).
Proof.
  destruct geo_bounds as (? & ? & ? & ? & HLN). unfold blocks_of.
  pose proof (Z.div_mod (N + 511) 512 ltac:(lia)).
  pose proof (Z.mod_pos_bound (N + 511) 512 ltac:(lia)).
  cbv zeta. lia.
Qed.

Lemma geo_grid : grid1D (blocks_of N) threadsPerBlock = seqZ 0 (blocks_of N * 512).
Proof.
  destruct geo_bounds as (? & ? & ? & ? & HLN).
  destruct geo_threads as (? & ? & ?).
  assert (N <= 2 ^ 29) by nia.
  apply grid1D_seqZ; unfold threadsPerBlock; lia.
Qed.

Lemma geo_no_overflow :
  m <= 21 -> (blocks_of N * 512 - 1) * (2 * twod) < 2 ^ 31.
Proof.
  intros Hm21.
  destruct geo_bounds as (? & ? & ? & ? & HLN).
  destruct geo_threads as (? & ? & Hsmall).
  destruct (Z_lt_dec N 512) as [Hlt|Hge].
  - rewrite (Hsmall Hlt).
    pose proof (Pow2.le_mono (m + 1) 22 ltac:(lia)) as Hle.
    rewrite Pow2.double in Hle by lia. fold twod in Hle. lia.
  - assert (blocks_of N * 512 - 1 <= 2 * N - 1) by lia.
    assert ((blocks_of N * 512 - 1) * (2 * twod) <= (2 * N - 1) * (2 * twod))
      by (apply Z.mul_le_mono_nonneg_r; lia).
    lia.
Qed.

End Geometry.

(** One launch of a sweep level, on a buffer of [2^k] cells. *)
Section Level.

Variables (k m : Z) (d : buf).
Hypothesis Hm : 0 <= m < k.
Hypothesis Hk : k <= 30.
Hypothesis Hm21 : m <= 21.
Hypothesis Hlen : Z.of_nat (length d) = 2 ^ k.

Lemma up_level :
  exists d',
    launch1D (div (sub (add (div (2 ^ k) (mul (2 ^ m) 2)) threadsPerBlock) 1) threadsPerBlock)
      threadsPerBlock (upsweep_kernel (2 ^ k) (2 ^ m) (mul (2 ^ m) 2)) d = Ok d'
    /\ length d' = length d
    /\ forall j, 0 <= j < 2 ^ k -> get d' j = up_cell (2 ^ m) d j.
Proof.
  destruct (geo_bounds k m Hm Hk) as (? & ? & ? & ? & ?).
  destruct (geo_threads k m Hm Hk) as (? & ? & ?).
  rewrite (geo_twod1 k m), (geo_N k m), (geo_blocks k m) by assumption.
  unfold launch1D. rewrite (geo_grid k m) by assumption.
  apply (up_pass (2 ^ k) (2 ^ (k - m - 1))); try assumption; try lia.
  apply (geo_no_overflow k m); assumption.
Qed.

Lemma down_level :
  exists d',
    launch1D (div (sub (add (div (2 ^ k) (mul (2 ^ m) 2)) threadsPerBlock) 1) threadsPerBlock)
      threadsPerBlock (downsweep_kernel (2 ^ k) (2 ^ m) (mul (2 ^ m) 2)) d = Ok d'
    /\ length d' = length d
    /\ forall j, 0 <= j < 2 ^ k -> get d' j = down_cell (2 ^ m) d j.
Proof.
  destruct (geo_bounds k m Hm Hk) as (? & ? & ? & ? & ?).
  destruct (geo_threads k m Hm Hk) as (? & ? & ?).
  rewrite (geo_twod1 k m), (geo_N k m), (geo_blocks k m) by assumption.
  unfold launch1D. rewrite (geo_grid k m) by assumption.
  apply (down_pass (2 ^ k) (2 ^ (k - m - 1))); try assumption; try lia.
  apply (geo_no_overflow k m); assumption.
Qed.

End Level.

(** The sum tree built by the up-sweep and consumed by the down-sweep. *)
Section Tree.

Variables (a : buf) (k : Z).
Hypothesis Hk : 0 <= k <= 22.
Hypothesis Hlen : Z.of_nat (length a) = 2 ^ k.
Hypothesis Hint : forall j, 0 <= j < 2 ^ k -> is_int (get a j).

Lemma seg_join t j :
  0 <= t -> add (seg a t j) (seg a t (j - 2 ^ t)) = seg a (t + 1) j.
Proof.
  intros Ht. unfold add, seg. rewrite wrap_add_l, wrap_add_r.
  rewrite Pow2.double by assumption. f_equal.
  replace (j - 2 ^ t + 1) with (j + 1 - 2 ^ t) by lia.
  replace (j + 1 - 2 ^ t - 2 ^ t) with (j + 1 - 2 * 2 ^ t) by lia. lia.
Qed.

Lemma up_inv_init : up_inv a k 0 a.
Proof.
  split; [reflexivity|]. intros t j Ht Hj _ _. assert (t = 0) as -> by lia.
  unfold seg. change (2 ^ 0) with 1. replace (j + 1 - 1) with j by lia.
  rewrite psum_succ by lia. replace (psum a j + get a j - psum a j) with (get a j) by lia.
  symmetry. apply wrap_small. auto.
Qed.

Lemma multiple_ge x B : 0 < B -> 0 < x -> x mod B = 0 -> B <= x.
Proof.
  intros HB Hx Hmod. apply Z.mod_divide in Hmod; [|lia].
  destruct Hmod as [q ->].
  assert (0 < q) by (destruct (Z_lt_le_dec 0 q); [assumption|]; exfalso;
    assert (q * B <= 0 * B) by (apply Z.mul_le_mono_nonneg_r; lia); lia).
  replace B with (1 * B) at 1 by lia. apply Z.mul_le_mono_nonneg_r; lia.
Qed.

Lemma up_inv_step m d d' :
  0 <= m < k -> up_inv a k m d -> length d' = length d ->
  (forall j, 0 <= j < 2 ^ k -> get d' j = up_cell (2 ^ m) d j) ->
  up_inv a k (m + 1) d'.
Proof.
  intros Hm [Hl Hd] Hl' Hd'. split; [congruence|].
  intros t j Ht Hj Hmod Hor. rewrite Hd' by assumption. unfold up_cell.
  pose proof (Pow2.pos m ltac:(lia)) as Hp.
  rewrite <- Pow2.double by lia.
  destruct (Z.eqb_spec ((j + 1) mod 2 ^ (m + 1)) 0) as [Hz|Hnz].
  - assert (t = m + 1) as ->.
    { destruct (Z.eq_dec t (m + 1)) as [|Hne]; [assumption|].
      destruct Hor as [Hor|]; [|assumption]. exfalso. apply Hor.
      apply (Pow2.mod_weaken (t + 1) (m + 1)); [lia|assumption]. }
    pose proof (multiple_ge (j + 1) (2 ^ (m + 1)) ltac:(apply Pow2.pos; lia) ltac:(lia) Hz) as Hge.
    rewrite Pow2.double in Hge by lia.
    assert (Hjm : (j + 1) mod 2 ^ m = 0) by (apply (Pow2.mod_weaken m (m + 1)); [lia|assumption]).
    rewrite (Hd m j), (Hd m (j - 2 ^ m)); try lia; try assumption; try (right; reflexivity).
    + apply seg_join. lia.
    + replace (j - 2 ^ m + 1) with (j + 1 + (-1) * 2 ^ m) by lia.
      rewrite Z.mod_add by lia. assumption.
  - destruct Hor as [Hor | Heq]; [|subst t; contradiction].
    assert (t <> m + 1) by (intros ->; contradiction).
    apply Hd; try assumption; try lia; left; assumption.
Qed.

Lemma down_inv_init d1 :
  up_inv a k k d1 -> down_inv a k k (<[Z.to_nat (2 ^ k - 1) := 0]> d1).
Proof.
  intros [Hl Hd]. pose proof (Pow2.pos k ltac:(lia)) as Hp.
  split; [rewrite length_insert; assumption|]. split.
  - intros j Hj Hmod.
    pose proof (multiple_ge (j + 1) (2 ^ k) Hp ltac:(lia) Hmod).
    assert (j = 2 ^ k - 1) as -> by lia.
    rewrite get_insert, Z.eqb_refl by lia.
    replace (2 ^ k - 1 + 1 - 2 ^ k) with 0 by lia. reflexivity.
  - intros t j Ht Hj Hmod Hnz. rewrite get_insert by lia.
    destruct (Z.eqb_spec j (2 ^ k - 1)) as [->|Hne].
    + exfalso. apply Hnz. replace (2 ^ k - 1 + 1) with (2 ^ k) by lia.
      rewrite (Pow2.split k (t + 1)) by lia. apply Z.mod_mul.
      pose proof (Pow2.pos (t + 1) ltac:(lia)). lia.
    + apply Hd; try assumption; try lia; left; assumption.
Qed.

Lemma down_inv_step m d d' :
  0 <= m < k -> down_inv a k (m + 1) d -> length d' = length d ->
  (forall j, 0 <= j < 2 ^ k -> get d' j = down_cell (2 ^ m) d j) ->
  down_inv a k m d'.
Proof.
  intros Hm (Hl & Htop & Hseg) Hl' Hd'.
  pose proof (Pow2.pos m ltac:(lia)) as Hp.
  pose proof (Pow2.pos k ltac:(lia)) as Hpk.
  split; [congruence|]. split.
  - intros j Hj Hmod. rewrite Hd' by assumption. unfold down_cell.
    rewrite <- Pow2.double by lia.
    destruct (Pow2.mod_half m (j + 1) ltac:(lia) Hmod) as [Hz|Hh].
    + rewrite Hz. cbn [Z.eqb].
      pose proof (multiple_ge (j + 1) (2 ^ (m + 1)) ltac:(apply Pow2.pos; lia) ltac:(lia) Hz) as Hge.
      rewrite Pow2.double in Hge by lia.
      assert (Hprev : (j - 2 ^ m + 1) mod 2 ^ (m + 1) = 2 ^ m).
      { rewrite Pow2.double in * by lia.
        apply Z.mod_divide in Hz; [|lia]. destruct Hz as [q Hq].
        replace (j - 2 ^ m + 1) with (2 ^ m + (q - 1) * (2 * 2 ^ m)) by lia.
        rewrite Z.mod_add by lia. apply Z.mod_small. lia. }
      rewrite (Htop j), (Hseg m (j - 2 ^ m)); try lia; try assumption.
      * unfold add, seg. rewrite wrap_add_l, wrap_add_r. f_equal.
        rewrite Pow2.double by lia.
        replace (j - 2 ^ m + 1 - 2 ^ m) with (j + 1 - 2 * 2 ^ m) by lia.
        replace (j - 2 ^ m + 1) with (j + 1 - 2 ^ m) by lia. lia.
      * replace (j - 2 ^ m + 1) with (j + 1 + (-1) * 2 ^ m) by lia.
        rewrite Z.mod_add by lia. assumption.
    + rewrite Hh. destruct (Z.eqb_spec (2 ^ m) 0); [lia|]. rewrite Z.eqb_refl.
      assert (Hnext : (j + 2 ^ m + 1) mod 2 ^ (m + 1) = 0 /\ j + 2 ^ m < 2 ^ k).
      { pose proof (Z.div_mod (j + 1) (2 ^ (m + 1)) ltac:(pose proof (Pow2.pos (m + 1)); lia)) as Hdm.
        rewrite Hh in Hdm. rewrite Pow2.double in * by lia.
        set (q := (j + 1) / (2 * 2 ^ m)) in *. split.
        - replace (j + 2 ^ m + 1) with ((q + 1) * (2 * 2 ^ m)) by lia.
          apply Z.mod_mul. lia.
        - rewrite (Pow2.split k (m + 1)) in * by lia.
          rewrite Pow2.double in * by lia.
          set (nb := 2 ^ (k - (m + 1))) in *.
          assert (q < nb) by nia. assert (q + 1 <= nb) by lia.
          assert ((q + 1) * (2 * 2 ^ m) <= nb * (2 * 2 ^ m))
            by (apply Z.mul_le_mono_nonneg_r; lia).
          lia. }
      destruct Hnext as [Hn1 Hn2].
      rewrite (Htop (j + 2 ^ m)); try lia; try assumption.
      f_equal. f_equal. rewrite Pow2.double by lia. lia.
  - intros t j Ht Hj Hmod Hnz. rewrite Hd' by assumption. unfold down_cell.
    rewrite <- Pow2.double by lia.
    assert (Hnot : (j + 1) mod 2 ^ m <> 0).
    { intros Hc. apply Hnz. apply (Pow2.mod_weaken (t + 1) m); [lia|assumption]. }
    destruct (Z.eqb_spec ((j + 1) mod 2 ^ (m + 1)) 0) as [Hz|_].
    { exfalso. apply Hnot. apply (Pow2.mod_weaken m (m + 1)); [lia|assumption]. }
    destruct (Z.eqb_spec ((j + 1) mod 2 ^ (m + 1)) (2 ^ m)) as [Hh|_].
    { exfalso. apply Hnot.
      pose proof (Z.div_mod (j + 1) (2 ^ (m + 1)) ltac:(pose proof (Pow2.pos (m + 1)); lia)) as Hdm.
      set (q := (j + 1) / 2 ^ (m + 1)) in Hdm.
      rewrite Hh, Pow2.double in Hdm by lia. rewrite Hdm.
      replace (2 * 2 ^ m * q + 2 ^ m) with ((2 * q + 1) * 2 ^ m) by lia.
      apply Z.mod_mul. lia. }
    apply Hseg; try assumption; lia.
Qed.

Lemma down_inv_final d :
  down_inv a k 0 d ->
  length d = length a /\ forall j, 0 <= j < 2 ^ k -> get d j = wrap (psum a j).
Proof.
  intros (Hl & Htop & _). split; [assumption|].
  intros j Hj. rewrite Htop; [|assumption|apply Z.mod_1_r].
  f_equal. f_equal. change (2 ^ 0) with 1. lia.
Qed.

End Tree.

Section Run.

Variables (a : buf) (k : Z).
Hypothesis Hk : 0 <= k <= 22.
Hypothesis Hlen : Z.of_nat (length a) = 2 ^ k.
Hypothesis Hint : forall j, 0 <= j < 2 ^ k -> is_int (get a j).

Lemma upsweep_loop_ok fuel : forall m d,
  0 <= m <= k -> (Z.to_nat (k - m) < fuel)%nat -> up_inv a k m d ->
  exists d', upsweep_loop fuel (2 ^ k) (2 ^ m) d = Ok d' /\ up_inv a k k d'.
Proof.
  induction fuel as [|fuel IH]; intros m d Hm Hfuel Hinv; [lia|].
  cbn [upsweep_loop].
  destruct (Z.ltb_spec (2 ^ m) (2 ^ k)) as [Hlt|Hge].
  - assert (m < k) by (apply (Z.pow_lt_mono_r_iff 2); lia).
    destruct (up_level k m d ltac:(lia) ltac:(lia) ltac:(lia)) as (d1 & Hrun & Hl1 & Hc1).
    { destruct Hinv as [Hl _]. lia. }
    rewrite Hrun. cbn [mbind outcome_bind].
    rewrite (geo_twod1 k m), <- Pow2.double by lia.
    apply IH; [lia|lia|].
    eapply up_inv_step; eauto. lia.
  - assert (m = k).
    { destruct (Z.eq_dec m k); [assumption|].
      pose proof (Pow2.lt_mono m k ltac:(lia)). lia. }
    subst m. exists d. auto.
Qed.

Lemma div_pow_2 m : 0 <= m <= 30 -> div (2 ^ m) 2 = half_pow m.
Proof.
  intros Hm. unfold div, half_pow. destruct (Z.eqb_spec m 0) as [->|Hne]; [reflexivity|].
  replace m with (m - 1 + 1) at 1 by lia. rewrite Pow2.double by lia.
  rewrite Z.mul_comm, Z.quot_mul by lia.
  pose proof (Pow2.pos (m - 1) ltac:(lia)). pose proof (Pow2.le_mono (m - 1) 30 ltac:(lia)).
  apply wrap_small. unfold is_int. lia.
Qed.

Lemma downsweep_loop_ok fuel : forall m d,
  0 <= m <= k -> (Z.to_nat m < fuel)%nat -> down_inv a k m d ->
  exists d', downsweep_loop fuel (2 ^ k) (half_pow m) d = Ok d' /\ down_inv a k 0 d'.
Proof.
  induction fuel as [|fuel IH]; intros m d Hm Hfuel Hinv; [lia|].
  cbn [downsweep_loop]. unfold half_pow at 1.
  destruct (Z.eqb_spec m 0) as [->|Hne].
  - cbn. exists d. auto.
  - pose proof (Pow2.pos (m - 1) ltac:(lia)).
    destruct (Z.leb_spec 1 (2 ^ (m - 1))); [|lia].
    destruct (down_level k (m - 1) d ltac:(lia) ltac:(lia) ltac:(lia)) as (d1 & Hrun & Hl1 & Hc1).
    { destruct Hinv as [Hl _]. lia. }
    unfold half_pow. destruct (Z.eqb_spec m 0); [lia|].
    rewrite Hrun. cbn [mbind outcome_bind].
    rewrite div_pow_2 by lia.
    apply IH; [lia|lia|].
    eapply down_inv_step with (m := m - 1) (d := d); eauto; try lia.
    replace (m - 1 + 1) with m by lia. assumption.
Qed.

Lemma exclusive_scan_tree n :
  nextPow2 n = 2 ^ k ->
  exists out, exclusive_scan a n = Ok out /\ length out = length a /\
    forall j, 0 <= j < 2 ^ k -> get out j = wrap (psum a j).
Proof.
  intros Hn. unfold exclusive_scan. rewrite Hn.
  pose proof (Pow2.pos k ltac:(lia)) as Hp.
  destruct (upsweep_loop_ok loop_fuel 0 a) as (d1 & Hup & Hinv1).
  { lia. } { unfold loop_fuel. lia. } { apply up_inv_init; assumption. }
  change (2 ^ 0) with 1 in Hup. rewrite Hup. cbn [mbind outcome_bind].
  rewrite store_ok by (destruct Hinv1 as [Hl _]; lia). cbn [mbind outcome_bind].
  rewrite div_pow_2 by lia.
  destruct (downsweep_loop_ok loop_fuel k (<[Z.to_nat (2 ^ k - 1) := 0]> d1))
    as (out & Hdown & Hinv2).
  { lia. } { unfold loop_fuel. lia. } { apply down_inv_init; assumption. }
  exists out. split; [assumption|]. apply down_inv_final. assumption.
Qed.

End Run.

Lemma sumZ_bounds l :
  Forall (fun x => 0 <= x) l -> 0 <= sumZ l.
Proof. induction 1; simpl; lia. Qed.

(** The scan of at most [2^22] numbers: every cell of the first [n] holds
    the sum of the cells before it, reduced to an [int]. *)
Lemma exclusive_scan_sums (d : buf) (n : Z) :
  1 <= n <= 2 ^ 22 ->
  Z.of_nat (length d) = nextPow2 n ->
  Forall is_int d ->
  exists out, exclusive_scan d n = Ok out /\ length out = length d /\
    forall i : nat, Z.of_nat i < n -> out !! i = Some (wrap (sumZ (take i d))).
Proof.
  intros Hn Hlen Hint.
  destruct (nextPow2_pos n ltac:(lia)) as (k & Hk & Hpow & Hle).
  assert (k <= 22).
  { destruct (Z_le_gt_dec k 22); [assumption|]. exfalso.
    pose proof (Pow2.le_mono 23 k ltac:(lia)). lia. }
  destruct (exclusive_scan_tree d k ltac:(lia) ltac:(lia)) with (n := n)
    as (out & Hrun & Hl & Hout).
  { intros j Hj. unfold get.
    destruct (lookup_lt_is_Some_2 d (Z.to_nat j)) as [v Hv]; [lia|]. rewrite Hv.
    eapply Forall_lookup_1 in Hint; eauto. }
  { assumption. }
  exists out. split; [assumption|]. split; [assumption|].
  intros i Hi. rewrite get_lookup by lia. rewrite Hout by lia.
  unfold psum. rewrite Nat2Z.id. reflexivity.
Qed.

(** Buffers of more than [2^22] cells: at stride [2^23] the thread index
    times the stride no longer fits an [int]. *)
Section Overflow.

Variables (k : Z).
Hypothesis Hk : 23 <= k <= 30.

Lemma up_level_len m d :
  0 <= m <= 21 -> Z.of_nat (length d) = 2 ^ k ->
  exists d',
    launch1D (div (sub (add (div (2 ^ k) (mul (2 ^ m) 2)) threadsPerBlock) 1) threadsPerBlock)
      threadsPerBlock (upsweep_kernel (2 ^ k) (2 ^ m) (mul (2 ^ m) 2)) d = Ok d'
    /\ Z.of_nat (length d') = 2 ^ k.
Proof.
  intros Hm Hlen.
  destruct (up_level k m d ltac:(lia) ltac:(lia) ltac:(lia) Hlen) as (d' & Hrun & Hl & _).
  exists d'. split; [assumption|congruence].
Qed.

Lemma up_level_fault d :
  Z.of_nat (length d) = 2 ^ k ->
  launch1D (div (sub (add (div (2 ^ k) (mul (2 ^ 22) 2)) threadsPerBlock) 1) threadsPerBlock)
    threadsPerBlock (upsweep_kernel (2 ^ k) (2 ^ 22) (mul (2 ^ 22) 2)) d
  = Err OutOfBounds.
Proof.
  intros Hlen.
  destruct (geo_bounds k 22 ltac:(lia) ltac:(lia)) as (? & ? & ? & ? & HL).
  destruct (geo_threads k 22 ltac:(lia) ltac:(lia)) as (? & ? & Hsmall).
  rewrite (geo_twod1 k 22), (geo_N k 22), (geo_blocks k 22) by lia.
  unfold launch1D. rewrite (geo_grid k 22) by lia.
  assert (2 ^ (k - 22 - 1) < 512).
  { pose proof (Pow2.le_mono (k - 22 - 1) 7 ltac:(lia)). lia. }
  rewrite Hsmall by assumption.
  change 512 with (256 + 256). rewrite seqZ_app, foldM_app by lia.
  destruct (up_partial (2 ^ k) (2 ^ (k - 22 - 1)) (2 ^ 22) d) with (T := 256)
    as (d' & Hrun & Hl'); try assumption; try lia.
  rewrite Hrun. cbn [mbind outcome_bind].
  assert (Hthread : upsweep_kernel (2 ^ k) (2 ^ 22) (2 * 2 ^ 22) (0 + 256) d'
                    = Err OutOfBounds).
  { unfold upsweep_kernel.
    change (mul (0 + 256) (2 * 2 ^ 22)) with (- 2 ^ 31).
    pose proof (Pow2.pos k ltac:(lia)).
    destruct (Z.ltb_spec (- 2 ^ 31) (2 ^ k)); [|lia].
    change (sub (add (- 2 ^ 31) (2 * 2 ^ 22)) 1) with (-2139095041).
    rewrite load_oob by (left; reflexivity). reflexivity. }
  rewrite seqZ_cons by lia. cbn [foldM]. rewrite Hthread. reflexivity.
Qed.

Lemma upsweep_loop_fault fuel : forall m d,
  0 <= m <= 22 -> (Z.to_nat (22 - m) < fuel)%nat -> Z.of_nat (length d) = 2 ^ k ->
  upsweep_loop fuel (2 ^ k) (2 ^ m) d = Err OutOfBounds.
Proof.
  induction fuel as [|fuel IH]; intros m d Hm Hfuel Hlen; [lia|].
  cbn [upsweep_loop].
  pose proof (Pow2.lt_mono m k ltac:(lia)).
  destruct (Z.ltb_spec (2 ^ m) (2 ^ k)); [|lia].
  destruct (Z.eq_dec m 22) as [->|Hne].
  - rewrite up_level_fault by assumption. reflexivity.
  - destruct (up_level_len m d ltac:(lia) Hlen) as (d' & Hrun & Hl').
    rewrite Hrun. cbn [mbind outcome_bind].
    rewrite (geo_twod1 k m), <- Pow2.double by lia.
    apply IH; [lia|lia|assumption].
Qed.

Lemma exclusive_scan_overflow d n :
  nextPow2 n = 2 ^ k -> Z.of_nat (length d) = 2 ^ k ->
  exclusive_scan d n = Err OutOfBounds.
Proof.
  intros Hn Hlen. unfold exclusive_scan. rewrite Hn.
  change (upsweep_loop loop_fuel (2 ^ k) 1 d)
    with (upsweep_loop loop_fuel (2 ^ k) (2 ^ 0) d).
  rewrite upsweep_loop_fault; [reflexivity|lia|unfold loop_fuel; lia|assumption].
Qed.

End Overflow.

Lemma agree_upto_take n x y (i : nat) :
  agree_upto n x y -> Z.of_nat i < n -> take i x = take i y.
Proof.
  intros Hag Hi. apply list_eq. intros j.
  destruct (Nat.lt_ge_cases j i).
  - rewrite !lookup_take_lt by assumption. apply Hag. lia.
  - rewrite !lookup_take_ge by assumption. reflexivity.
Qed.

Lemma same_result_refl n r : same_result n r r.
Proof. destruct r; simpl; [intros i _|]; reflexivity. Qed.



(** ** The strided loop covers every circle exactly once *)

Lemma ceil_div_bounds N bd :
  0 <= N -> 0 < bd -> N + bd < 2 ^ 31 ->
  let maxIterations := div (sub (add N bd) 1) bd in
  0 <= maxIterations /\ N <= maxIterations * bd < N + bd.
Proof.
  intros HN Hbd Hov. unfold div, sub, add.
  rewrite (wrap_small (N + bd)) by (unfold is_int; lia).
  rewrite (wrap_small (N + bd - 1)) by (unfold is_int; lia).
  rewrite Z.quot_div_nonneg by lia.
  pose proof (Z.div_mod (N + bd - 1) bd ltac:(lia)).
  pose proof (Z.mod_pos_bound (N + bd - 1) bd ltac:(lia)).
  assert (0 <= (N + bd - 1) / bd) by (apply Z.div_pos; lia).
  assert ((N + bd - 1) / bd <= N + bd - 1) by (apply Z.div_le_upper_bound; nia).
  rewrite wrap_small by (unfold is_int; lia). cbv zeta. lia.
Qed.

Lemma ceil_div_eq N bd :
  0 <= N -> 0 < bd -> N + bd < 2 ^ 31 ->
  div (sub (add N bd) 1) bd = (N + bd - 1) / bd.
Proof.
  intros HN Hbd Hov. unfold div, sub, add.
  rewrite (wrap_small (N + bd)) by (unfold is_int; lia).
  rewrite (wrap_small (N + bd - 1)) by (unfold is_int; lia).
  rewrite Z.quot_div_nonneg by lia.
  assert (0 <= (N + bd - 1) / bd) by (apply Z.div_pos; lia).
  assert ((N + bd - 1) / bd <= N + bd - 1) by (apply Z.div_le_upper_bound; nia).
  apply wrap_small. unfold is_int. lia.
Qed.

Lemma tiles_bounds N bd :
  0 <= N -> 0 < bd -> N + bd < 2 ^ 31 ->
  0 <= (N + bd - 1) / bd /\ N <= (N + bd - 1) / bd * bd < N + bd.
Proof.
  intros HN Hbd Hov. rewrite <- ceil_div_eq by assumption.
  apply ceil_div_bounds; assumption.
Qed.

Lemma stride_unique bd tid j c :
  0 < bd -> 0 <= tid < bd ->
  c mod bd = tid -> tid + j * bd <= c < tid + (j + 1) * bd -> c = tid + j * bd.
Proof.
  intros Hbd Htid Hmod Hc.
  pose proof (Z.div_mod c bd ltac:(lia)) as Hdm. rewrite Hmod in Hdm.
  assert (c / bd = j) by nia. subst j. lia.
Qed.

Lemma stride_mod bd tid j :
  0 < bd -> 0 <= tid < bd -> (tid + j * bd) mod bd = tid.
Proof. intros. rewrite Z.mod_add by lia. apply Z.mod_small. lia. Qed.

Section Strided.

Context {St : Type}.
Variables (N bd : Z) (body : Z -> St -> outcome St) (Inv : list Z -> St -> Prop).
Hypothesis HN : 0 <= N.
Hypothesis Hbd : 0 < bd.
Hypothesis Hov : N + bd < 2 ^ 31.
Hypothesis Hstep : forall done c s,
  0 <= c < N -> c ∉ done -> Inv done s ->
  exists s', body c s = Ok s' /\ Inv (c :: done) s'.

Let maxIterations := div (sub (add N bd) 1) bd.

Lemma covered_start tid done :
  0 <= tid -> covered_below N bd tid done -> covered N bd tid 0 done.
Proof.
  intros Htid Hcov c. rewrite (Hcov c). split.
  - intros (Hc & Hlt). auto.
  - intros (Hc & [Hlt|[Hmod Hlt]]); [auto|].
    pose proof (Z.mod_le c bd ltac:(lia) Hbd). lia.
Qed.

Lemma strided_loop_thread tid : 0 <= tid < bd ->
  forall fuel j done s,
    0 <= j -> (1 <= fuel)%nat -> (Z.to_nat (maxIterations - j) <= fuel)%nat ->
    Inv done s -> covered N bd tid j done ->
    exists s' done',
      strided_loop fuel N bd maxIterations body j (tid + j * bd) s = Ok s'
      /\ Inv done' s' /\ covered_below N bd (tid + 1) done'.
Proof.
  intros Htid.
  destruct (ceil_div_bounds N bd HN Hbd Hov) as (Hm0 & Hm1 & Hm2).
  fold maxIterations in Hm0, Hm1, Hm2.
  induction fuel as [|fuel IH]; intros j done s Hj Hf1 Hf Hinv Hcov; [lia|].
  cbn [strided_loop].
  destruct (Z.geb_spec (tid + j * bd) N) as [Hbreak|Hgo].
  - exists s, done. split; [reflexivity|]. split; [assumption|].
    intros c. rewrite (Hcov c). split.
    + intros (Hc & Hor). split; [assumption|]. lia.
    + intros (Hc & Hlt). split; [assumption|].
      destruct (Z.eq_dec (c mod bd) tid); [right|left; lia].
      split; [assumption|lia].
  - assert (Hjb : 0 <= j * bd) by (apply Z.mul_nonneg_nonneg; lia).
    destruct (Hstep done (tid + j * bd) s) as (s1 & Hb & Hinv1); [lia| |assumption|].
    { rewrite (Hcov _), stride_mod by assumption. lia. }
    rewrite Hb. cbn [mbind outcome_bind].
    assert (Hj1 : add j 1 = j + 1).
    { apply wrap_small. unfold is_int. nia. }
    assert (Hc1 : add (tid + j * bd) bd = tid + (j + 1) * bd).
    { unfold add. rewrite wrap_small by (unfold is_int; lia). lia. }
    rewrite Hj1, Hc1.
    assert (Hcov1 : covered N bd tid (j + 1) ((tid + j * bd) :: done)).
    { intros c. rewrite elem_of_cons, (Hcov c). split.
      - intros [->|(Hc & Hor)].
        + split; [lia|]. right. rewrite stride_mod by assumption. lia.
        + split; [assumption|]. destruct Hor as [?|[? ?]]; [left; assumption|right; lia].
      - intros (Hc & [Hlt|[Hmod Hlt]]).
        + right. split; [assumption|left; assumption].
        + destruct (Z_lt_dec c (tid + j * bd)).
          * right. split; [assumption|right; split; assumption].
          * left. apply (stride_unique bd tid j c); try assumption; lia. }
    destruct (Z.ltb_spec (j + 1) maxIterations) as [Hmore|Hlast].
    + apply (IH (j + 1) ((tid + j * bd) :: done) s1); try assumption; lia.
    + exists s1, ((tid + j * bd) :: done). split; [reflexivity|]. split; [assumption|].
      intros c. rewrite (Hcov1 c). split.
      * intros (Hc & Hor). split; [assumption|]. lia.
      * intros (Hc & Hlt). split; [assumption|].
        destruct (Z.eq_dec (c mod bd) tid); [right|left; lia].
        split; [assumption|]. nia.
Qed.

Lemma strided_block s0 :
  Inv [] s0 ->
  exists s' done,
    foldM (fun tid => strided_loop (S (Z.to_nat maxIterations)) N bd maxIterations body 0 tid)
      (seqZ 0 bd) s0 = Ok s'
    /\ Inv done s' /\ forall c, c ∈ done <-> 0 <= c < N.
Proof.
  intros H0.
  destruct (foldM_seqZ_inv (fun tid s => exists done, Inv done s /\ covered_below N bd tid done)
              (fun tid => strided_loop (S (Z.to_nat maxIterations)) N bd maxIterations body 0 tid)
              bd s0) as (s' & Hrun & done & Hinv & Hcov).
  - exists []. split; [assumption|]. intros c. rewrite elem_of_nil.
    pose proof (Z.mod_pos_bound c bd Hbd). lia.
  - intros tid s Htid (done & Hinv & Hcov).
    destruct (strided_loop_thread tid Htid (S (Z.to_nat maxIterations)) 0 done s)
      as (s1 & done1 & Hrun & Hinv1 & Hcov1); try assumption; try lia.
    { apply covered_start; [lia|assumption]. }
    rewrite Z.mul_0_l, Z.add_0_r in Hrun. eauto.
  - exists s', done. split; [assumption|]. split; [assumption|].
    intros c. rewrite (Hcov c). rewrite Z.max_r by lia.
    pose proof (Z.mod_pos_bound c bd Hbd). lia.
Qed.

End Strided.

Module HitFacts.

Section Hits.

Variables (hit : buf) (N t : Z).

Lemma hits_before_succ c :
  0 <= c ->
  hits_before hit N t (c + 1)
  = hits_before hit N t c ++ (if decide (get hit (t * N + c) = 1) then [c] else []).
Proof.
  intros Hc. unfold hits_before.
  rewrite seqZ_app by lia. rewrite filter_app. f_equal.
Qed.

Lemma hits_before_split c :
  0 <= c <= N ->
  hits_before hit N t N
  = hits_before hit N t c
    ++ filter (fun c' => get hit (t * N + c') = 1) (seqZ c (N - c)).
Proof.
  intros Hc. unfold hits_before.
  replace N with (c + (N - c)) at 1 by lia.
  rewrite seqZ_app by lia. rewrite filter_app. reflexivity.
Qed.

Lemma hits_lookup c :
  0 <= c < N -> get hit (t * N + c) = 1 ->
  hits_before hit N t N !! length (hits_before hit N t c) = Some c.
Proof.
  intros Hc Hh. rewrite (hits_before_split c) by lia.
  rewrite seqZ_cons by lia. rewrite filter_cons_True by assumption.
  apply list_lookup_middle. reflexivity.
Qed.

Lemma hits_elem c :
  c ∈ hits_before hit N t N <-> 0 <= c < N /\ get hit (t * N + c) = 1.
Proof.
  unfold hits_before. rewrite list_elem_of_filter, elem_of_seqZ. intuition lia.
Qed.

Lemma hits_NoDup c : NoDup (hits_before hit N t c).
Proof. apply NoDup_filter, NoDup_seqZ. Qed.

Lemma hits_length_le c : 0 <= c -> Z.of_nat (length (hits_before hit N t c)) <= c.
Proof.
  intros Hc. unfold hits_before.
  pose proof (length_filter (fun c' => get hit (t * N + c') = 1) (seqZ 0 c)) as Hl.
  rewrite length_seqZ in Hl. lia.
Qed.

Lemma filter_seqZ_ascending (P : Z -> Prop) `{forall x, Decision (P x)} m n (i j : nat) a b :
  (i < j)%nat ->
  filter P (seqZ m n) !! i = Some a -> filter P (seqZ m n) !! j = Some b -> a < b.
Proof.
  destruct (Z_le_gt_dec n 0) as [Hn|Hn].
  { rewrite seqZ_nil by lia. intros _ Hi. discriminate. }
  replace n with (Z.of_nat (Z.to_nat n)) by lia.
  generalize (Z.to_nat n) as k. clear n Hn. intros k.
  revert m i j a b. induction k as [|k IH]; intros m i j a b Hij Hi Hj.
  { discriminate. }
  rewrite seqZ_cons in Hi, Hj by lia.
  replace (Z.pred (Z.of_nat (S k))) with (Z.of_nat k) in Hi, Hj by lia.
  assert (Hlow : forall q x, filter P (seqZ (Z.succ m) (Z.of_nat k)) !! q = Some x -> m < x).
  { intros q x Hq. apply list_elem_of_lookup_2 in Hq.
    apply list_elem_of_filter in Hq as [_ Hq]. apply elem_of_seqZ in Hq. lia. }
  destruct (decide (P m)) as [Hm|Hm].
  - rewrite filter_cons_True in Hi, Hj by assumption.
    destruct j as [|j]; [lia|]. destruct i as [|i]; simpl in Hi, Hj.
    + injection Hi as <-. eapply Hlow; eassumption.
    + eapply (IH (Z.succ m) i j); [lia|eassumption|eassumption].
  - rewrite filter_cons_False in Hi, Hj by assumption.
    eapply (IH (Z.succ m) i j); eassumption.
Qed.

(** Every earlier entry is below every later one. *)
Lemma hits_ascending c (i j : nat) a b :
  (i < j)%nat ->
  hits_before hit N t c !! i = Some a -> hits_before hit N t c !! j = Some b ->
  a < b.
Proof. apply filter_seqZ_ascending. Qed.

End Hits.

End HitFacts.
Import HitFacts.

Lemma row_in_grid N numBlocks t :
  1 <= N -> 0 <= t < numBlocks -> 0 <= t * N /\ t * N + N <= numBlocks * N.
Proof.
  intros HN Ht. split; [apply Z.mul_nonneg_nonneg; lia|].
  replace (t * N + N) with ((t + 1) * N) by lia.
  apply Z.mul_le_mono_nonneg_r; lia.
Qed.

Section MakeLists.

Variables (hit prefixes lst0 : buf) (N numBlocks t : Z).
Hypothesis HN : 1 <= N.
Hypothesis Ht : 0 <= t < numBlocks.
Hypothesis Hsize : numBlocks * N + 1024 < 2 ^ 31.
Hypothesis Hlh : Z.of_nat (length hit) = numBlocks * N.
Hypothesis Hlp : Z.of_nat (length prefixes) = numBlocks * N.
Hypothesis Hll : Z.of_nat (length lst0) = numBlocks * N.
Hypothesis Hbit : forall c, 0 <= c < N ->
  get hit (t * N + c) = 0 \/ get hit (t * N + c) = 1.
Hypothesis Hpre : prefix_row hit prefixes N t.

Let hits := hits_before hit N t N.
Let count := Z.of_nat (length hits).

Lemma row_bounds : 0 <= t * N /\ t * N + N <= numBlocks * N.
Proof. apply row_in_grid; assumption. Qed.

Lemma count_le : count <= N.
Proof. apply hits_length_le. lia. Qed.

Lemma live_store done sent lst (s : nat) c :
  lists_state hit lst0 N t done sent lst -> hits !! s = Some c ->
  lists_state hit lst0 N t (c :: done) sent (<[Z.to_nat (t * N + Z.of_nat s) := c]> lst).
Proof.
  intros (Hl & Hlive & Hsent & Hframe) Hs.
  pose proof row_bounds as [Hr0 Hr1]. pose proof count_le as Hcl.
  pose proof (lookup_lt_Some _ _ _ Hs) as Hslt. fold hits in Hslt. fold count in Hcl.
  assert (Hin : 0 <= t * N + Z.of_nat s < Z.of_nat (length lst)) by (unfold count in *; lia).
  split; [rewrite length_insert; assumption|]. split; [|split].
  - intros s' c' Hs'. rewrite get_insert by lia.
    destruct (Z.eqb_spec (t * N + Z.of_nat s') (t * N + Z.of_nat s)) as [E|E].
    + assert (s' = s) by lia. subst s'. fold hits in Hs, Hs'.
      assert (c' = c) by congruence. subst c'.
      rewrite decide_True by apply list_elem_of_here. reflexivity.
    + rewrite (Hlive s' c' Hs').
      assert (c' <> c).
      { intros ->. apply E. f_equal. f_equal.
        eapply NoDup_lookup; [apply (hits_NoDup hit N t N)|exact Hs'|exact Hs]. }
      destruct (decide (c' ∈ done)) as [Hd|Hd].
      * rewrite decide_True by (apply list_elem_of_further; assumption). reflexivity.
      * rewrite decide_False; [reflexivity|].
        rewrite elem_of_cons. intros [?|?]; contradiction.
  - intros Hc. rewrite get_insert by (fold hits count; lia).
    fold hits count. destruct (Z.eqb_spec (t * N + count) (t * N + Z.of_nat s)); [unfold count in *; lia|].
    apply Hsent. assumption.
  - intros idx Hidx Hn1 Hn2. rewrite get_insert by lia.
    fold hits count in Hn1, Hn2.
    destruct (Z.eqb_spec idx (t * N + Z.of_nat s)); [unfold count in *; lia|].
    apply Hframe; assumption.
Qed.

Lemma live_skip done sent lst c :
  lists_state hit lst0 N t done sent lst -> c ∉ hits ->
  lists_state hit lst0 N t (c :: done) sent lst.
Proof.
  intros (Hl & Hlive & Hsent & Hframe) Hc.
  split; [assumption|]. split; [|split; assumption].
  intros s c' Hs. rewrite (Hlive s c' Hs).
  assert (c' <> c).
  { intros ->. apply Hc. eapply list_elem_of_lookup_2. exact Hs. }
  destruct (decide (c' ∈ done)) as [Hd|Hd].
  - rewrite decide_True by (apply list_elem_of_further; assumption). reflexivity.
  - rewrite decide_False; [reflexivity|].
    rewrite elem_of_cons. intros [?|?]; contradiction.
Qed.

Lemma sentinel_store done lst :
  lists_state hit lst0 N t done false lst -> count < N ->
  lists_state hit lst0 N t done true (<[Z.to_nat (t * N + count) := -1]> lst).
Proof.
  intros (Hl & Hlive & Hsent & Hframe) Hc.
  pose proof row_bounds as [Hr0 Hr1].
  assert (Hin : 0 <= t * N + count < Z.of_nat (length lst)) by (unfold count in *; lia).
  split; [rewrite length_insert; assumption|]. split; [|split].
  - intros s c' Hs. fold hits count. rewrite get_insert by lia.
    pose proof (lookup_lt_Some _ _ _ Hs) as Hslt. fold hits in Hslt.
    destruct (Z.eqb_spec (t * N + Z.of_nat s) (t * N + count)); [unfold count in *; lia|].
    apply Hlive. assumption.
  - intros _. fold hits count. rewrite get_insert, Z.eqb_refl by lia. reflexivity.
  - intros idx Hidx Hn1 Hn2. fold hits count in Hn1, Hn2 |- *. rewrite get_insert by lia.
    destruct (Z.eqb_spec idx (t * N + count)); [lia|].
    apply Hframe; assumption.
Qed.

Lemma sentinel_none done sent sent' lst :
  lists_state hit lst0 N t done sent lst -> ~ count < N ->
  lists_state hit lst0 N t done sent' lst.
Proof.
  intros (Hl & Hlive & Hsent & Hframe) Hc.
  split; [assumption|]. split; [assumption|]. split; [|assumption].
  intros Hc'. fold hits count in Hc'. contradiction.
Qed.

Lemma sentinel_flag done c :
  c <> N - 1 -> bool_decide (N - 1 ∈ c :: done) = bool_decide (N - 1 ∈ done).
Proof.
  intros Hne. apply bool_decide_ext. rewrite elem_of_cons. intuition congruence.
Qed.

Lemma makeLists_step done c lst :
  0 <= c < N -> c ∉ done ->
  lists_state hit lst0 N t done (bool_decide (N - 1 ∈ done)) lst ->
  exists lst', makeLists_body hit prefixes N t c lst = Ok lst'
    /\ lists_state hit lst0 N t (c :: done) (bool_decide (N - 1 ∈ c :: done)) lst'.
Proof.
  intros Hc Hnd Hst.
  pose proof row_bounds as [Hr0 Hr1]. pose proof count_le as Hcl.
  pose proof (hits_length_le hit N t c ltac:(lia)) as Hpc.
  unfold makeLists_body.
  assert (Emul : mul t N = t * N) by (apply wrap_small; unfold is_int; lia).
  rewrite Emul.
  assert (Eidx : add (t * N) c = t * N + c) by (apply wrap_small; unfold is_int; lia).
  rewrite Eidx.
  assert (EN1 : sub N 1 = N - 1) by (apply wrap_small; unfold is_int; lia).
  rewrite EN1.
  rewrite !load_ok by lia. cbn [mbind outcome_bind].
  rewrite (Hpre c Hc).
  set (pc := length (hits_before hit N t c)) in *.
  assert (Epc : add (t * N) (Z.of_nat pc) = t * N + Z.of_nat pc)
    by (apply wrap_small; unfold is_int; lia).
  assert (Epc1 : add (t * N + Z.of_nat pc) 1 = t * N + Z.of_nat pc + 1)
    by (apply wrap_small; unfold is_int; lia).
  rewrite Epc, Epc1.
  pose proof (proj1 Hst) as Hl.
  destruct (Z.eqb_spec c (N - 1)) as [Hlast|Hnl].
  - (* the thread of the last circle also writes the sentinel *)
    assert (Hsplit : hits = hits_before hit N t c
               ++ (if decide (get hit (t * N + c) = 1) then [c] else [])).
    { unfold hits. rewrite <- (hits_before_succ hit N t c) by lia.
      f_equal. lia. }
    assert (Hflag : bool_decide (N - 1 ∈ done) = false).
    { apply bool_decide_eq_false. rewrite <- Hlast. assumption. }
    assert (Hflag' : bool_decide (N - 1 ∈ c :: done) = true).
    { apply bool_decide_eq_true. rewrite <- Hlast. apply list_elem_of_here. }
    rewrite Hflag in Hst. rewrite Hflag'.
    destruct (Hbit c Hc) as [Hh|Hh]; rewrite Hh.
    + (* circle N-1 missed the tile: sentinel at prefix[N-1] *)
      change (0 =? 1) with false. change (0 =? 0) with true.
      cbn [andb mbind outcome_bind].
      rewrite decide_False in Hsplit by lia. rewrite app_nil_r in Hsplit.
      assert (Hcount : count = Z.of_nat pc) by (unfold count; rewrite Hsplit; reflexivity).
      rewrite store_ok by lia. eexists. split; [reflexivity|].
      rewrite <- Hcount. apply sentinel_store; [|lia].
      apply live_skip; [assumption|]. unfold hits. rewrite hits_elem. lia.
    + (* circle N-1 hit the tile *)
      change (1 =? 1) with true. cbn [andb mbind outcome_bind].
      rewrite decide_True in Hsplit by assumption.
      assert (Hcount : count = Z.of_nat pc + 1).
      { unfold count. rewrite Hsplit, length_app. simpl. fold pc. lia. }
      assert (Hs : hits !! pc = Some c) by (apply hits_lookup; assumption).
      rewrite store_ok by lia. cbn [mbind outcome_bind].
      pose proof (live_store done false lst pc c Hst Hs) as Hst1.
      destruct (Z.ltb_spec (Z.of_nat pc) (N - 1)) as [Hroom|Hfull].
      * rewrite store_ok by (rewrite length_insert; lia).
        eexists. split; [reflexivity|].
        replace (t * N + Z.of_nat pc + 1) with (t * N + count) by lia.
        apply sentinel_store; [assumption|lia].
      * change (1 =? 0) with false. eexists. split; [reflexivity|].
        eapply sentinel_none; [eassumption|]. fold hits count. lia.
  - rewrite sentinel_flag by assumption.
    destruct (Hbit c Hc) as [Hh|Hh]; rewrite Hh;
      [change (0 =? 1) with false|change (1 =? 1) with true];
      cbn [andb mbind outcome_bind].
    + eexists. split; [reflexivity|].
      apply live_skip; [assumption|]. unfold hits. rewrite hits_elem. lia.
    + assert (Hs : hits !! pc = Some c) by (apply hits_lookup; assumption).
      pose proof (lookup_lt_Some _ _ _ Hs) as Hslt. fold hits count in Hslt, Hcl.
      rewrite store_ok by (unfold count in *; lia). cbn [mbind outcome_bind].
      eexists. split; [reflexivity|]. apply live_store; assumption.
Qed.

End MakeLists.

Section MakeListsGrid.

Context {F : Type}.
Variables (cu : GlobalConstants F) (hit prefixes lst0 : buf) (numBlocks : Z).
Let N := numberOfCircles cu.
Hypothesis HN : 1 <= N.
Hypothesis Hsize : numBlocks * N + 1024 < 2 ^ 31.
Hypothesis Hlh : Z.of_nat (length hit) = numBlocks * N.
Hypothesis Hlp : Z.of_nat (length prefixes) = numBlocks * N.
Hypothesis Hll : Z.of_nat (length lst0) = numBlocks * N.
Hypothesis Hbit : forall i, 0 <= i < numBlocks * N -> get hit i = 0 \/ get hit i = 1.
Hypothesis Hpre : forall t, 0 <= t < numBlocks -> prefix_row hit prefixes N t.

Lemma in_row t c : 0 <= t < numBlocks -> 0 <= c < N -> 0 <= t * N + c < numBlocks * N.
Proof.
  intros Ht Hc.
  destruct (row_in_grid N numBlocks t HN Ht) as [Hr0 Hr1]. lia.
Qed.

Lemma makeLists_block t lst :
  0 <= t < numBlocks -> length lst = length lst0 ->
  exists lst',
    foldM (kernelMakeLists cu 1024 hit prefixes t) (seqZ 0 1024) lst = Ok lst'
    /\ lists_state hit lst N t (seqZ 0 N) true lst'.
Proof.
  intros Ht Hl. unfold kernelMakeLists. fold N.
  destruct (strided_block N 1024 (makeLists_body hit prefixes N t)
              (fun done l => lists_state hit lst N t done (bool_decide (N - 1 ∈ done)) l))
    with (s0 := lst) as (lst' & done & Hrun & Hst & Hdone); try lia.
  - assert (numBlocks * N >= N) by nia. lia.
  - intros done c s Hc Hnd Hs.
    apply (makeLists_step hit prefixes lst N numBlocks t); try assumption; try lia.
    intros c' Hc'. apply Hbit. apply in_row; assumption.
    apply Hpre. assumption.
  - split; [reflexivity|]. split; [|split]; intros; reflexivity.
  - exists lst'. split; [exact Hrun|].
    destruct Hst as (Hl' & Hlive & Hsent & Hframe).
    split; [assumption|]. split; [|split; [|assumption]].
    + intros s c Hs. rewrite (Hlive s c Hs).
      assert (Hin : c ∈ hits_before hit N t N) by (eapply list_elem_of_lookup_2; exact Hs).
      apply hits_elem in Hin as [Hc _].
      destruct (decide (c ∈ done)) as [Hd|Hd].
      * rewrite decide_True by (apply elem_of_seqZ; lia). reflexivity.
      * exfalso. apply Hd, Hdone. assumption.
    + intros Hc. rewrite (Hsent Hc).
      rewrite bool_decide_eq_true_2; [reflexivity|]. apply Hdone. lia.
Qed.

Lemma makeLists_grid :
  0 <= numBlocks ->
  exists lst',
    launch_blocks numBlocks 1024 (kernelMakeLists cu 1024 hit prefixes) lst0 = Ok lst'
    /\ length lst' = length lst0
    /\ forall t, 0 <= t < numBlocks -> row_built hit lst0 N t lst'.
Proof.
  intros Hnb. unfold launch_blocks.
  destruct (foldM_seqZ_inv (grid_inv hit lst0 N)
              (fun b => foldM (kernelMakeLists cu 1024 hit prefixes b) (seqZ 0 1024))
              numBlocks lst0) as (lst' & Hrun & Hl & Hrows & _).
  - split; [reflexivity|]. split; [intros; lia|reflexivity].
  - intros b lst Hb (Hl & Hrows & Hrest).
    destruct (makeLists_block b lst Hb Hl) as (lst' & Hrun & Hl' & Hlive & Hsent & Hframe).
    exists lst'. split; [exact Hrun|].
    destruct (row_in_grid N numBlocks b HN Hb) as [Hb0 Hb1].
    pose proof (hits_length_le hit N b N ltac:(lia)) as Hcb.
    split; [congruence|]. split.
    + intros t Ht. destruct (Z.eq_dec t b) as [->|Hne].
      * split; [|split].
        -- intros s c Hs. rewrite (Hlive s c Hs).
           assert (Hin : c ∈ hits_before hit N b N) by (eapply list_elem_of_lookup_2; exact Hs).
           apply hits_elem in Hin as [Hc _].
           rewrite decide_True by (apply elem_of_seqZ; lia). reflexivity.
        -- intros Hc. apply Hsent. assumption.
        -- intros s Hs. rewrite Hframe by lia. apply Hrest. lia.
      * assert (Htb : 0 <= t < b) by lia.
        destruct (row_in_grid N numBlocks t HN ltac:(lia)) as [Ht0 Ht1].
        assert (Hsep : (t + 1) * N <= b * N) by (apply Z.mul_le_mono_nonneg_r; lia).
        pose proof (hits_length_le hit N t N ltac:(lia)) as Hct.
        destruct (Hrows t Htb) as (R1 & R2 & R3).
        split; [|split].
        -- intros s c Hs. pose proof (lookup_lt_Some _ _ _ Hs).
           rewrite Hframe by lia. apply R1. assumption.
        -- intros Hc. rewrite Hframe by lia. apply R2. assumption.
        -- intros s Hs. rewrite Hframe by lia. apply R3. assumption.
    + intros idx Hidx.
      assert ((b + 1) * N = b * N + N) by lia.
      rewrite Hframe by lia. apply Hrest. lia.
  - exists lst'. rewrite Z.max_r in Hrows by lia. auto.
Qed.

End MakeListsGrid.

Lemma wrapu_small z : 0 <= z < 2 ^ 32 -> wrapu z = z.
Proof. intros. unfold wrapu. apply Z.mod_small. assumption. Qed.

Lemma scan_output_get (input : buf) (i : Z) :
  0 <= i < SCAN_BLOCK_DIM ->
  get (sharedMemExclusiveScan input SCAN_BLOCK_DIM) i = wrapu (psum input i).
Proof.
  intros Hi. unfold get, sharedMemExclusiveScan.
  rewrite list_lookup_fmap, lookup_seqZ_lt by lia. simpl.
  replace (0 + Z.of_nat (Z.to_nat i)) with i by lia. reflexivity.
Qed.

Lemma scan_output_length (input : buf) :
  length (sharedMemExclusiveScan input SCAN_BLOCK_DIM) = 1024%nat.
Proof. unfold sharedMemExclusiveScan. rewrite length_fmap, length_seqZ. reflexivity. Qed.

Section Scan2.

Variables (hit prefixes0 : buf) (N numBlocks t : Z).
Hypothesis HN : 1 <= N.
Hypothesis Ht : 0 <= t < numBlocks.
Hypothesis Hsize : numBlocks * N + 1024 < 2 ^ 31.
Hypothesis Hlh : Z.of_nat (length hit) = numBlocks * N.
Hypothesis Hlp : Z.of_nat (length prefixes0) = numBlocks * N.
Hypothesis Hbit : forall c, 0 <= c < N ->
  get hit (t * N + c) = 0 \/ get hit (t * N + c) = 1.

Let maxIterations := div (sub (add N SCAN_BLOCK_DIM) 1) SCAN_BLOCK_DIM.

Lemma row_fits : N <= numBlocks * N.
Proof. destruct (row_in_grid N numBlocks t HN Ht). lia. Qed.

Lemma rounds_bounds : 0 <= maxIterations /\ N <= maxIterations * 1024 < N + 1024.
Proof.
  pose proof row_fits.
  apply (ceil_div_bounds N 1024); lia.
Qed.

Lemma hit_count_succ c :
  0 <= c < N -> hit_count hit N t (c + 1) = hit_count hit N t c + get hit (t * N + c).
Proof.
  intros Hc. unfold hit_count. rewrite hits_before_succ, length_app by lia.
  destruct (Hbit c Hc) as [Hh|Hh]; rewrite Hh.
  - rewrite decide_False by lia. simpl. lia.
  - rewrite decide_True by reflexivity. simpl. lia.
Qed.

Lemma hit_count_mono c c' :
  0 <= c <= c' /\ c' <= N -> hit_count hit N t c <= hit_count hit N t c'.
Proof.
  intros Hc. replace c' with (c + Z.of_nat (Z.to_nat (c' - c))) by lia.
  assert (Hn : c + Z.of_nat (Z.to_nat (c' - c)) <= N) by lia. revert Hn.
  generalize (Z.to_nat (c' - c)) as n. induction n as [|n IH]; intros Hn.
  - replace (c + Z.of_nat 0) with c by lia. lia.
  - replace (c + Z.of_nat (S n)) with (c + Z.of_nat n + 1) by lia.
    rewrite hit_count_succ by lia.
    destruct (Hbit (c + Z.of_nat n) ltac:(lia)) as [-> | ->];
      specialize (IH ltac:(lia)); lia.
Qed.

Lemma hit_count_bounds c : 0 <= c -> 0 <= hit_count hit N t c <= c.
Proof. intros Hc. unfold hit_count. pose proof (hits_length_le hit N t c Hc). lia. Qed.

Lemma thread_i j tid :
  0 <= j < maxIterations -> 0 <= tid < 1024 ->
  add tid (mul j SCAN_BLOCK_DIM) = j * 1024 + tid /\ 0 <= j * 1024 < N.
Proof.
  intros Hj Htid.
  destruct rounds_bounds as (Hm0 & Hm1 & Hm2).
  pose proof row_fits.
  unfold add, mul, SCAN_BLOCK_DIM.
  rewrite (wrap_small (j * 1024)) by (unfold is_int; lia).
  rewrite wrap_small by (unfold is_int; lia). lia.
Qed.

(** The first pass of round [j]: the chunk of the hit row is in shared
    memory, as far as the row goes. *)
Lemma scan2_load_pass j input :
  0 <= j < maxIterations -> length input = 1024%nat ->
  exists input',
    foldM (scan2_load hit N t j) (seqZ 0 SCAN_BLOCK_DIM) input = Ok input'
    /\ length input' = 1024%nat
    /\ forall tid, 0 <= tid < 1024 -> j * 1024 + tid < N ->
         get input' tid = get hit (t * N + (j * 1024 + tid)).
Proof.
  intros Hj Hl.
  destruct (row_in_grid N numBlocks t HN Ht) as [Hr0 Hr1].
  destruct (foldM_seqZ_inv
    (fun n inp => length inp = 1024%nat /\
       forall tid, 0 <= tid < n -> j * 1024 + tid < N ->
         get inp tid = get hit (t * N + (j * 1024 + tid)))
    (scan2_load hit N t j) SCAN_BLOCK_DIM input) as (input' & Hrun & Hl' & Hin).
  - split; [assumption|]. intros; lia.
  - intros tid inp Htid (Hli & Hinp). unfold SCAN_BLOCK_DIM in Htid.
    destruct (thread_i j tid Hj Htid) as [Ei Hj0].
    unfold scan2_load. rewrite Ei.
    destruct (Z.ltb_spec (j * 1024 + tid) N) as [Hlt|Hge].
    + assert (Emul : mul t N = t * N) by (apply wrap_small; unfold is_int; lia).
      assert (Eidx : add (t * N) (j * 1024 + tid) = t * N + (j * 1024 + tid))
        by (apply wrap_small; unfold is_int; lia).
      rewrite Emul, Eidx, load_ok by lia. cbn [mbind outcome_bind].
      rewrite store_ok by lia.
      eexists. split; [reflexivity|]. split; [rewrite length_insert; assumption|].
      intros tid' Htid' Hlt'. rewrite get_insert by lia.
      destruct (Z.eqb_spec tid' tid) as [->|Hne].
      * apply wrapu_small. destruct (Hbit (j * 1024 + tid) ltac:(lia)) as [-> | ->]; lia.
      * apply Hinp; lia.
    + exists inp. split; [reflexivity|]. split; [assumption|].
      intros tid' Htid' Hlt'. apply Hinp; lia.
  - exists input'. split; [exact Hrun|]. split; [assumption|].
    intros tid Htid. apply Hin. unfold SCAN_BLOCK_DIM. lia.
Qed.

(** What the work-group scan returns for a chunk. *)
Lemma chunk_sums j input :
  0 <= j < maxIterations ->
  length input = 1024%nat ->
  (forall tid, 0 <= tid < 1024 -> j * 1024 + tid < N ->
     get input tid = get hit (t * N + (j * 1024 + tid))) ->
  forall tid, 0 <= tid < 1024 -> j * 1024 + tid <= N ->
    psum input tid = hit_count hit N t (j * 1024 + tid) - hit_count hit N t (j * 1024).
Proof.
  intros Hj Hl Hin tid Htid.
  replace tid with (Z.of_nat (Z.to_nat tid)) by lia.
  assert (Hn : (Z.to_nat tid < 1024)%nat) by lia. revert Hn.
  generalize (Z.to_nat tid) as n. clear tid Htid.
  induction n as [|n IH]; intros Hn Hle.
  - rewrite psum_0. replace (j * 1024 + Z.of_nat 0) with (j * 1024) by lia. lia.
  - replace (Z.of_nat (S n)) with (Z.of_nat n + 1) in * by lia.
    rewrite psum_succ by lia. rewrite IH by lia.
    rewrite Hin by lia.
    replace (j * 1024 + (Z.of_nat n + 1)) with (j * 1024 + Z.of_nat n + 1) by lia.
    assert (0 <= j * 1024) by lia.
    rewrite hit_count_succ by lia. lia.
Qed.

(** The last pass of round [j]: the chunk's prefix values, with the carry of
    the chunks before it. *)
Lemma scan2_store_pass j input p :
  0 <= j < maxIterations ->
  length input = 1024%nat ->
  (forall tid, 0 <= tid < 1024 -> j * 1024 + tid < N ->
     get input tid = get hit (t * N + (j * 1024 + tid))) ->
  scan2_inv hit prefixes0 N t (j * 1024) p ->
  exists p',
    foldM (scan2_store hit (sharedMemExclusiveScan input SCAN_BLOCK_DIM) N t j)
      (seqZ 0 SCAN_BLOCK_DIM) p = Ok p'
    /\ scan2_inv hit prefixes0 N t ((j + 1) * 1024) p'.
Proof.
  intros Hj Hl Hin Hinv.
  destruct (row_in_grid N numBlocks t HN Ht) as [Hr0 Hr1].
  destruct (foldM_seqZ_inv (fun n q => scan2_inv hit prefixes0 N t (j * 1024 + n) q)
    (scan2_store hit (sharedMemExclusiveScan input SCAN_BLOCK_DIM) N t j)
    SCAN_BLOCK_DIM p) as (p' & Hrun & Hinv').
  - rewrite Z.add_0_r. assumption.
  - intros tid q Htid (Hlq & Hrow & Hframe). unfold SCAN_BLOCK_DIM in Htid.
    destruct (thread_i j tid Hj Htid) as [Ei Hj0].
    unfold scan2_store. rewrite Ei.
    destruct (Z.ltb_spec (j * 1024 + tid) N) as [Hlt|Hge].
    + assert (Emul : mul t N = t * N) by (apply wrap_small; unfold is_int; lia).
      assert (Eidx : add (t * N) (j * 1024 + tid) = t * N + (j * 1024 + tid))
        by (apply wrap_small; unfold is_int; lia).
      rewrite Emul, Eidx.
      pose proof (scan_output_length input) as Hol.
      rewrite (load_ok (sharedMemExclusiveScan input SCAN_BLOCK_DIM) tid) by lia.
      cbn [mbind outcome_bind].
      rewrite scan_output_get by (unfold SCAN_BLOCK_DIM; lia).
      rewrite (chunk_sums j input Hj Hl Hin tid Htid) by lia.
      pose proof (hit_count_bounds (j * 1024 + tid) ltac:(lia)) as Hb1.
      pose proof (hit_count_bounds (j * 1024) ltac:(lia)) as Hb2.
      set (o := hit_count hit N t (j * 1024 + tid) - hit_count hit N t (j * 1024)) in *.
      assert (Ho : 0 <= o <= j * 1024 + tid).
      { unfold o. pose proof (hit_count_mono (j * 1024) (j * 1024 + tid) ltac:(lia)). lia. }
      rewrite (wrapu_small o) by lia. rewrite (wrap_small o) by (unfold is_int; lia).
      rewrite store_ok by lia. cbn [mbind outcome_bind].
      destruct (Z.leb_spec 1 j) as [Hj1|Hj1].
      * (* carry: the final prefix of the chunk before, plus its last flag *)
        assert (Esub : sub (mul j SCAN_BLOCK_DIM) 1 = j * 1024 - 1).
        { unfold sub, mul, SCAN_BLOCK_DIM.
          rewrite (wrap_small (j * 1024)) by (unfold is_int; lia).
          apply wrap_small. unfold is_int. lia. }
        assert (Elast : add (t * N) (j * 1024 - 1) = t * N + (j * 1024 - 1))
          by (apply wrap_small; unfold is_int; lia).
        rewrite Esub, Elast.
        set (q1 := <[Z.to_nat (t * N + (j * 1024 + tid)) := o]> q).
        assert (Hlq1 : length q1 = length q) by apply length_insert.
        pose proof (hit_count_bounds (j * 1024 - 1) ltac:(lia)) as Hb3.
        assert (Ha : get q1 (t * N + (j * 1024 - 1)) = hit_count hit N t (j * 1024 - 1)).
        { unfold q1. rewrite get_insert by lia.
          destruct (Z.eqb_spec (t * N + (j * 1024 - 1)) (t * N + (j * 1024 + tid))); [lia|].
          apply Hrow; lia. }
        assert (Hp : get q1 (t * N + (j * 1024 + tid)) = o).
        { unfold q1. rewrite get_insert, Z.eqb_refl by lia. reflexivity. }
        rewrite (load_ok q1 (t * N + (j * 1024 - 1))) by lia. cbn [mbind outcome_bind].
        rewrite (load_ok hit (t * N + (j * 1024 - 1))) by lia. cbn [mbind outcome_bind].
        rewrite (load_ok q1 (t * N + (j * 1024 + tid))) by lia. cbn [mbind outcome_bind].
        rewrite (store_ok q1 (t * N + (j * 1024 + tid))) by lia.
        rewrite Ha, Hp.
        destruct (Z.leb_spec 0 (hit_count hit N t (j * 1024 - 1))); [|lia].
        eexists. split; [reflexivity|].
        assert (Hcarry : (if get hit (t * N + (j * 1024 - 1)) =? 1
                          then add (hit_count hit N t (j * 1024 - 1)) 1
                          else hit_count hit N t (j * 1024 - 1))
                         = hit_count hit N t (j * 1024)).
        { assert (Hsucc : hit_count hit N t (j * 1024)
                    = hit_count hit N t (j * 1024 - 1) + get hit (t * N + (j * 1024 - 1))).
          { rewrite <- hit_count_succ by lia. f_equal. lia. }
          rewrite Hsucc.
          destruct (Hbit (j * 1024 - 1) ltac:(lia)) as [-> | ->].
          - change (0 =? 1) with false. cbv iota. lia.
          - change (1 =? 1) with true. cbv iota. unfold add. apply wrap_small.
            unfold is_int. lia. }
        rewrite Hcarry.
        assert (Esum : add o (hit_count hit N t (j * 1024)) = hit_count hit N t (j * 1024 + tid)).
        { unfold add. rewrite wrap_small by (unfold is_int; lia). unfold o. lia. }
        rewrite Esum.
        split; [rewrite length_insert; lia|]. split.
        -- intros c Hc HcN. rewrite get_insert by lia.
           destruct (Z.eqb_spec (t * N + c) (t * N + (j * 1024 + tid))) as [E|E].
           ++ f_equal. lia.
           ++ unfold q1. rewrite get_insert by lia.
              destruct (Z.eqb_spec (t * N + c) (t * N + (j * 1024 + tid))); [lia|].
              apply Hrow; lia.
        -- intros idx Hidx Hout. rewrite get_insert by lia.
           destruct (Z.eqb_spec idx (t * N + (j * 1024 + tid))); [lia|].
           unfold q1. rewrite get_insert by lia.
           destruct (Z.eqb_spec idx (t * N + (j * 1024 + tid))); [lia|].
           apply Hframe; assumption.
      * assert (j = 0) by lia. subst j.
        eexists. split; [reflexivity|].
        split; [rewrite length_insert; assumption|]. split.
        -- intros c Hc HcN. rewrite get_insert by lia.
           destruct (Z.eqb_spec (t * N + c) (t * N + (0 * 1024 + tid))) as [E|E].
           ++ unfold o. replace c with (0 * 1024 + tid) by lia.
              change (0 * 1024) with 0. unfold hit_count at 2. simpl. lia.
           ++ apply Hrow; lia.
        -- intros idx Hidx Hout. rewrite get_insert by lia.
           destruct (Z.eqb_spec idx (t * N + (0 * 1024 + tid))); [lia|].
           apply Hframe; assumption.
    + exists q. split; [reflexivity|]. split; [assumption|]. split; [|assumption].
      intros c Hc HcN. apply Hrow; lia.
  - exists p'. split; [exact Hrun|].
    unfold SCAN_BLOCK_DIM in Hinv'. rewrite Z.max_r in Hinv' by lia.
    replace ((j + 1) * 1024) with (j * 1024 + 1024) by lia. exact Hinv'.
Qed.

Lemma scan2_rounds_ok fuel : forall j input p,
  0 <= j < maxIterations -> (Z.to_nat (maxIterations - j) <= fuel)%nat ->
  length input = 1024%nat -> scan2_inv hit prefixes0 N t (j * 1024) p ->
  exists r, scan2_rounds fuel hit N t maxIterations j input p = Ok r
    /\ scan2_inv hit prefixes0 N t N r.2.
Proof.
  destruct rounds_bounds as (Hm0 & Hm1 & Hm2). pose proof row_fits.
  induction fuel as [|fuel IH]; intros j input p Hj Hfuel Hl Hinv; [lia|].
  cbn [scan2_rounds].
  destruct (scan2_load_pass j input Hj Hl) as (input' & Hrun1 & Hl' & Hin).
  rewrite Hrun1. cbn [mbind outcome_bind].
  destruct (scan2_store_pass j input' p Hj Hl' Hin Hinv) as (p' & Hrun2 & Hinv').
  rewrite Hrun2. cbn [mbind outcome_bind].
  assert (Ej : add j 1 = j + 1) by (apply wrap_small; unfold is_int; lia).
  rewrite Ej.
  destruct (Z.ltb_spec (j + 1) maxIterations) as [Hmore|Hlast].
  - apply IH; try assumption; lia.
  - eexists. split; [reflexivity|]. simpl.
    destruct Hinv' as (Hlp' & Hrow & Hframe).
    split; [assumption|]. split; [|assumption].
    intros c Hc _. apply Hrow; lia.
Qed.

Lemma kernelScan2_block shared :
  exists p', kernelScan2 shared hit N t prefixes0 = Ok p' /\ scan2_inv hit prefixes0 N t N p'.
Proof.
  unfold kernelScan2. fold maxIterations.
  destruct rounds_bounds as (Hm0 & Hm1 & Hm2).
  destruct (scan2_rounds_ok (S (Z.to_nat maxIterations)) 0
              (cudaMalloc SCAN_BLOCK_DIM (shared t)) prefixes0) as (r & Hrun & Hinv).
  - lia.
  - lia.
  - unfold cudaMalloc. rewrite length_fmap, length_seqZ. reflexivity.
  - split; [reflexivity|]. split; [intros; lia|]. intros. reflexivity.
  - rewrite Hrun. cbn [mbind outcome_bind]. eauto.
Qed.

End Scan2.

Lemma Forall_get (P : Z -> Prop) (l : buf) i :
  Forall P l -> 0 <= i < Z.of_nat (length l) -> P (get l i).
Proof.
  intros HP Hi. unfold get.
  destruct (lookup_lt_is_Some_2 l (Z.to_nat i)) as [v Hv]; [lia|]. rewrite Hv.
  eapply Forall_lookup_1; eassumption.
Qed.

Section Scan2Grid.

Variables (shared : Z -> Z -> Z) (hit prefixes0 : buf) (N numBlocks : Z).
Hypothesis HN : 1 <= N.
Hypothesis Hsize : numBlocks * N + 1024 < 2 ^ 31.
Hypothesis Hlh : Z.of_nat (length hit) = numBlocks * N.
Hypothesis Hlp : Z.of_nat (length prefixes0) = numBlocks * N.
Hypothesis Hbit : Forall (fun h => h = 0 \/ h = 1) hit.

Lemma hit_bit t c : 0 <= t < numBlocks -> 0 <= c < N ->
  get hit (t * N + c) = 0 \/ get hit (t * N + c) = 1.
Proof.
  intros Ht Hc. destruct (row_in_grid N numBlocks t HN Ht).
  apply (Forall_get (fun h => h = 0 \/ h = 1)); [assumption|lia].
Qed.

Lemma kernelScan2_grid :
  0 <= numBlocks ->
  exists prefixes,
    foldM (kernelScan2 shared hit N) (seqZ 0 numBlocks) prefixes0 = Ok prefixes
    /\ length prefixes = length prefixes0
    /\ forall t, 0 <= t < numBlocks -> prefix_row hit prefixes N t.
Proof.
  intros Hnb.
  destruct (foldM_seqZ_inv
    (fun b p => length p = length prefixes0 /\
       forall t, 0 <= t < b -> prefix_row hit p N t)
    (kernelScan2 shared hit N) numBlocks prefixes0) as (p' & Hrun & Hl & Hrows).
  - split; [reflexivity|]. intros; lia.
  - intros b p Hb (Hl & Hrows).
    destruct (kernelScan2_block hit p N numBlocks b HN Hb Hsize Hlh ltac:(lia)
                (fun c Hc => hit_bit b c Hb Hc) shared) as (p' & Hrun & Hl' & Hrow & Hframe).
    exists p'. split; [exact Hrun|]. split; [congruence|].
    intros t Ht c Hc. destruct (Z.eq_dec t b) as [->|Hne].
    + apply Hrow; lia.
    + destruct (row_in_grid N numBlocks t HN ltac:(lia)).
      destruct (row_in_grid N numBlocks b HN Hb).
      assert ((t + 1) * N <= b * N) by (apply Z.mul_le_mono_nonneg_r; lia).
      rewrite Hframe by lia. apply Hrows; lia.
  - exists p'. rewrite Z.max_r in Hrows by lia. auto.
Qed.

End Scan2Grid.



Section Mark.

Context {F : Type} `{FloatOps F}.
Variables (cu : GlobalConstants F) (blockSize numBlocks : Z).
Let N := numberOfCircles cu.
Hypothesis HN : 1 <= N.
Hypothesis Hsize : numBlocks * N + 1024 < 2 ^ 31.
Hypothesis H3N : 3 * N < 2 ^ 31.
Hypothesis Hpos : Z.of_nat (length (position cu)) = 3 * N.
Hypothesis Hrad : Z.of_nat (length (radius cu)) = N.

Lemma mark_body_ok t c (hit : buf) :
  0 <= t < numBlocks -> 0 <= c < N ->
  Z.of_nat (length hit) = numBlocks * N ->
  mark_body cu blockSize N t c hit
  = Ok (<[Z.to_nat (t * N + c) := circle_flag cu blockSize t c]> hit).
Proof.
  intros Ht Hc Hl. destruct (row_in_grid N numBlocks t HN Ht) as [Hr0 Hr1].
  unfold mark_body, load3, circle_flag.
  assert (E3 : mul 3 c = 3 * c) by (apply wrap_small; unfold is_int; lia).
  assert (Emul : mul t N = t * N) by (apply wrap_small; unfold is_int; lia).
  assert (Eidx : add (t * N) c = t * N + c) by (apply wrap_small; unfold is_int; lia).
  rewrite E3, Emul, Eidx.
  destruct (lookup_lt_is_Some_2 (position cu) (Z.to_nat (3 * c))) as [x Hx]; [lia|].
  destruct (lookup_lt_is_Some_2 (position cu) (Z.to_nat (3 * c + 1))) as [y Hy]; [lia|].
  destruct (lookup_lt_is_Some_2 (position cu) (Z.to_nat (3 * c + 2))) as [z Hz]; [lia|].
  destruct (lookup_lt_is_Some_2 (radius cu) (Z.to_nat c)) as [r Hr]; [lia|].
  rewrite (load_lookup (position cu) (3 * c) x), (load_lookup (position cu) (3 * c + 1) y),
    (load_lookup (position cu) (3 * c + 2) z) by (assumption || lia).
  cbn [mbind outcome_bind x3 y3].
  rewrite Hx, Hy, Hr.
  destruct (mark_box cu blockSize t) as [[[boxL boxR] boxT] boxB] eqn:Ebox.
  rewrite (load_lookup (radius cu) c r) by (assumption || lia). cbn [mbind outcome_bind].
  rewrite store_ok by lia. unfold circleInBox, box_overlap. reflexivity.
Qed.

Lemma mark_block hit0 t :
  0 <= t < numBlocks -> Z.of_nat (length hit0) = numBlocks * N ->
  exists hit,
    foldM (kernelMarkBlocks cu 1024 blockSize N t) (seqZ 0 1024) hit0 = Ok hit
    /\ length hit = length hit0
    /\ (forall c, 0 <= c < N -> get hit (t * N + c) = circle_flag cu blockSize t c)
    /\ (forall idx, 0 <= idx -> ~ (t * N <= idx < t * N + N) -> get hit idx = get hit0 idx).
Proof.
  intros Ht Hl. destruct (row_in_grid N numBlocks t HN Ht) as [Hr0 Hr1].
  unfold kernelMarkBlocks.
  destruct (strided_block N 1024 (mark_body cu blockSize N t) (mark_inv cu blockSize N hit0 t))
    with (s0 := hit0) as (hit & done & Hrun & (Hl' & Hrow & Hframe) & Hdone); try lia.
  - intros done c s Hc Hnd (Hls & Hrow & Hframe).
    rewrite mark_body_ok by (assumption || lia).
    eexists. split; [reflexivity|]. split; [rewrite length_insert; assumption|]. split.
    + intros c' Hc'. rewrite get_insert by lia.
      destruct (Z.eqb_spec (t * N + c') (t * N + c)) as [E|E].
      * assert (c' = c) by lia. subst c'.
        rewrite decide_True by apply list_elem_of_here. reflexivity.
      * rewrite (Hrow c' Hc').
        destruct (decide (c' ∈ done)) as [Hd|Hd].
        -- rewrite decide_True by (apply list_elem_of_further; assumption). reflexivity.
        -- rewrite decide_False; [reflexivity|].
           rewrite elem_of_cons. intros [?|?]; [lia|contradiction].
    + intros idx Hidx Hout. rewrite get_insert by lia.
      destruct (Z.eqb_spec idx (t * N + c)); [lia|]. apply Hframe; assumption.
  - split; [reflexivity|]. split; [|reflexivity].
    intros c Hc. rewrite decide_False by apply not_elem_of_nil. reflexivity.
  - exists hit. split; [exact Hrun|]. split; [assumption|]. split; [|assumption].
    intros c Hc. rewrite (Hrow c Hc). rewrite decide_True by (apply Hdone; assumption).
    reflexivity.
Qed.

Lemma mark_grid hit0 :
  0 <= numBlocks -> Z.of_nat (length hit0) = numBlocks * N ->
  exists hit,
    launch_blocks numBlocks 1024 (kernelMarkBlocks cu 1024 blockSize N) hit0 = Ok hit
    /\ length hit = length hit0
    /\ forall t c, 0 <= t < numBlocks -> 0 <= c < N ->
         get hit (t * N + c) = circle_flag cu blockSize t c.
Proof.
  intros Hnb Hl. unfold launch_blocks.
  destruct (foldM_seqZ_inv
    (fun b h => length h = length hit0 /\
       forall t c, 0 <= t < b -> 0 <= c < N ->
         get h (t * N + c) = circle_flag cu blockSize t c)
    (fun b => foldM (kernelMarkBlocks cu 1024 blockSize N b) (seqZ 0 1024))
    numBlocks hit0) as (hit & Hrun & Hl' & Hrows).
  - split; [reflexivity|]. intros; lia.
  - intros b h Hb (Hlh & Hrows).
    destruct (mark_block h b Hb ltac:(lia)) as (h' & Hrun & Hl' & Hrow & Hframe).
    exists h'. split; [exact Hrun|]. split; [congruence|].
    intros t c Ht Hc. destruct (Z.eq_dec t b) as [->|Hne].
    + apply Hrow. assumption.
    + destruct (row_in_grid N numBlocks t HN ltac:(lia)).
      destruct (row_in_grid N numBlocks b HN Hb).
      assert ((t + 1) * N <= b * N) by (apply Z.mul_le_mono_nonneg_r; lia).
      rewrite Hframe by lia. apply Hrows; lia.
  - exists hit. rewrite Z.max_r in Hrows by lia. auto.
Qed.

End Mark.


Section Paint.

Context {F : Type} `{FloatOps F}.
Variable lookupColor : F -> float3 F.
Variable cu : GlobalConstants F.

Lemma paint_off pixelCenter e c : covers cu pixelCenter c = false -> paint lookupColor cu pixelCenter e c = e.
Proof.
  unfold covers, paint. destruct (circle_at cu c) as [[p rad]|]; [|reflexivity].
  destruct (fgt (dist2 p pixelCenter) (fmul rad rad)); [reflexivity|discriminate].
Qed.

Lemma paint_all_off pixelCenter cs e :
  existsb (covers cu pixelCenter) cs = false -> fold_left (paint lookupColor cu pixelCenter) cs e = e.
Proof.
  revert e. induction cs as [|c cs IH]; intros e Hex; [reflexivity|].
  simpl in *. apply orb_false_iff in Hex as [Hc Hcs].
  rewrite paint_off by assumption. auto.
Qed.

Variable N : Z.
Hypothesis HNdef : numberOfCircles cu = N.
Hypothesis H3N : 0 <= 3 * N < 2 ^ 31.
Hypothesis Hpos : Z.of_nat (length (position cu)) = 3 * N.
Hypothesis Hrad : Z.of_nat (length (radius cu)) = N.
Hypothesis Hcol : Z.of_nat (length (color cu)) = 3 * N.

Lemma load3_lookup (d : list F) i a b c :
  0 <= i -> d !! Z.to_nat i = Some a -> d !! Z.to_nat (i + 1) = Some b ->
  d !! Z.to_nat (i + 2) = Some c -> load3 d i = Ok (Float3 a b c).
Proof.
  intros Hi Ha Hb Hc. unfold load3.
  rewrite (load_lookup d i a), (load_lookup d (i + 1) b), (load_lookup d (i + 2) c)
    by (assumption || lia).
  reflexivity.
Qed.

Lemma circle_at_some c :
  0 <= c < N -> exists p rad,
    circle_at cu c = Some (p, rad)
    /\ load3 (position cu) (3 * c) = Ok p /\ load (radius cu) c = Ok rad.
Proof.
  intros Hc. unfold circle_at.
  destruct (lookup_lt_is_Some_2 (position cu) (Z.to_nat (3 * c))) as [x Hx]; [lia|].
  destruct (lookup_lt_is_Some_2 (position cu) (Z.to_nat (3 * c + 1))) as [y Hy]; [lia|].
  destruct (lookup_lt_is_Some_2 (position cu) (Z.to_nat (3 * c + 2))) as [z Hz]; [lia|].
  destruct (lookup_lt_is_Some_2 (radius cu) (Z.to_nat c)) as [r Hr]; [lia|].
  rewrite Hx, Hy, Hz, Hr. exists (Float3 x y z), r. split; [reflexivity|]. split.
  - apply load3_lookup; (assumption || lia).
  - apply load_lookup; (assumption || lia).
Qed.

Lemma composite_over rgb alpha e : composite rgb alpha e = over rgb alpha e.
Proof. reflexivity. Qed.

(** The shading of a circle that covers the pixel is the one [paint] uses. *)
Lemma shade_paint pixelCenter c p rad e :
  0 <= c < N -> circle_at cu c = Some (p, rad) ->
  fgt (dist2 p pixelCenter) (fmul rad rad) = false ->
  exists sh, shade lookupColor cu p (dist2 p pixelCenter) rad c = Ok sh
    /\ composite sh.1 sh.2 e = paint lookupColor cu pixelCenter e c.
Proof.
  intros Hc Hat Hin. unfold shade, paint. rewrite Hat, Hin.
  destruct (is_snow (sceneName cu)).
  - eexists. split; [reflexivity|]. reflexivity.
  - assert (E3 : mul 3 c = 3 * c) by (apply wrap_small; unfold is_int; lia).
    rewrite E3.
    destruct (lookup_lt_is_Some_2 (color cu) (Z.to_nat (3 * c))) as [r Hr]; [lia|].
    destruct (lookup_lt_is_Some_2 (color cu) (Z.to_nat (3 * c + 1))) as [g Hg]; [lia|].
    destruct (lookup_lt_is_Some_2 (color cu) (Z.to_nat (3 * c + 2))) as [b Hb]; [lia|].
    rewrite (load3_lookup (color cu) (3 * c) r g b) by (assumption || lia).
    rewrite Hr, Hg, Hb. eexists. split; [reflexivity|]. reflexivity.
Qed.

Variables (lst : buf) (blk : Z) (pixelCenter : F * F).
Hypothesis Hblk : 0 <= blk * N.
Hypothesis Hlst : blk * N + N <= Z.of_nat (length lst) < 2 ^ 31.

Lemma render_loop_fold rest : forall fuel done e newColor,
  live_row N lst blk (done ++ rest) -> (length rest < fuel)%nat ->
  render_loop lookupColor cu fuel lst blk N pixelCenter (Z.of_nat (length done)) e newColor
  = Ok (fold_left (paint lookupColor cu pixelCenter) rest e,
        if existsb (covers cu pixelCenter) rest
        then Some (fold_left (paint lookupColor cu pixelCenter) rest e) else newColor).
Proof.
  induction rest as [|c rest IH]; intros fuel done e newColor (Hlen & Hlive & Hend) Hfuel.
  - destruct fuel as [|fuel]; [simpl in Hfuel; lia|]. cbn [render_loop fold_left existsb].
    rewrite app_nil_r in Hlen, Hend.
    destruct (Z.ltb_spec (Z.of_nat (length done)) N) as [Hlt|Hge]; [|reflexivity].
    assert (Emul : mul blk N = blk * N) by (apply wrap_small; unfold is_int; lia).
    assert (Eidx : add (blk * N) (Z.of_nat (length done)) = blk * N + Z.of_nat (length done))
      by (apply wrap_small; unfold is_int; lia).
    rewrite Emul, Eidx, load_ok by lia. cbn [mbind outcome_bind].
    specialize (Hend Hlt).
    destruct (Z.ltb_spec (get lst (blk * N + Z.of_nat (length done))) 0); [reflexivity|lia].
  - destruct fuel as [|fuel]; [simpl in Hfuel; lia|]. cbn [render_loop].
    rewrite length_app in Hlen. simpl in Hlen, Hfuel.
    destruct (Hlive (length done) c) as [Hget Hc].
    { rewrite lookup_app_r by lia. rewrite Nat.sub_diag. reflexivity. }
    destruct (Z.ltb_spec (Z.of_nat (length done)) N) as [Hlt|Hge]; [|lia].
    assert (Emul : mul blk N = blk * N) by (apply wrap_small; unfold is_int; lia).
    assert (Eidx : add (blk * N) (Z.of_nat (length done)) = blk * N + Z.of_nat (length done))
      by (apply wrap_small; unfold is_int; lia).
    assert (Enext : add (Z.of_nat (length done)) 1 = Z.of_nat (length (done ++ [c]))).
    { rewrite length_app. simpl. unfold add. rewrite wrap_small by (unfold is_int; lia). lia. }
    rewrite Emul, Eidx, load_ok by lia. cbn [mbind outcome_bind]. rewrite Hget.
    destruct (Z.ltb_spec c 0); [lia|].
    assert (E3 : mul 3 c = 3 * c) by (apply wrap_small; unfold is_int; lia).
    rewrite E3.
    destruct (circle_at_some c Hc) as (p & rad & Hat & Hp & Hr).
    rewrite Hp. cbn [mbind outcome_bind]. rewrite Hr. cbn [mbind outcome_bind].
    change (fadd (fmul (fsub (x3 p) pixelCenter.1) (fsub (x3 p) pixelCenter.1))
                 (fmul (fsub (y3 p) pixelCenter.2) (fsub (y3 p) pixelCenter.2)))
      with (dist2 p pixelCenter).
    assert (Hrow' : live_row N lst blk ((done ++ [c]) ++ rest)).
    { rewrite <- app_assoc. simpl. split; [rewrite length_app; simpl; lia|].
      split; assumption. }
    cbn [fold_left existsb].
    destruct (fgt (dist2 p pixelCenter) (fmul rad rad)) eqn:Hout.
    + rewrite Enext, (IH fuel (done ++ [c]) e newColor Hrow') by lia.
      assert (Hcov : covers cu pixelCenter c = false) by (unfold covers; rewrite Hat, Hout; reflexivity).
      rewrite Hcov, paint_off by assumption. reflexivity.
    + destruct (shade_paint pixelCenter c p rad e Hc Hat Hout) as (sh & Hsh & Hcomp).
      rewrite Hsh. cbn [mbind outcome_bind]. rewrite Hcomp.
      rewrite Enext, (IH fuel (done ++ [c]) _ _ Hrow') by lia.
      assert (Hcov : covers cu pixelCenter c = true) by (unfold covers; rewrite Hat, Hout; reflexivity).
      rewrite Hcov. cbn [orb].
      destruct (existsb (covers cu pixelCenter) rest) eqn:Hex; [reflexivity|].
      rewrite paint_all_off by assumption. reflexivity.
Qed.

End Paint.

Lemma load4_pixel {F : Type} (W : Z) (image : list F) x y v :
  0 <= 4 * (y * W + x) -> pixel W image x y = Some v ->
  load4 image (4 * (y * W + x)) = Ok v.
Proof.
  intros Hoff. unfold pixel, load4. set (off := 4 * (y * W + x)) in *.
  destruct (image !! Z.to_nat off) as [r|] eqn:Hr; [|discriminate].
  destruct (image !! S (Z.to_nat off)) as [g|] eqn:Hg; [|discriminate].
  destruct (image !! S (S (Z.to_nat off))) as [b|] eqn:Hb; [|discriminate].
  destruct (image !! S (S (S (Z.to_nat off)))) as [a|] eqn:Ha; [|discriminate].
  intros [= <-].
  rewrite (load_lookup image off r), (load_lookup image (off + 1) g),
    (load_lookup image (off + 2) b), (load_lookup image (off + 3) a);
    try lia; try assumption.
  - reflexivity.
  - replace (Z.to_nat (off + 3)) with (S (S (S (Z.to_nat off)))) by lia. assumption.
  - replace (Z.to_nat (off + 2)) with (S (S (Z.to_nat off))) by lia. assumption.
  - replace (Z.to_nat (off + 1)) with (S (Z.to_nat off)) by lia. assumption.
Qed.

Lemma store4_pixel {F : Type} (W : Z) (image : list F) x y v :
  0 <= 4 * (y * W + x) -> 4 * (y * W + x) + 3 < Z.of_nat (length image) ->
  store4 image (4 * (y * W + x)) v = Ok (set_pixel W image x y v).
Proof.
  intros H0 H1. unfold store4, set_pixel. set (off := 4 * (y * W + x)) in *.
  rewrite (store_ok image off) by lia. cbn [mbind outcome_bind].
  rewrite (store_ok _ (off + 1)) by (rewrite length_insert; lia). cbn [mbind outcome_bind].
  rewrite (store_ok _ (off + 2)) by (rewrite !length_insert; lia). cbn [mbind outcome_bind].
  rewrite (store_ok _ (off + 3)) by (rewrite !length_insert; lia).
  replace (Z.to_nat (off + 3)) with (S (S (S (Z.to_nat off)))) by lia.
  replace (Z.to_nat (off + 2)) with (S (S (Z.to_nat off))) by lia.
  replace (Z.to_nat (off + 1)) with (S (Z.to_nat off)) by lia.
  reflexivity.
Qed.

Section RenderThread.

Context {F : Type} `{FloatOps F}.
Variable lookupColor : F -> float3 F.
Variables (cu : GlobalConstants F) (lst : buf) (image : list F).
Variables (blockSize x y : Z) (cs : list Z).

Let N := numberOfCircles cu.
Let W := imageWidth cu.
Let blk := pixel_block cu blockSize x y.
Let pc := pixel_center cu x y.

Hypothesis H3N : 0 <= 3 * N < 2 ^ 31.
Hypothesis Hpos : Z.of_nat (length (position cu)) = 3 * N.
Hypothesis Hrad : Z.of_nat (length (radius cu)) = N.
Hypothesis Hcol : Z.of_nat (length (color cu)) = 3 * N.
Hypothesis Hx : 0 <= x < W.
Hypothesis Hy : 0 <= y < imageHeight cu.
Hypothesis Himg : Z.of_nat (length image) = 4 * (W * imageHeight cu).
Hypothesis Himg31 : 4 * (W * imageHeight cu) < 2 ^ 31.
Hypothesis Hblk : 0 <= blk * N.
Hypothesis Hlst : blk * N + N <= Z.of_nat (length lst) < 2 ^ 31.
Hypothesis Hrow : live_row N lst blk cs.

Lemma pixel_offset :
  mul 4 (add (mul y W) x) = 4 * (y * W + x)
  /\ 0 <= 4 * (y * W + x) /\ 4 * (y * W + x) + 3 < Z.of_nat (length image).
Proof.
  assert (0 <= y * W) by (apply Z.mul_nonneg_nonneg; lia).
  assert (y * W + W <= imageHeight cu * W).
  { replace (y * W + W) with ((y + 1) * W) by lia. apply Z.mul_le_mono_nonneg_r; lia. }
  unfold mul, add.
  rewrite (wrap_small (y * W)) by (unfold is_int; lia).
  rewrite (wrap_small (y * W + x)) by (unfold is_int; lia).
  rewrite wrap_small by (unfold is_int; lia). lia.
Qed.

Lemma render_thread old :
  pixel W image x y = Some old ->
  kernelRenderPixelsLocal lookupColor cu lst blockSize (x, y) image
  = if existsb (covers cu pc) cs
    then Ok (set_pixel W image x y (fold_left (paint lookupColor cu pc) cs old))
    else Err Uninitialized.
Proof.
  intros Hold. destruct pixel_offset as (Eoff & Hoff0 & Hoff1).
  unfold kernelRenderPixelsLocal. fold W N.
  destruct (Z.geb_spec x W); [lia|]. destruct (Z.geb_spec y (imageHeight cu)); [lia|].
  cbn [orb]. rewrite Eoff.
  rewrite (load4_pixel W image x y old) by assumption. cbn [mbind outcome_bind].
  fold blk pc.
  assert (Hloop :
    render_loop lookupColor cu (S (Z.to_nat N)) lst blk N pc (Z.of_nat (length (@nil Z))) old None
    = Ok (fold_left (paint lookupColor cu pc) cs old,
          if existsb (covers cu pc) cs
          then Some (fold_left (paint lookupColor cu pc) cs old) else None)).
  { eapply render_loop_fold; try eassumption; try exact Hrow. destruct Hrow; lia. }
  change (Z.of_nat (length (@nil Z))) with 0 in Hloop. rewrite Hloop.
  cbn [mbind outcome_bind snd].
  destruct (existsb (covers cu pc) cs); [|reflexivity].
  apply store4_pixel; assumption.
Qed.

End RenderThread.

Lemma row_length N t (l : buf) :
  0 <= t * N -> 0 <= N -> t * N + N <= Z.of_nat (length l) ->
  length (row N t l) = Z.to_nat N.
Proof.
  intros H0 HN Hl. unfold row. rewrite length_take, length_drop. lia.
Qed.

Lemma row_lookup N t (l : buf) (s : nat) :
  0 <= t * N -> 0 <= N -> t * N + N <= Z.of_nat (length l) -> Z.of_nat s < N ->
  row N t l !! s = Some (get l (t * N + Z.of_nat s)).
Proof.
  intros H0 HN Hl Hs. unfold row. rewrite lookup_take_lt by lia. rewrite lookup_drop.
  replace (Z.to_nat (t * N) + s)%nat with (Z.to_nat (t * N + Z.of_nat s)) by lia.
  unfold get.
  destruct (lookup_lt_is_Some_2 l (Z.to_nat (t * N + Z.of_nat s))) as [v ->]; [lia|].
  reflexivity.
Qed.

Lemma row_built_layout (hit lst0 lst : buf) (N numBlocks t : Z) :
  1 <= N -> 0 <= t < numBlocks ->
  Z.of_nat (length lst0) = numBlocks * N -> length lst = length lst0 ->
  row_built hit lst0 N t lst ->
  row N t lst = built_row hit lst0 N t.
Proof.
  intros HN Ht Hl0 Hl (Hlive & Hsent & Hstale).
  destruct (row_in_grid N numBlocks t HN Ht) as [Hr0 Hr1].
  pose proof (hits_length_le hit N t N ltac:(lia)) as Hcount.
  unfold built_row. set (hits := hits_before hit N t N) in *.
  apply list_eq. intros s.
  destruct (Z_lt_dec (Z.of_nat s) N) as [HsN|HsN].
  - rewrite row_lookup by lia.
    destruct (Nat.lt_ge_cases s (length hits)) as [Hs|Hs].
    + rewrite lookup_app_l by assumption.
      destruct (lookup_lt_is_Some_2 hits s Hs) as [c Hc]. rewrite Hc.
      f_equal. apply Hlive. assumption.
    + rewrite lookup_app_r by assumption.
      rewrite decide_True by lia.
      destruct (s - length hits)%nat as [|k] eqn:Hk.
      * assert (s = length hits) by lia. subst s. simpl. f_equal. apply Hsent. lia.
      * simpl. rewrite lookup_drop.
        replace (S (length hits) + k)%nat with s by lia.
        rewrite row_lookup by lia. f_equal. apply Hstale. lia.
  - rewrite lookup_ge_None_2 by (rewrite row_length; lia).
    symmetry. apply lookup_ge_None_2. rewrite length_app.
    destruct (decide (Z.of_nat (length hits) < N)).
    + simpl. rewrite length_drop, row_length by lia. lia.
    + simpl. lia.
Qed.

(** * The claims about the scan file *)

(** C1, as stated, fails on sums that do not fit an [int]: for the
    non-negative array [2147483647; 1; 1] (in a buffer of [nextPow2 3 = 4]
    cells) the scan succeeds and leaves [-2147483648] at index 2, while the
    sum of the elements before it is [2147483648]. *)
Lemma exclusive_scan_sum_overflows :
  let d := [2147483647; 1; 1; 0] in
  Forall (fun x => 0 <= x) d /\ Forall is_int d /\
  Z.of_nat (length d) = nextPow2 3 /\
  exists out, exclusive_scan d 3 = Ok out /\
    out !! 2%nat = Some (-2147483648) /\
    sumZ (take 2 d) = 2147483648 /\
    out !! 2%nat <> Some (sumZ (take 2 d)).
Proof.
  cbv zeta. split; [repeat constructor; lia|].
  split; [repeat constructor; unfold is_int; lia|].
  split; [reflexivity|].
  exists [0; 2147483647; -2147483648; -2147483647].
  split; [vm_compute; reflexivity|].
  split; [reflexivity|]. split; [reflexivity|]. discriminate.
Qed.

(** C1, amended: for [1 <= n <= 2^22] and a buffer of [nextPow2 n] [int]s,
    [exclusive_scan] returns, and for every [i < n] cell [i] of the result
    holds the sum of the cells [0..i-1] of the input reduced to an [int]
    (cell 0 holds 0); this is the sum itself when the cells before [i] are
    non-negative and their sum is below [2^31]. *)
Theorem exclusive_scan_prefix_sums (d : buf) (n : Z) :
  1 <= n <= 2 ^ 22 ->
  Z.of_nat (length d) = nextPow2 n ->
  Forall is_int d ->
  exists out, exclusive_scan d n = Ok out /\ length out = length d /\
    forall i : nat, Z.of_nat i < n ->
      out !! i = Some (wrap (sumZ (take i d))) /\
      (Forall (fun x => 0 <= x) (take i d) -> sumZ (take i d) < 2 ^ 31 ->
       out !! i = Some (sumZ (take i d))).
Proof.
  intros Hn Hlen Hint.
  destruct (exclusive_scan_sums d n Hn Hlen Hint) as (out & Hrun & Hl & Hout).
  exists out. split; [assumption|]. split; [assumption|].
  intros i Hi. split; [apply Hout; assumption|].
  intros Hpos Hlt. rewrite Hout by assumption.
  pose proof (sumZ_bounds _ Hpos).
  rewrite wrap_small by (unfold is_int; lia). reflexivity.
Qed.

Lemma exclusive_scan_prefix_sums_witness :
  exists out, exclusive_scan [3; 1; 7; 0; 4; 100; 200; 300] 5 = Ok out /\
    length out = 8%nat /\
    forall i : nat, Z.of_nat i < 5 ->
      out !! i = Some (wrap (sumZ (take i [3; 1; 7; 0; 4; 100; 200; 300]))) /\
      (Forall (fun x => 0 <= x) (take i [3; 1; 7; 0; 4; 100; 200; 300]) ->
       sumZ (take i [3; 1; 7; 0; 4; 100; 200; 300]) < 2 ^ 31 ->
       out !! i = Some (sumZ (take i [3; 1; 7; 0; 4; 100; 200; 300]))).
Proof.
  apply (exclusive_scan_prefix_sums [3; 1; 7; 0; 4; 100; 200; 300] 5).
  - lia.
  - reflexivity.
  - repeat constructor; unfold is_int; lia.
Defined.

(** C9: two runs of [exclusive_scan] on buffers of [nextPow2 n] [int]s that
    agree on the first [n] cells end alike: both return, with the same
    cells [0..n-1], or both stop on the same fault (an empty buffer, or
    more than [2^22] elements).  The cells from [n] on never reach the
    first [n] results. *)
Theorem exclusive_scan_padding_independent (d1 d2 : buf) (n : Z) :
  is_int n -> Forall is_int d1 -> Forall is_int d2 ->
  Z.of_nat (length d1) = nextPow2 n ->
  Z.of_nat (length d2) = nextPow2 n ->
  agree_upto n d1 d2 ->
  same_result n (exclusive_scan d1 n) (exclusive_scan d2 n).
Proof.
  intros Hn Hi1 Hi2 Hl1 Hl2 Hag. unfold is_int in Hn.
  destruct (Z_le_gt_dec n 0) as [Hneg|Hpos].
  { (* nothing to scan: the buffers are empty *)
    destruct (Z.eq_dec n (- 2 ^ 31)) as [->|Hmin].
    - rewrite nextPow2_int_min in Hl1. lia.
    - rewrite nextPow2_nonpos in Hl1, Hl2 by lia.
      destruct d1; [|simpl in Hl1; lia]. destruct d2; [|simpl in Hl2; lia].
      apply same_result_refl. }
  destruct (Z_le_gt_dec n (2 ^ 30)) as [Hle|Hbig].
  2:{ rewrite nextPow2_big in Hl1 by lia. lia. }
  destruct (Z_le_gt_dec n (2 ^ 22)) as [Hsmall|Hlarge].
  - destruct (exclusive_scan_sums d1 n ltac:(lia) Hl1 Hi1) as (o1 & -> & _ & Ho1).
    destruct (exclusive_scan_sums d2 n ltac:(lia) Hl2 Hi2) as (o2 & -> & _ & Ho2).
    intros i Hi. rewrite (Ho1 i Hi), (Ho2 i Hi).
    rewrite (agree_upto_take n d1 d2 i Hag Hi). reflexivity.
  - destruct (nextPow2_pos n ltac:(lia)) as (k & Hk & Hpow & Hle2).
    assert (23 <= k).
    { destruct (Z_le_gt_dec 23 k); [assumption|]. exfalso.
      pose proof (Pow2.le_mono k 22 ltac:(lia)). lia. }
    rewrite (exclusive_scan_overflow k ltac:(lia) d1 n), (exclusive_scan_overflow k ltac:(lia) d2 n)
      by congruence.
    reflexivity.
Qed.

Lemma exclusive_scan_padding_independent_witness :
  same_result 5 (exclusive_scan [3; 1; 7; 0; 4; 100; 200; 300] 5)
                (exclusive_scan [3; 1; 7; 0; 4; -5; 6; 77] 5).
Proof.
  apply (exclusive_scan_padding_independent
           [3; 1; 7; 0; 4; 100; 200; 300] [3; 1; 7; 0; 4; -5; 6; 77] 5).
  - unfold is_int; lia.
  - repeat constructor; unfold is_int; lia.
  - repeat constructor; unfold is_int; lia.
  - reflexivity.
  - reflexivity.
  - intros i Hi. do 5 (destruct i as [|i]; [reflexivity|]). lia.
Defined.

(** C5: on the array [1; 5; 2; 8; 2; 9; 1] of the claim (length 7, in a
    buffer of [nextPow2 7 = 8] cells, whatever the padding cell and the
    fresh device memory hold) [find_peaks] does not return the peaks: thread
    0 of [find_peak_kernel], which has no guard on [i], reads [data[-1]]. *)
Theorem find_peaks_example_out_of_bounds
    (junk_peaks junk_prefixes junk_scan : Z -> Z) (pad : Z) (device_output : buf) :
  find_peaks junk_peaks junk_prefixes junk_scan [1; 5; 2; 8; 2; 9; 1; pad] 7 device_output
  = Err OutOfBounds.
Proof. reflexivity. Qed.

(** C10: the mark kernel of [find_peaks] leaves its arrays.  Thread 0
    reads [data[-1]], whatever the input is; so the launch for the array
    [1; 5; 2; 8; 2; 9; 1] (one block of 512 threads over buffers of
    [nextPow2 7 = 8] cells) faults; and thread 8 of that launch, which no
    guard stops, reads [data[8]], beyond the input buffer. *)
Theorem find_peak_kernel_out_of_bounds :
  (forall (data peaks : buf) (length : Z),
     find_peak_kernel data length 0 peaks = Err OutOfBounds) /\
  (forall (pad : Z) (peaks : buf),
     launch1D 1 threadsPerBlock (find_peak_kernel [1; 5; 2; 8; 2; 9; 1; pad] 7) peaks
     = Err OutOfBounds) /\
  (forall (pad : Z) (peaks : buf),
     find_peak_kernel [1; 5; 2; 8; 2; 9; 1; pad] 7 8 peaks = Err OutOfBounds).
Proof.
  split; [|split].
  - intros data peaks length. reflexivity.
  - intros pad peaks. reflexivity.
  - intros pad peaks. reflexivity.
Qed.

(** * The claims about the renderer's tile lists *)

(** A row of the prefix matrix that starts at 0 and grows by the hit flags
    holds the exclusive hit counts. *)
Lemma prefix_row_steps (hit prefixes : buf) (N t : Z) :
  (forall c, 0 <= c < N -> get hit (t * N + c) = 0 \/ get hit (t * N + c) = 1) ->
  get prefixes (t * N) = 0 ->
  (forall c, 0 <= c < N - 1 ->
     get prefixes (t * N + (c + 1)) = get prefixes (t * N + c) + get hit (t * N + c)) ->
  prefix_row hit prefixes N t.
Proof.
  intros Hbit H0 Hstep c Hc.
  replace c with (Z.of_nat (Z.to_nat c)) by lia.
  assert (Hn : Z.of_nat (Z.to_nat c) < N) by lia. revert Hn.
  generalize (Z.to_nat c) as n. clear c Hc.
  induction n as [|n IH]; intros Hn.
  - rewrite Z.add_0_r, H0. reflexivity.
  - replace (Z.of_nat (S n)) with (Z.of_nat n + 1) by lia.
    rewrite Hstep, IH by lia. rewrite hits_before_succ, length_app by lia.
    destruct (Hbit (Z.of_nat n) ltac:(lia)) as [Hh|Hh]; rewrite Hh.
    + rewrite decide_False by lia. simpl. lia.
    + rewrite decide_True by reflexivity. simpl. lia.
Qed.

(** The number of hits of a tile, from the last column of the two
    matrices. *)
Lemma prefix_row_count (hit prefixes : buf) (N t : Z) :
  1 <= N ->
  (get hit (t * N + (N - 1)) = 0 \/ get hit (t * N + (N - 1)) = 1) ->
  prefix_row hit prefixes N t ->
  get prefixes (t * N + (N - 1)) + get hit (t * N + (N - 1))
  = Z.of_nat (length (hits_before hit N t N)).
Proof.
  intros HN Hbit Hrow. rewrite Hrow by lia.
  replace (hits_before hit N t N) with (hits_before hit N t (N - 1 + 1))
    by (f_equal; lia).
  rewrite hits_before_succ, length_app by lia.
  destruct Hbit as [Hh|Hh]; rewrite Hh.
  - rewrite decide_False by lia. simpl. lia.
  - rewrite decide_True by reflexivity. simpl. lia.
Qed.

(** The list-build launch on a hit matrix and its prefix matrix. *)
Lemma makeLists_run {F : Type} (cu : GlobalConstants F) (hit prefixes lst0 : buf)
    (numBlocks : Z) :
  let N := numberOfCircles cu in
  1 <= N -> 0 <= numBlocks -> numBlocks * N + 1024 < 2 ^ 31 ->
  Z.of_nat (length hit) = numBlocks * N ->
  Z.of_nat (length prefixes) = numBlocks * N ->
  Z.of_nat (length lst0) = numBlocks * N ->
  Forall (fun h => h = 0 \/ h = 1) hit ->
  (forall t, 0 <= t < numBlocks ->
     get prefixes (t * N) = 0 /\
     forall c, 0 <= c < N - 1 ->
       get prefixes (t * N + (c + 1)) = get prefixes (t * N + c) + get hit (t * N + c)) ->
  exists lst,
    launch_blocks numBlocks 1024 (kernelMakeLists cu 1024 hit prefixes) lst0 = Ok lst /\
    length lst = length lst0 /\
    forall t, 0 <= t < numBlocks ->
      row_built hit lst0 N t lst /\
      get prefixes (t * N + (N - 1)) + get hit (t * N + (N - 1))
      = Z.of_nat (length (hits_before hit N t N)).
Proof.
  intros N HN Hnb Hsize Hlh Hlp Hll Hbit Hpre.
  assert (Hb : forall i, 0 <= i < numBlocks * N -> get hit i = 0 \/ get hit i = 1).
  { intros i Hi. apply (Forall_get (fun h => h = 0 \/ h = 1)); [assumption|lia]. }
  assert (Hrowp : forall t, 0 <= t < numBlocks -> prefix_row hit prefixes N t).
  { intros t Ht. destruct (row_in_grid N numBlocks t HN Ht) as [Hr0 Hr1].
    destruct (Hpre t Ht) as [H0 Hstep].
    apply prefix_row_steps; [|assumption|assumption].
    intros c Hc. apply Hb. lia. }
  destruct (makeLists_grid cu hit prefixes lst0 numBlocks HN Hsize Hlh Hlp Hll Hb Hrowp Hnb)
    as (lst & Hrun & Hlen & Hrows).
  exists lst. split; [exact Hrun|]. split; [exact Hlen|].
  intros t Ht. split; [apply Hrows; assumption|].
  destruct (row_in_grid N numBlocks t HN Ht) as [Hr0 Hr1].
  apply prefix_row_count; [assumption| |apply Hrowp; assumption].
  apply Hb. lia.
Qed.

(** C2, as stated, fails in two ways.  When both circles of a two-circle
    scene hit the tile, the row is full and no sentinel is written.  And a
    sentinel of an earlier frame stays: after a frame in which circles 0
    and 1 hit the tile, a frame in which none does leaves the sentinel at
    slots 0 and 2 of the row. *)
Lemma makeLists_sentinel_not_once :
  launch_blocks 1 1024 (kernelMakeLists (circles_only 2) 1024 [1; 1] [0; 1]) [7; 7]
  = Ok [0; 1] /\
  launch_blocks 1 1024 (kernelMakeLists (circles_only 3) 1024 [1; 1; 0] [0; 1; 2]) [7; 7; 7]
  = Ok [0; 1; -1] /\
  launch_blocks 1 1024 (kernelMakeLists (circles_only 3) 1024 [0; 0; 0] [0; 0; 0]) [0; 1; -1]
  = Ok [-1; 1; -1].
Proof. split; [|split]; vm_compute; reflexivity. Qed.

(** C2, amended: for every tile [t], with [count] the tile's number of hits
    [prefix[t][N-1] + hit[t][N-1]], the list-build stage leaves in the first
    [count] slots of row [t] exactly the circles [c] with [hit[t][c] = 1],
    in strictly ascending order; when [count < N] slot [count] holds the
    sentinel -1, the first negative entry of the row; when [count = N] the
    row is full of circle indices and holds no sentinel; and the slots
    after slot [count] hold what they held in the buffer [lst0] that the
    stage started from, whose length is kept. *)
Theorem kernelMakeLists_live_prefix {F : Type} (cu : GlobalConstants F)
    (hit prefixes lst0 : buf) (numBlocks : Z) :
  let N := numberOfCircles cu in
  1 <= N -> 0 <= numBlocks -> numBlocks * N + 1024 < 2 ^ 31 ->
  Z.of_nat (length hit) = numBlocks * N ->
  Z.of_nat (length prefixes) = numBlocks * N ->
  Z.of_nat (length lst0) = numBlocks * N ->
  Forall (fun h => h = 0 \/ h = 1) hit ->
  (forall t, 0 <= t < numBlocks ->
     get prefixes (t * N) = 0 /\
     forall c, 0 <= c < N - 1 ->
       get prefixes (t * N + (c + 1)) = get prefixes (t * N + c) + get hit (t * N + c)) ->
  exists lst,
    launch_blocks numBlocks 1024 (kernelMakeLists cu 1024 hit prefixes) lst0 = Ok lst /\
    length lst = length lst0 /\
    forall t, 0 <= t < numBlocks ->
      let count := get prefixes (t * N + (N - 1)) + get hit (t * N + (N - 1)) in
      0 <= count <= N /\
      (forall s, 0 <= s < count ->
         0 <= get lst (t * N + s) < N /\ get hit (t * N + get lst (t * N + s)) = 1) /\
      (forall c, 0 <= c < N -> get hit (t * N + c) = 1 ->
         exists s, 0 <= s < count /\ get lst (t * N + s) = c) /\
      (forall s1 s2, 0 <= s1 < s2 -> s2 < count ->
         get lst (t * N + s1) < get lst (t * N + s2)) /\
      (count < N -> get lst (t * N + count) = -1) /\
      (count = N -> forall s, 0 <= s < N -> get lst (t * N + s) <> -1) /\
      (forall s, count < s < N -> get lst (t * N + s) = get lst0 (t * N + s)).
Proof.
  intros N HN Hnb Hsize Hlh Hlp Hll Hbit Hpre.
  destruct (makeLists_run cu hit prefixes lst0 numBlocks HN Hnb Hsize Hlh Hlp Hll Hbit Hpre)
    as (lst & Hrun & Hlen & Hrows).
  exists lst. split; [exact Hrun|]. split; [exact Hlen|]. intros t Ht.
  destruct (Hrows t Ht) as [(Hlive & Hsent & Hkeep) Hcount]. fold N in Hcount.
  cbv zeta. rewrite Hcount. set (hits := hits_before hit N t N) in *.
  assert (Hslot : forall s, 0 <= s < Z.of_nat (length hits) ->
            hits !! Z.to_nat s = Some (get lst (t * N + s))).
  { intros s Hs. destruct (lookup_lt_is_Some_2 hits (Z.to_nat s)) as [c Hc]; [lia|].
    rewrite Hc. f_equal. symmetry.
    replace s with (Z.of_nat (Z.to_nat s)) at 1 by lia. apply Hlive. exact Hc. }
  assert (Hin : forall s, 0 <= s < Z.of_nat (length hits) ->
            0 <= get lst (t * N + s) < N /\ get hit (t * N + get lst (t * N + s)) = 1).
  { intros s Hs. apply hits_elem. eapply list_elem_of_lookup_2. apply Hslot. exact Hs. }
  split; [|split; [|split; [|split; [|split; [|split]]]]].
  - pose proof (hits_length_le hit N t N ltac:(lia)). fold hits in H. lia.
  - exact Hin.
  - intros c Hc Hh. pose proof (hits_lookup hit N t c Hc Hh) as Hl. fold hits in Hl.
    exists (Z.of_nat (length (hits_before hit N t c))).
    split; [pose proof (lookup_lt_Some _ _ _ Hl); lia|]. apply Hlive. exact Hl.
  - intros s1 s2 H12 H2.
    apply (hits_ascending hit N t N (Z.to_nat s1) (Z.to_nat s2)); [lia| |];
      apply Hslot; lia.
  - exact Hsent.
  - intros Hfull s Hs. destruct (Hin s ltac:(lia)) as [Hr _]. lia.
  - exact Hkeep.
Qed.

Lemma kernelMakeLists_live_prefix_witness :
  exists lst,
    launch_blocks 2 1024
      (kernelMakeLists (circles_only 3) 1024 [1; 0; 1; 0; 0; 0] [0; 1; 1; 0; 0; 0])
      [7; 8; 9; 7; 8; 9] = Ok lst /\
    length lst = 6%nat /\
    forall t, 0 <= t < 2 ->
      let count := get [0; 1; 1; 0; 0; 0] (t * 3 + (3 - 1))
                   + get [1; 0; 1; 0; 0; 0] (t * 3 + (3 - 1)) in
      0 <= count <= 3 /\
      (forall s, 0 <= s < count ->
         0 <= get lst (t * 3 + s) < 3 /\
         get [1; 0; 1; 0; 0; 0] (t * 3 + get lst (t * 3 + s)) = 1) /\
      (forall c, 0 <= c < 3 -> get [1; 0; 1; 0; 0; 0] (t * 3 + c) = 1 ->
         exists s, 0 <= s < count /\ get lst (t * 3 + s) = c) /\
      (forall s1 s2, 0 <= s1 < s2 -> s2 < count ->
         get lst (t * 3 + s1) < get lst (t * 3 + s2)) /\
      (count < 3 -> get lst (t * 3 + count) = -1) /\
      (count = 3 -> forall s, 0 <= s < 3 -> get lst (t * 3 + s) <> -1) /\
      (forall s, count < s < 3 ->
         get lst (t * 3 + s) = get [7; 8; 9; 7; 8; 9] (t * 3 + s)).
Proof.
  apply (kernelMakeLists_live_prefix (circles_only 3)
           [1; 0; 1; 0; 0; 0] [0; 1; 1; 0; 0; 0] [7; 8; 9; 7; 8; 9] 2).
  - simpl; lia.
  - lia.
  - simpl; lia.
  - reflexivity.
  - reflexivity.
  - reflexivity.
  - repeat constructor; lia.
  - intros t Ht. assert (Et : t = 0 \/ t = 1) by lia.
    destruct Et as [-> | ->]; (split; [reflexivity|]); intros c Hc;
      assert (Ec : c = 0 \/ c = 1) by (simpl in Hc; lia);
      destruct Ec as [-> | ->]; reflexivity.
Defined.

(** C8, as stated, fails: the slots after the sentinel are not written.
    With three circles of which only circle 0 hits the tile, a row that
    held [7; 7; 7] ends as [0; -1; 7]. *)
Lemma makeLists_trailing_slot_kept :
  launch_blocks 1 1024 (kernelMakeLists (circles_only 3) 1024 [1; 0; 0] [0; 1; 1]) [7; 7; 7]
  = Ok [0; -1; 7].
Proof. vm_compute. reflexivity. Qed.

(** C8, amended: after the list-build stage every row of the list buffer
    holds the circles that hit the tile, in increasing order; when they are
    fewer than [N] the sentinel -1 follows them, and the slots after the
    sentinel hold what they held before the stage ([built_row]). *)
Theorem kernelMakeLists_row_layout {F : Type} (cu : GlobalConstants F)
    (hit prefixes lst0 : buf) (numBlocks : Z) :
  let N := numberOfCircles cu in
  1 <= N -> 0 <= numBlocks -> numBlocks * N + 1024 < 2 ^ 31 ->
  Z.of_nat (length hit) = numBlocks * N ->
  Z.of_nat (length prefixes) = numBlocks * N ->
  Z.of_nat (length lst0) = numBlocks * N ->
  Forall (fun h => h = 0 \/ h = 1) hit ->
  (forall t, 0 <= t < numBlocks ->
     get prefixes (t * N) = 0 /\
     forall c, 0 <= c < N - 1 ->
       get prefixes (t * N + (c + 1)) = get prefixes (t * N + c) + get hit (t * N + c)) ->
  exists lst,
    launch_blocks numBlocks 1024 (kernelMakeLists cu 1024 hit prefixes) lst0 = Ok lst /\
    length lst = length lst0 /\
    forall t, 0 <= t < numBlocks -> row N t lst = built_row hit lst0 N t.
Proof.
  intros N HN Hnb Hsize Hlh Hlp Hll Hbit Hpre.
  destruct (makeLists_run cu hit prefixes lst0 numBlocks HN Hnb Hsize Hlh Hlp Hll Hbit Hpre)
    as (lst & Hrun & Hlen & Hrows).
  exists lst. split; [exact Hrun|]. split; [exact Hlen|]. intros t Ht.
  apply (row_built_layout hit lst0 lst N numBlocks t HN Ht Hll Hlen).
  apply Hrows. exact Ht.
Qed.

Lemma kernelMakeLists_row_layout_witness :
  exists lst,
    launch_blocks 2 1024
      (kernelMakeLists (circles_only 3) 1024 [1; 0; 1; 0; 0; 0] [0; 1; 1; 0; 0; 0])
      [7; 8; 9; 7; 8; 9] = Ok lst /\
    length lst = 6%nat /\
    forall t, 0 <= t < 2 ->
      row 3 t lst = built_row [1; 0; 1; 0; 0; 0] [7; 8; 9; 7; 8; 9] 3 t.
Proof.
  apply (kernelMakeLists_row_layout (circles_only 3)
           [1; 0; 1; 0; 0; 0] [0; 1; 1; 0; 0; 0] [7; 8; 9; 7; 8; 9] 2).
  - simpl; lia.
  - lia.
  - simpl; lia.
  - reflexivity.
  - reflexivity.
  - reflexivity.
  - repeat constructor; lia.
  - intros t Ht. assert (Et : t = 0 \/ t = 1) by lia.
    destruct Et as [-> | ->]; (split; [reflexivity|]); intros c Hc;
      assert (Ec : c = 0 \/ c = 1) by (simpl in Hc; lia);
      destruct Ec as [-> | ->]; reflexivity.
Defined.

(** C4: the scan stage returns on every hit matrix of flags, and in the
    prefix matrix it leaves every row [t] starts at 0, grows by the hit flag
    from each column to the next (also across the chunks of
    [SCAN_BLOCK_DIM] columns, where the carry of the earlier chunks is
    added), and ends one flag short of the number of hits of the tile. *)
Theorem kernelScan2_prefix_matrix (shared : Z -> Z -> Z) (hit prefixes0 : buf)
    (N numBlocks : Z) :
  1 <= N -> 0 <= numBlocks -> numBlocks * N + 1024 < 2 ^ 31 ->
  Z.of_nat (length hit) = numBlocks * N ->
  Z.of_nat (length prefixes0) = numBlocks * N ->
  Forall (fun h => h = 0 \/ h = 1) hit ->
  exists prefixes,
    foldM (kernelScan2 shared hit N) (seqZ 0 numBlocks) prefixes0 = Ok prefixes /\
    forall t, 0 <= t < numBlocks ->
      get prefixes (t * N) = 0 /\
      (forall c, 0 <= c < N - 1 ->
         get prefixes (t * N + (c + 1)) = get prefixes (t * N + c) + get hit (t * N + c)) /\
      get prefixes (t * N + (N - 1)) + get hit (t * N + (N - 1))
      = Z.of_nat (length (hits_before hit N t N)).
Proof.
  intros HN Hnb Hsize Hlh Hlp Hbit.
  destruct (kernelScan2_grid shared hit prefixes0 N numBlocks HN Hsize Hlh Hlp Hbit Hnb)
    as (prefixes & Hrun & Hl & Hrows).
  exists prefixes. split; [exact Hrun|]. intros t Ht.
  assert (Hb : forall c, 0 <= c < N -> get hit (t * N + c) = 0 \/ get hit (t * N + c) = 1)
    by (intros; eapply hit_bit; eassumption).
  assert (Hsucc : forall c, 0 <= c < N ->
            hit_count hit N t (c + 1) = hit_count hit N t c + get hit (t * N + c))
    by (intros; eapply hit_count_succ; eassumption).
  unfold hit_count in Hsucc.
  split; [|split].
  - replace (t * N) with (t * N + 0) by lia. rewrite (Hrows t Ht 0) by lia. reflexivity.
  - intros c Hc. rewrite !(Hrows t Ht) by lia. apply Hsucc. lia.
  - rewrite (Hrows t Ht) by lia. rewrite <- Hsucc by lia. do 3 f_equal. lia.
Qed.

Lemma kernelScan2_prefix_matrix_witness :
  exists prefixes,
    foldM (kernelScan2 (fun _ _ => 7) [1; 0; 1; 0; 1; 1] 3) (seqZ 0 2) [9; 9; 9; 9; 9; 9]
    = Ok prefixes /\
    forall t, 0 <= t < 2 ->
      get prefixes (t * 3) = 0 /\
      (forall c, 0 <= c < 3 - 1 ->
         get prefixes (t * 3 + (c + 1))
         = get prefixes (t * 3 + c) + get [1; 0; 1; 0; 1; 1] (t * 3 + c)) /\
      get prefixes (t * 3 + (3 - 1)) + get [1; 0; 1; 0; 1; 1] (t * 3 + (3 - 1))
      = Z.of_nat (length (hits_before [1; 0; 1; 0; 1; 1] 3 t 3)).
Proof.
  apply (kernelScan2_prefix_matrix (fun _ _ => 7) [1; 0; 1; 0; 1; 1] [9; 9; 9; 9; 9; 9] 3 2).
  - lia.
  - lia.
  - lia.
  - reflexivity.
  - reflexivity.
  - repeat constructor; lia.
Defined.

(** ** Tiles *)

Section Tiles.

Context {F : Type}.
Variables (cu : GlobalConstants F) (blockSize : Z).
Let W := imageWidth cu.
Let Hh := imageHeight cu.
Let gxs := div (sub (add W blockSize) 1) blockSize.
Let gys := div (sub (add Hh blockSize) 1) blockSize.
Hypothesis Hbs : 1 <= blockSize.
Hypothesis HW : 0 <= W.
Hypothesis HH : 0 <= Hh.
Hypothesis HWb : W + blockSize < 2 ^ 31.
Hypothesis HHb : Hh + blockSize < 2 ^ 31.
Hypothesis Htiles : gxs * gys < 2 ^ 31.

Lemma tile_of_pixel x y :
  0 <= x < W -> 0 <= y < Hh ->
  pixel_block cu blockSize x y = (y / blockSize) * gxs + x / blockSize
  /\ 0 <= x / blockSize < gxs /\ 0 <= y / blockSize < gys.
Proof.
  intros Hx Hy.
  destruct (ceil_div_bounds W blockSize HW ltac:(lia) HWb) as [Hgx Bx].
  destruct (ceil_div_bounds Hh blockSize HH ltac:(lia) HHb) as [Hgy By].
  fold gxs in Hgx, Bx. fold gys in Hgy, By.
  assert (Qx : 0 <= x / blockSize < gxs).
  { split; [apply Z.div_pos; lia|]. apply Z.div_lt_upper_bound; lia. }
  assert (Qy : 0 <= y / blockSize < gys).
  { split; [apply Z.div_pos; lia|]. apply Z.div_lt_upper_bound; lia. }
  assert (Hrow : 0 <= (y / blockSize) * gxs) by (apply Z.mul_nonneg_nonneg; lia).
  assert (Hlast : (y / blockSize + 1) * gxs <= gys * gxs)
    by (apply Z.mul_le_mono_nonneg_r; lia).
  split; [|split; assumption].
  unfold pixel_block. fold W gxs. unfold div at 1 2.
  rewrite !Z.quot_div_nonneg by lia.
  assert (x / blockSize <= x) by (apply Z.div_le_upper_bound; nia).
  assert (y / blockSize <= y) by (apply Z.div_le_upper_bound; nia).
  rewrite (wrap_small (y / blockSize)), (wrap_small (x / blockSize)) by (unfold is_int; lia).
  unfold add, mul. rewrite (wrap_small (y / blockSize * gxs)) by (unfold is_int; lia).
  apply wrap_small. unfold is_int. lia.
Qed.

Lemma pixel_block_bounds x y :
  0 <= x < W -> 0 <= y < Hh ->
  0 <= pixel_block cu blockSize x y < Kernels.setup_numBlocks cu blockSize.
Proof.
  intros Hx Hy. destruct (tile_of_pixel x y Hx Hy) as (-> & Qx & Qy).
  destruct (ceil_div_bounds W blockSize HW ltac:(lia) HWb) as [Hgx _].
  destruct (ceil_div_bounds Hh blockSize HH ltac:(lia) HHb) as [Hgy _].
  fold gxs in Hgx. fold gys in Hgy.
  assert (Hrow : 0 <= (y / blockSize) * gxs) by (apply Z.mul_nonneg_nonneg; lia).
  assert (Hlast : (y / blockSize + 1) * gxs <= gys * gxs)
    by (apply Z.mul_le_mono_nonneg_r; lia).
  assert (0 <= gxs * gys) by (apply Z.mul_nonneg_nonneg; lia).
  unfold Kernels.setup_numBlocks. fold W Hh gxs gys. unfold mul.
  rewrite wrap_small by (unfold is_int; lia). lia.
Qed.

End Tiles.

(** * The claims about marking and rendering *)

(** The box that block [ty * tilesX + tx] of the mark phase tests against
    is the box of tile [(tx, ty)], when the float division that gives the
    kernel its number of tiles per row is exact. *)
Lemma mark_box_tile {F : Type} `{FloatOps F} (cu : GlobalConstants F)
    (blockSize tx ty : Z) :
  let tilesX := (imageWidth cu + blockSize - 1) / blockSize in
  let tilesY := (imageHeight cu + blockSize - 1) / blockSize in
  1 <= blockSize -> 0 <= imageWidth cu -> 0 <= imageHeight cu ->
  imageWidth cu + blockSize < 2 ^ 31 -> imageHeight cu + blockSize < 2 ^ 31 ->
  mark_gridXSize cu blockSize = tilesX ->
  0 <= tx < tilesX -> 0 <= ty < tilesY ->
  mark_box cu blockSize (ty * tilesX + tx) = tile_box cu blockSize tx ty.
Proof.
  intros tilesX tilesY Hbs HW HH HWb HHb Hgx Htx Hty.
  destruct (tiles_bounds (imageWidth cu) blockSize HW ltac:(lia) HWb) as [_ Bx].
  destruct (tiles_bounds (imageHeight cu) blockSize HH ltac:(lia) HHb) as [_ By].
  fold tilesX in Bx. fold tilesY in By.
  assert (Hrow : 0 <= ty * tilesX) by (apply Z.mul_nonneg_nonneg; lia).
  assert (Erem : Z.rem (ty * tilesX + tx) tilesX = tx).
  { rewrite Z.rem_mod_nonneg by lia.
    rewrite Z.add_comm, Z.mod_add by lia. apply Z.mod_small. lia. }
  assert (Equot : div (ty * tilesX + tx) tilesX = ty).
  { unfold div. rewrite Z.quot_div_nonneg by lia.
    rewrite Z.add_comm, Z.div_add by lia. rewrite Z.div_small by lia.
    apply wrap_small. unfold is_int. nia. }
  assert (Ex0 : mul blockSize tx = blockSize * tx)
    by (apply wrap_small; unfold is_int; nia).
  assert (Ex1 : mul blockSize (add tx 1) = blockSize * (tx + 1)).
  { unfold add. rewrite (wrap_small (tx + 1)) by (unfold is_int; nia).
    apply wrap_small. unfold is_int. nia. }
  assert (Ey0 : mul blockSize ty = blockSize * ty)
    by (apply wrap_small; unfold is_int; nia).
  assert (Ey1 : mul blockSize (add ty 1) = blockSize * (ty + 1)).
  { unfold add. rewrite (wrap_small (ty + 1)) by (unfold is_int; nia).
    apply wrap_small. unfold is_int. nia. }
  unfold mark_box. fold (mark_gridXSize cu blockSize). rewrite Hgx.
  cbv zeta. fold tilesX. rewrite Erem, Equot, Ex0, Ex1, Ey0, Ey1. reflexivity.
Qed.

(** In exact arithmetic the kernel's tiles per row are those of the integer
    computation, for every width and tile size. *)
Lemma mark_gridXSize_exact (cu : GlobalConstants Q) (blockSize : Z) :
  0 <= imageWidth cu -> 1 <= blockSize ->
  mark_gridXSize cu blockSize = (imageWidth cu + blockSize - 1) / blockSize.
Proof.
  intros HW Hbs. unfold mark_gridXSize. cbn [f_of_int f_to_int fadd fsub fdiv Q_FloatOps].
  set (q := Qred _).
  assert (Eq : (q == inject_Z (imageWidth cu + blockSize - 1) / inject_Z blockSize)%Q).
  { unfold q. rewrite !Qred_correct.
    replace (imageWidth cu + blockSize - 1) with (imageWidth cu + blockSize + - 1) by lia.
    rewrite !inject_Z_plus. reflexivity. }
  assert (Hq : (0 <= q)%Q).
  { rewrite Eq. apply Qle_shift_div_l.
    - replace 0%Q with (inject_Z 0) by reflexivity. rewrite <- Zlt_Qlt. lia.
    - rewrite Qmult_0_l. replace 0%Q with (inject_Z 0) by reflexivity.
      rewrite <- Zle_Qle. lia. }
  clearbody q. destruct q as [n d]. cbn [Qnum Qden].
  assert (Hn : 0 <= n) by (unfold Qle in Hq; simpl in Hq; lia).
  rewrite Z.quot_div_nonneg by lia.
  change (n / Z.pos d) with (Qfloor (n # d)). rewrite Eq.
  destruct blockSize as [|p|p]; try lia.
  unfold Qdiv, Qinv, inject_Z. simpl Qnum. cbn [Qmult Qnum Qden Qfloor].
  rewrite Z.mul_1_r, Pos.mul_1_l. reflexivity.
Qed.

(** C6, as stated, fails: the box that a tile's circles are tested against
    starts half a pixel inside the tile.  The circle of radius 1/1024 at
    (1/512, 1/512) lies inside the first 64-pixel tile of a 128 by 128
    image (its bounding box is within [0, 64/128) both ways), and the mark
    phase gives it flag 0 in all four tiles. *)
Lemma mark_circle_in_tile_hits_none :
  (Qle_bool 0 ((1 # 512) - (1 # 1024))
   && negb (Qle_bool (64 # 128) ((1 # 512) + (1 # 1024))) = true)
  /\ launch_blocks 4 1024 (kernelMarkBlocks corner_circle 1024 64 1) [9; 9; 9; 9]
     = Ok [0; 0; 0; 0].
Proof. split; vm_compute; reflexivity. Qed.

(** C6, amended: for every tile [(tx, ty)] of the grid and every circle
    [c], the mark phase sets the flag of block [ty * tilesX + tx] and
    circle [c] to 1 if the circle's bounding box, from its centre and
    radius, overlaps (boundaries included) the box of the tile, which runs
    from [(blockSize * tx + 0.5) / W] to [(blockSize * (tx + 1) + 0.5) / W]
    and from [(blockSize * ty + 0.5) / H] to
    [(blockSize * (ty + 1) + 0.5) / H], not clamped to the image
    ([tile_box]); and to 0 otherwise.  The kernel computes its number of
    tiles per row by a float division; the statement is for the widths and
    tile sizes on which that division gives the integer [tilesX]. *)
Theorem kernelMarkBlocks_flags {F : Type} `{FloatOps F} (cu : GlobalConstants F)
    (blockSize : Z) (hit0 : buf) :
  let N := numberOfCircles cu in
  let tilesX := (imageWidth cu + blockSize - 1) / blockSize in
  let tilesY := (imageHeight cu + blockSize - 1) / blockSize in
  let numBlocks := tilesX * tilesY in
  1 <= N -> numBlocks * N + 1024 < 2 ^ 31 -> 3 * N < 2 ^ 31 ->
  Z.of_nat (length (position cu)) = 3 * N ->
  Z.of_nat (length (radius cu)) = N ->
  Z.of_nat (length hit0) = numBlocks * N ->
  1 <= blockSize -> 0 <= imageWidth cu -> 0 <= imageHeight cu ->
  imageWidth cu + blockSize < 2 ^ 31 -> imageHeight cu + blockSize < 2 ^ 31 ->
  mark_gridXSize cu blockSize = tilesX ->
  exists hit,
    launch_blocks numBlocks 1024 (kernelMarkBlocks cu 1024 blockSize N) hit0 = Ok hit /\
    length hit = length hit0 /\
    forall tx ty c, 0 <= tx < tilesX -> 0 <= ty < tilesY -> 0 <= c < N ->
      exists x y r,
        position cu !! Z.to_nat (3 * c) = Some x /\
        position cu !! Z.to_nat (3 * c + 1) = Some y /\
        radius cu !! Z.to_nat c = Some r /\
        get hit ((ty * tilesX + tx) * N + c)
        = if box_overlap x y r (tile_box cu blockSize tx ty) then 1 else 0.
Proof.
  intros N tilesX tilesY numBlocks HN Hsize H3N Hpos Hrad Hl0 Hbs HW HH HWb HHb Hgx.
  destruct (tiles_bounds (imageWidth cu) blockSize HW ltac:(lia) HWb) as [Hx0 _].
  destruct (tiles_bounds (imageHeight cu) blockSize HH ltac:(lia) HHb) as [Hy0 _].
  fold tilesX in Hx0. fold tilesY in Hy0.
  assert (Hnb : 0 <= numBlocks) by (apply Z.mul_nonneg_nonneg; assumption).
  destruct (mark_grid cu blockSize numBlocks HN Hsize H3N Hpos Hrad hit0 Hnb Hl0)
    as (hit & Hrun & Hlen & Hflags).
  exists hit. split; [exact Hrun|]. split; [exact Hlen|]. intros tx ty c Htx Hty Hc.
  assert (Ht : 0 <= ty * tilesX + tx < numBlocks) by (unfold numBlocks; nia).
  subst N.
  destruct (lookup_lt_is_Some_2 (position cu) (Z.to_nat (3 * c))) as [x Hx]; [lia|].
  destruct (lookup_lt_is_Some_2 (position cu) (Z.to_nat (3 * c + 1))) as [y Hy]; [lia|].
  destruct (lookup_lt_is_Some_2 (radius cu) (Z.to_nat c)) as [r Hr]; [lia|].
  exists x, y, r. repeat (split; [assumption|]).
  rewrite (Hflags _ c Ht Hc). unfold circle_flag. rewrite Hx, Hy, Hr.
  unfold tilesX at 1.
  rewrite (mark_box_tile cu blockSize tx ty Hbs HW HH HWb HHb Hgx Htx Hty). reflexivity.
Qed.

Lemma kernelMarkBlocks_flags_witness :
  exists hit,
    launch_blocks (2 * 1) 1024 (kernelMarkBlocks two_tiles 1024 2 3) [9; 9; 9; 9; 9; 9]
    = Ok hit /\
    length hit = 6%nat /\
    forall tx ty c, 0 <= tx < 2 -> 0 <= ty < 1 -> 0 <= c < 3 ->
      exists x y r,
        position two_tiles !! Z.to_nat (3 * c) = Some x /\
        position two_tiles !! Z.to_nat (3 * c + 1) = Some y /\
        radius two_tiles !! Z.to_nat c = Some r /\
        get hit ((ty * 2 + tx) * 3 + c)
        = if box_overlap x y r (tile_box two_tiles 2 tx ty) then 1 else 0.
Proof.
  apply (kernelMarkBlocks_flags two_tiles 2 [9; 9; 9; 9; 9; 9]).
  - simpl; lia.
  - vm_compute; reflexivity.
  - simpl; lia.
  - reflexivity.
  - reflexivity.
  - reflexivity.
  - lia.
  - simpl; lia.
  - simpl; lia.
  - simpl; lia.
  - simpl; lia.
  - vm_compute; reflexivity.
Defined.

(** A row that the list-build stage has built starts with the circles that
    hit the tile and goes on with the sentinel. *)
Lemma row_built_live (hit lst0 lst : buf) (N blk : Z) :
  0 <= N -> row_built hit lst0 N blk lst -> live_row N lst blk (hits_before hit N blk N).
Proof.
  intros HN (Hlive & Hsent & _).
  pose proof (hits_length_le hit N blk N HN) as Hlen.
  split; [exact Hlen|]. split.
  - intros s c Hs. split; [apply Hlive; exact Hs|].
    apply list_elem_of_lookup_2 in Hs. apply hits_elem in Hs. tauto.
  - intros Hc. rewrite Hsent by exact Hc. lia.
Qed.




(** C3: in the scene of the claim (one flat-colour circle of radius 0.1 at
    the centre of an image cleared to white) the thread of the centre pixel
    stores the blend [0.5 * red + 0.5 * white], with alpha 1.5; the thread
    of the corner pixel, which no circle covers, stores its local
    [newColor], which was never assigned, where the claim has the pixel
    stay white; and so does the frame as a whole. *)
Theorem render_uncovered_pixel_unassigned :
  kernelRenderPixelsLocal no_lookup one_circle [0] 64 (2, 2) (white_image 25)
  = Ok (set_pixel 5 (white_image 25) 2 2 (Float4 1 (1 # 2) (1 # 2) (3 # 2))%Q)
  /\ kernelRenderPixelsLocal no_lookup one_circle [0] 64 (0, 0) (white_image 25)
     = Err Uninitialized
  /\ render no_lookup one_circle 64 1 (fun _ _ => 0) [0] [0] [0] (white_image 25)
     = Err Uninitialized.
Proof. split; [|split]; vm_compute; reflexivity. Qed.

(** * Further properties of the scan file *)

(** X1: for [1 <= n <= 2^30], [nextPow2 n] is the least power of two that
    is at least [n]. *)
Theorem nextPow2_least_power (n : Z) :
  1 <= n <= 2 ^ 30 ->
  exists k, 0 <= k <= 30 /\ nextPow2 n = 2 ^ k /\ n <= 2 ^ k /\
    forall j, 0 <= j -> n <= 2 ^ j -> 2 ^ k <= 2 ^ j.
Proof.
  intros Hn. destruct (nextPow2_pos n Hn) as (k & Hk & Hpow & Hle & Hlt).
  exists k. repeat (split; [assumption|]). intros j Hj Hnj.
  destruct (Z_le_gt_dec k j) as [Hkj|Hkj]; [apply Pow2.le_mono; lia|].
  exfalso. pose proof (Pow2.le_mono j (k - 1) ltac:(lia)) as Hm.
  replace (2 ^ k) with (2 * 2 ^ (k - 1)) in Hlt; [lia|].
  rewrite <- Z.pow_succ_r by lia. f_equal. lia.
Qed.

Lemma nextPow2_least_power_witness :
  exists k, 0 <= k <= 30 /\ nextPow2 5 = 2 ^ k /\ 5 <= 2 ^ k /\
    forall j, 0 <= j -> 5 <= 2 ^ j -> 2 ^ k <= 2 ^ j.
Proof. apply (nextPow2_least_power 5). lia. Defined.

Lemma nextPow2_idem_pow (k : Z) : 0 <= k <= 30 -> nextPow2 (2 ^ k) = 2 ^ k.
Proof.
  intros Hk. pose proof (Pow2.pos k ltac:(lia)) as Hp.
  pose proof (Pow2.le_mono k 30 ltac:(lia)) as Hk30.
  destruct (nextPow2_pos (2 ^ k) ltac:(lia)) as (k' & Hk' & Hpow' & Hle & Hlt).
  rewrite Hpow'.
  destruct (Z.lt_trichotomy k k') as [Hc|[Hc|Hc]].
  - exfalso. pose proof (Pow2.le_mono (k + 1) k' ltac:(lia)) as Hm.
    rewrite Z.pow_add_r in Hm by lia. lia.
  - subst k'. reflexivity.
  - exfalso. pose proof (Pow2.lt_mono k' k ltac:(lia)). lia.
Qed.

(** X2: rounding up twice is rounding up once: for [1 <= n <= 2^30],
    [nextPow2 (nextPow2 n) = nextPow2 n]; a power of two is left as it is. *)
Theorem nextPow2_idempotent (n : Z) :
  1 <= n <= 2 ^ 30 -> nextPow2 (nextPow2 n) = nextPow2 n.
Proof.
  intros Hn. destruct (nextPow2_pos n Hn) as (k & Hk & Hpow & _).
  rewrite Hpow. apply nextPow2_idem_pow. exact Hk.
Qed.

Lemma nextPow2_idempotent_witness : nextPow2 (nextPow2 5) = nextPow2 5.
Proof. apply (nextPow2_idempotent 5). lia. Defined.

(** X3: outside [1 .. 2^30] the result of [nextPow2] is no size at all: it
    is 0 for the [int]s from [-2^31 + 1] to 0, and [-2^31] for [-2^31] and
    for the [int]s above [2^30], where [n++] overflows. *)
Theorem nextPow2_out_of_range (n : Z) :
  is_int n -> ~ 1 <= n <= 2 ^ 30 ->
  nextPow2 n = if (- 2 ^ 31 <? n) && (n <=? 0) then 0 else - 2 ^ 31.
Proof.
  unfold is_int. intros Hn Hout.
  destruct (Z.ltb_spec (- 2 ^ 31) n) as [Hlo|Hlo];
    destruct (Z.leb_spec n 0) as [Hz|Hz]; cbn [andb].
  - apply nextPow2_nonpos. lia.
  - apply nextPow2_big. lia.
  - replace n with (- 2 ^ 31) by lia. apply nextPow2_int_min.
  - lia.
Qed.

Lemma nextPow2_out_of_range_witness :
  nextPow2 0 = if (- 2 ^ 31 <? 0) && (0 <=? 0) then 0 else - 2 ^ 31.
Proof. apply (nextPow2_out_of_range 0); unfold is_int; lia. Defined.

Lemma psum_all (a : buf) (j : Z) : Z.of_nat (length a) <= j -> psum a j = sumZ a.
Proof. intros Hj. unfold psum, sumZ. rewrite take_ge by lia. reflexivity. Qed.

(** X4: the up-sweep phase is a reduction: on a buffer of [2^k] [int]s,
    [k <= 22], the loop of launches returns and leaves in the last cell the
    sum of all the cells, reduced to an [int]. *)
Theorem upsweep_loop_total (d : buf) (k : Z) :
  0 <= k <= 22 -> Z.of_nat (length d) = 2 ^ k -> Forall is_int d ->
  exists d', upsweep_loop loop_fuel (2 ^ k) 1 d = Ok d' /\ length d' = length d /\
    get d' (2 ^ k - 1) = wrap (sumZ d).
Proof.
  intros Hk Hlen Hint.
  assert (Hcells : forall j, 0 <= j < 2 ^ k -> is_int (get d j)).
  { intros j Hj. apply (Forall_get is_int); [assumption|lia]. }
  destruct (upsweep_loop_ok d k Hk Hlen loop_fuel 0 d ltac:(lia)
              ltac:(unfold loop_fuel; lia) (up_inv_init d k Hk Hlen Hcells))
    as (d' & Hrun & Hl & Hinv).
  exists d'. split; [exact Hrun|]. split; [exact Hl|].
  pose proof (Pow2.pos k ltac:(lia)) as Hp.
  rewrite (Hinv k (2 ^ k - 1)); [| lia | lia | | right; reflexivity].
  - unfold seg. replace (2 ^ k - 1 + 1 - 2 ^ k) with 0 by lia.
    rewrite psum_0, psum_all by lia. f_equal. lia.
  - replace (2 ^ k - 1 + 1) with (2 ^ k) by lia. apply Z.mod_same. lia.
Qed.

Lemma upsweep_loop_total_witness :
  exists d', upsweep_loop loop_fuel (2 ^ 2) 1 [1; 2; 3; 4] = Ok d' /\
    length d' = length [1; 2; 3; 4] /\ get d' (2 ^ 2 - 1) = wrap (sumZ [1; 2; 3; 4]).
Proof.
  apply (upsweep_loop_total [1; 2; 3; 4] 2).
  - lia.
  - reflexivity.
  - repeat constructor; unfold is_int; lia.
Defined.

(** X5: the scan does not reach arrays of more than [2^22] elements: for
    [2^22 < n <= 2^30] the buffer has [2^23] cells or more, and at stride
    [2^23] thread 256 computes [i = index * twod1] as [2^31], which as an
    [int] is [-2^31]: it passes the guard [i < length] and the thread leaves
    the buffer. *)
Theorem exclusive_scan_index_overflow (d : buf) (n : Z) :
  2 ^ 22 < n <= 2 ^ 30 -> Z.of_nat (length d) = nextPow2 n ->
  exclusive_scan d n = Err OutOfBounds.
Proof.
  intros Hn Hlen. destruct (nextPow2_pos n ltac:(lia)) as (k & Hk & Hpow & Hle & _).
  assert (23 <= k).
  { destruct (Z_le_gt_dec 23 k); [assumption|]. exfalso.
    pose proof (Pow2.le_mono k 22 ltac:(lia)). lia. }
  apply (exclusive_scan_overflow k); [lia|assumption|congruence].
Qed.

Lemma exclusive_scan_index_overflow_witness :
  exclusive_scan (replicate (Z.to_nat (2 ^ 23)) 0) (2 ^ 23) = Err OutOfBounds.
Proof.
  apply (exclusive_scan_index_overflow (replicate (Z.to_nat (2 ^ 23)) 0) (2 ^ 23)).
  - lia.
  - rewrite length_replicate, Z2Nat.id by lia. symmetry.
    apply (nextPow2_idem_pow 23). lia.
Defined.

(** X6: the scan of nothing faults: for a length [n <= 0] (above [-2^31])
    the rounded length is 0, no launch is made, and
    [cudaMemset(device_data + length - 1, ...)] writes the cell before the
    buffer, whatever the buffer is. *)
Theorem exclusive_scan_empty (d : buf) (n : Z) :
  - 2 ^ 31 < n <= 0 -> exclusive_scan d n = Err OutOfBounds.
Proof.
  intros Hn. unfold exclusive_scan. rewrite (nextPow2_nonpos n Hn). reflexivity.
Qed.

Lemma exclusive_scan_empty_witness : exclusive_scan [] 0 = Err OutOfBounds.
Proof. apply (exclusive_scan_empty [] 0). lia. Defined.

Lemma cudaMalloc_length (n : Z) (junk : Z -> Z) :
  0 <= n -> Z.of_nat (length (cudaMalloc n junk)) = n.
Proof. intros Hn. unfold cudaMalloc. rewrite length_fmap, length_seqZ. lia. Qed.

Lemma cudaMalloc_int (n : Z) (junk : Z -> Z) :
  (forall i, is_int (junk i)) -> Forall is_int (cudaMalloc n junk).
Proof.
  intros Hj. unfold cudaMalloc. apply Forall_fmap, Forall_forall. intros x _. apply Hj.
Qed.

Lemma cudaMemcpy_ok (dst src : buf) (count : Z) :
  0 <= count -> count <= Z.of_nat (length src) -> count <= Z.of_nat (length dst) ->
  cudaMemcpy dst src count = Ok (take (Z.to_nat count) src ++ drop (Z.to_nat count) dst).
Proof.
  intros H0 Hs Hd. unfold cudaMemcpy.
  destruct (Z.leb_spec 0 count); [|lia].
  destruct (Z.leb_spec count (Z.of_nat (length src))); [|lia].
  destruct (Z.leb_spec count (Z.of_nat (length dst))); [|lia]. reflexivity.
Qed.

(** X7: [cudaScan] on an input of [len] [int]s, [1 <= len <= 2^22], returns;
    the first [len] cells of the result array hold the prefix sums of the
    input (as [int]s), the rest of the result array is as it was, and
    nothing depends on what the fresh device memory held. *)
Theorem cudaScan_prefix_sums (junk : Z -> Z) (inarray resultarray : buf) (len : Z) :
  1 <= len <= 2 ^ 22 ->
  len <= Z.of_nat (length inarray) -> len <= Z.of_nat (length resultarray) ->
  Forall is_int inarray -> (forall i, is_int (junk i)) ->
  exists out, cudaScan junk inarray len resultarray = Ok out /\
    length out = length resultarray /\
    (forall i : nat, Z.of_nat i < len ->
       out !! i = Some (wrap (sumZ (take i inarray)))) /\
    (forall i : nat, len <= Z.of_nat i -> out !! i = resultarray !! i).
Proof.
  intros Hlen Hin Hres Hint Hjunk.
  destruct (nextPow2_pos len ltac:(lia)) as (k & Hk & Hpow & Hle & _).
  unfold cudaScan.
  pose proof (cudaMalloc_length (nextPow2 len) junk ltac:(lia)) as Hml.
  rewrite (cudaMemcpy_ok _ inarray len), bind_Ok by lia.
  set (dev := take (Z.to_nat len) inarray ++ drop (Z.to_nat len) (cudaMalloc (nextPow2 len) junk)).
  assert (Hdl : Z.of_nat (length dev) = nextPow2 len).
  { unfold dev. rewrite length_app, length_take, length_drop. lia. }
  assert (Hdi : Forall is_int dev).
  { unfold dev. apply Forall_app. split.
    - apply Forall_take. assumption.
    - apply Forall_drop, cudaMalloc_int. assumption. }
  destruct (exclusive_scan_sums dev len Hlen Hdl Hdi) as (scanned & Hrun & Hsl & Hout).
  rewrite Hrun, bind_Ok.
  rewrite (cudaMemcpy_ok resultarray scanned len) by lia.
  eexists. split; [reflexivity|]. split; [|split].
  - rewrite length_app, length_take, length_drop. lia.
  - intros i Hi. rewrite lookup_app_l by (rewrite length_take; lia).
    rewrite lookup_take_lt by lia. rewrite (Hout i Hi). do 3 f_equal.
    unfold dev. rewrite take_app_le by (rewrite length_take; lia).
    rewrite take_take. f_equal. lia.
  - intros i Hi. rewrite lookup_app_r by (rewrite length_take; lia).
    rewrite length_take, lookup_drop. f_equal. lia.
Qed.

Lemma cudaScan_prefix_sums_witness :
  exists out, cudaScan (fun _ => 42) [3; 1; 7; 0; 4] 5 [9; 9; 9; 9; 9; 9] = Ok out /\
    length out = length [9; 9; 9; 9; 9; 9] /\
    (forall i : nat, Z.of_nat i < 5 ->
       out !! i = Some (wrap (sumZ (take i [3; 1; 7; 0; 4])))) /\
    (forall i : nat, 5 <= Z.of_nat i -> out !! i = [9; 9; 9; 9; 9; 9] !! i).
Proof.
  apply (cudaScan_prefix_sums (fun _ => 42) [3; 1; 7; 0; 4] [9; 9; 9; 9; 9; 9] 5).
  - lia.
  - simpl; lia.
  - simpl; lia.
  - repeat constructor; unfold is_int; lia.
  - intros i. unfold is_int; lia.
Defined.

(** The launches of [find_peaks] start with thread 0. *)
Lemma launch1D_first {St : Type} (blocks : Z) (thread : Z -> St -> outcome St) (s : St)
    (e : error) :
  1 <= blocks -> blocks * 512 <= 2 ^ 31 -> thread 0 s = Err e ->
  launch1D blocks threadsPerBlock thread s = Err e.
Proof.
  intros Hb Hsz He. unfold launch1D, threadsPerBlock.
  rewrite grid1D_seqZ by lia. rewrite seqZ_cons by lia. cbn [foldM].
  rewrite He. reflexivity.
Qed.

Lemma peak_blocks (length : Z) :
  1 <= length <= 2 ^ 30 ->
  let blocks := div (sub (add (nextPow2 length) threadsPerBlock) 1) threadsPerBlock in
  1 <= blocks /\ blocks * 512 <= 2 ^ 31.
Proof.
  intros Hl. destruct (nextPow2_pos length Hl) as (k & Hk & -> & Hle & _).
  pose proof (Pow2.le_mono k 30 ltac:(lia)) as Hk30.
  cbv zeta. unfold div, sub, add, threadsPerBlock.
  rewrite (wrap_small (2 ^ k + 512)) by (unfold is_int; lia).
  rewrite (wrap_small (2 ^ k + 512 - 1)) by (unfold is_int; lia).
  assert (Hq : 1 <= Z.quot (2 ^ k + 512 - 1) 512 <= 2 ^ 21 + 1).
  { rewrite Z.quot_div_nonneg by lia. split.
    - apply Z.div_le_lower_bound; lia.
    - apply Z.div_le_upper_bound; lia. }
  rewrite wrap_small by (unfold is_int; lia). lia.
Qed.

(** X8: [find_peaks] faults on every input: for every length from 1 to
    [2^30] at least one block is launched, [find_peak_kernel] has no guard
    on its index, and thread 0 reads [data[-1]]. *)
Theorem find_peaks_always_out_of_bounds
    (junk_peaks junk_prefixes junk_scan : Z -> Z) (device_input device_output : buf)
    (length : Z) :
  1 <= length <= 2 ^ 30 ->
  find_peaks junk_peaks junk_prefixes junk_scan device_input length device_output
  = Err OutOfBounds.
Proof.
  intros Hl. destruct (peak_blocks length Hl) as [Hb Hsz].
  unfold find_peaks. rewrite (launch1D_first _ _ _ OutOfBounds Hb Hsz); reflexivity.
Qed.

Lemma find_peaks_always_out_of_bounds_witness :
  find_peaks (fun _ => 0) (fun _ => 0) (fun _ => 0) [1; 3; 2; 0] 3 [0; 0; 0; 0]
  = Err OutOfBounds.
Proof.
  apply (find_peaks_always_out_of_bounds (fun _ => 0) (fun _ => 0) (fun _ => 0)
           [1; 3; 2; 0] [0; 0; 0; 0] 3).
  lia.
Defined.

(** X9: so does its caller: for every length from 1 to [2^30],
    [cudaFindPeaks] stops on an out-of-bounds access, in the copy of an
    input shorter than [length] or else in [find_peaks]. *)
Theorem cudaFindPeaks_always_out_of_bounds
    (junk_input junk_output junk_peaks junk_prefixes junk_scan : Z -> Z)
    (input output : buf) (length : Z) :
  1 <= length <= 2 ^ 30 ->
  cudaFindPeaks junk_input junk_output junk_peaks junk_prefixes junk_scan
    input length output
  = Err OutOfBounds.
Proof.
  intros Hl. destruct (peak_blocks length Hl) as [Hb Hsz].
  unfold cudaFindPeaks, cudaMemcpy.
  destruct (_ && _ && _); [|reflexivity]. rewrite bind_Ok.
  unfold find_peaks. rewrite (launch1D_first _ _ _ OutOfBounds Hb Hsz); reflexivity.
Qed.

Lemma cudaFindPeaks_always_out_of_bounds_witness :
  cudaFindPeaks (fun _ => 0) (fun _ => 0) (fun _ => 0) (fun _ => 0) (fun _ => 0)
    [1; 3; 2] 3 [0; 0; 0]
  = Err OutOfBounds.
Proof.
  apply (cudaFindPeaks_always_out_of_bounds (fun _ => 0) (fun _ => 0) (fun _ => 0)
           (fun _ => 0) (fun _ => 0) [1; 3; 2] [0; 0; 0] 3).
  lia.
Defined.

(** X10: a thread of [find_peak_kernel] ignores [length]; for an index [i]
    whose neighbours are [int]s it returns exactly when [1 <= i], [i] is
    inside [data] and [peaks], and [i + 1] is inside [data] or
    [data[i-1] >= data[i]]; it then writes into [peaks[i]], and nowhere
    else, 1 if [data[i]] is above both neighbours and 0 if not. *)
Theorem find_peak_kernel_thread (data peaks : buf) (length i : Z) :
  - 2 ^ 31 < i < 2 ^ 31 - 1 ->
  find_peak_kernel data length i peaks
  = if peak_thread_safe data peaks i
    then Ok (<[Z.to_nat i := peak_flag data i]> peaks)
    else Err OutOfBounds.
Proof.
  intros Hi. unfold find_peak_kernel, peak_thread_safe, peak_flag, sub, add.
  rewrite (wrap_small (i - 1)), (wrap_small (i + 1)) by (unfold is_int; lia).
  destruct (Z.leb_spec 1 i) as [H1|H1]; cbn [andb].
  2:{ rewrite (load_oob data (i - 1)) by lia. reflexivity. }
  destruct (Z.ltb_spec i (Z.of_nat (Datatypes.length data))) as [Hd|Hd]; cbn [andb].
  2:{ destruct (Z_lt_dec (i - 1) (Z.of_nat (Datatypes.length data))).
      - rewrite (load_ok data (i - 1)), bind_Ok by lia.
        rewrite (load_oob data i) by lia. reflexivity.
      - rewrite (load_oob data (i - 1)) by lia. reflexivity. }
  rewrite (load_ok data (i - 1)), bind_Ok by lia.
  rewrite (load_ok data i), bind_Ok by lia.
  destruct (get data (i - 1) <? get data i); cbn [andb negb orb].
  - destruct (Z.ltb_spec (i + 1) (Z.of_nat (Datatypes.length data))) as [Hn|Hn].
    + rewrite (load_ok data (i + 1)), bind_Ok by lia.
      destruct (Z.ltb_spec i (Z.of_nat (Datatypes.length peaks))) as [Hp|Hp]; cbn [andb].
      * apply store_ok. lia.
      * apply store_oob. lia.
    + rewrite (load_oob data (i + 1)) by lia. rewrite andb_false_r. reflexivity.
  - rewrite andb_true_r.
    destruct (Z.ltb_spec i (Z.of_nat (Datatypes.length peaks))) as [Hp|Hp].
    + apply store_ok. lia.
    + apply store_oob. lia.
Qed.

Lemma find_peak_kernel_thread_witness :
  find_peak_kernel [1; 5; 2; 8] 0 1 [9; 9; 9; 9]
  = if peak_thread_safe [1; 5; 2; 8] [9; 9; 9; 9] 1
    then Ok (<[Z.to_nat 1 := peak_flag [1; 5; 2; 8] 1]> [9; 9; 9; 9])
    else Err OutOfBounds.
Proof. apply (find_peak_kernel_thread [1; 5; 2; 8] [9; 9; 9; 9] 0 1). lia. Defined.

Lemma flagged_succ (peaks : buf) (c : Z) :
  0 <= c ->
  flagged peaks (c + 1)
  = flagged peaks c ++ (if decide (get peaks c <> 0) then [c] else []).
Proof.
  intros Hc. unfold flagged. rewrite seqZ_app by lia. rewrite filter_app. f_equal.
Qed.

Lemma flagged_length_mono (peaks : buf) (c T : Z) :
  0 <= c <= T ->
  Z.of_nat (length (flagged peaks c)) <= Z.of_nat (length (flagged peaks T)).
Proof.
  intros Hc. unfold flagged. replace T with (c + (T - c)) by lia.
  rewrite seqZ_app by lia. rewrite filter_app, length_app. lia.
Qed.

(** A property checked on every index below [T] holds below [T]. *)
Lemma forallb_seqZ (P : Z -> bool) (T : Z) :
  forallb P (seqZ 0 T) = true -> forall i, 0 <= i < T -> P i = true.
Proof.
  intros Hall i Hi. rewrite forallb_forall in Hall. apply Hall.
  apply list_elem_of_In, elem_of_seqZ. lia.
Qed.

(** X11: when every launched thread is inside the flag and prefix arrays
    (they hold at least [blocks * 512] cells), the prefix array holds for
    every index the number of flagged indices before it, and the result
    array has room, the launch of [make_list_kernel] returns and compacts:
    the result array starts with the flagged indices in increasing order,
    and the cells after them are as they were. *)
Theorem make_list_kernel_compacts (peaks prefixes result : buf) (blocks : Z) :
  0 <= blocks -> blocks * 512 <= 2 ^ 31 ->
  blocks * 512 <= Z.of_nat (length peaks) ->
  blocks * 512 <= Z.of_nat (length prefixes) ->
  (forall i, 0 <= i < blocks * 512 ->
     get prefixes i = Z.of_nat (length (flagged peaks i))) ->
  Z.of_nat (length (flagged peaks (blocks * 512))) <= Z.of_nat (length result) ->
  exists out,
    launch1D blocks threadsPerBlock (make_list_kernel peaks prefixes) result = Ok out /\
    length out = length result /\
    (forall (s : nat) i, flagged peaks (blocks * 512) !! s = Some i -> out !! s = Some i) /\
    (forall s : nat, (length (flagged peaks (blocks * 512)) <= s)%nat ->
       out !! s = result !! s).
Proof.
  intros Hb Hsz Hpk Hpf Hpre Hroom. set (T := blocks * 512) in *.
  unfold launch1D, threadsPerBlock. rewrite grid1D_seqZ by lia. fold T.
  destruct (foldM_seqZ_inv
    (fun c out => length out = length result /\
       (forall (s : nat) i, flagged peaks c !! s = Some i -> out !! s = Some i) /\
       (forall s : nat, (length (flagged peaks c) <= s)%nat -> out !! s = result !! s))
    (make_list_kernel peaks prefixes) T result) as (out & Hrun & Hinv).
  - split; [reflexivity|]. split; [intros s i Hs; discriminate Hs|]. intros; reflexivity.
  - intros c out Hc (Hl & Hlive & Hrest).
    pose proof (flagged_length_mono peaks (c + 1) T ltac:(lia)) as Hmono.
    rewrite flagged_succ in Hmono by lia.
    unfold make_list_kernel.
    rewrite (load_ok peaks c), bind_Ok by lia.
    destruct (Z.eqb_spec (get peaks c) 0) as [Hz|Hnz]; cbn [negb].
    + exists out. split; [reflexivity|].
      rewrite flagged_succ by lia. rewrite decide_False by lia. rewrite app_nil_r. auto.
    + rewrite decide_True in Hmono by assumption. rewrite length_app in Hmono.
      simpl in Hmono.
      rewrite (load_ok prefixes c), bind_Ok by lia. rewrite (Hpre c Hc).
      set (n := length (flagged peaks c)) in *.
      rewrite store_ok by lia. rewrite Nat2Z.id.
      eexists. split; [reflexivity|]. rewrite flagged_succ by lia.
      rewrite decide_True by assumption. fold n.
      split; [rewrite length_insert; exact Hl|]. split.
      * intros s i Hs. destruct (Nat.lt_ge_cases s n) as [Hlt|Hge].
        -- rewrite lookup_app_l in Hs by exact Hlt.
           rewrite list_lookup_insert_ne by lia. apply Hlive. exact Hs.
        -- rewrite lookup_app_r in Hs by exact Hge.
           fold n in Hs.
           destruct (s - n)%nat as [|q] eqn:Hq; [|simpl in Hs; discriminate Hs].
           simpl in Hs.
           injection Hs as <-. assert (s = n) by lia. subst s.
           apply list_lookup_insert_eq. lia.
      * intros s Hs. rewrite length_app in Hs. simpl in Hs.
        rewrite list_lookup_insert_ne by lia. apply Hrest. fold n. lia.
  - exists out. split; [exact Hrun|]. rewrite Z.max_r in Hinv by lia. exact Hinv.
Qed.

Lemma make_list_kernel_compacts_witness :
  exists out,
    launch1D 1 threadsPerBlock (make_list_kernel peaks_512 prefixes_512) [7; 7; 7] = Ok out /\
    length out = length [7; 7; 7] /\
    (forall (s : nat) i, flagged peaks_512 (1 * 512) !! s = Some i -> out !! s = Some i) /\
    (forall s : nat, (length (flagged peaks_512 (1 * 512)) <= s)%nat ->
       out !! s = [7; 7; 7] !! s).
Proof.
  apply (make_list_kernel_compacts peaks_512 prefixes_512 [7; 7; 7] 1).
  - lia.
  - lia.
  - vm_compute; discriminate.
  - vm_compute; discriminate.
  - intros i Hi. apply Z.eqb_eq.
    apply (forallb_seqZ
             (fun i => get prefixes_512 i =? Z.of_nat (length (flagged peaks_512 i)))
             (1 * 512)); [vm_compute; reflexivity|exact Hi].
  - vm_compute; discriminate.
Defined.

(** * Further properties of the renderer *)

(** ** Pixels of an image *)

Section PixelFacts.

Context {F : Type}.
Variables (W Hh : Z).
Hypothesis HW : 0 <= W.

Lemma pixel_index x y :
  0 <= x < W -> 0 <= y < Hh -> 0 <= y * W + x < W * Hh.
Proof.
  intros Hx Hy.
  assert (0 <= y * W) by (apply Z.mul_nonneg_nonneg; lia).
  assert (y * W + W <= Hh * W).
  { replace (y * W + W) with ((y + 1) * W) by lia. apply Z.mul_le_mono_nonneg_r; lia. }
  lia.
Qed.

Lemma pixel_index_inj x y x' y' :
  0 <= x < W -> 0 <= x' < W -> y * W + x = y' * W + x' -> x = x' /\ y = y'.
Proof.
  intros Hx Hx' He.
  assert (Hy : y = y').
  { destruct (Z.lt_trichotomy y y') as [Hlt|[Heq|Hgt]]; [|assumption|].
    - exfalso. assert ((y + 1) * W <= y' * W) by (apply Z.mul_le_mono_nonneg_r; lia). lia.
    - exfalso. assert ((y' + 1) * W <= y * W) by (apply Z.mul_le_mono_nonneg_r; lia). lia. }
  subst y'. lia.
Qed.

Lemma offset_ok x y :
  4 * (W * Hh) < 2 ^ 31 -> 0 <= x < W -> 0 <= y < Hh ->
  Int32.mul 4 (Int32.add (Int32.mul y W) x) = 4 * (y * W + x).
Proof.
  intros Hsz Hx Hy. pose proof (pixel_index x y Hx Hy).
  assert (0 <= y * W) by (apply Z.mul_nonneg_nonneg; lia).
  unfold Int32.mul, Int32.add.
  rewrite (wrap_small (y * W)) by (unfold is_int; lia).
  rewrite (wrap_small (y * W + x)) by (unfold is_int; lia).
  apply wrap_small. unfold is_int. lia.
Qed.

Lemma set_pixel_length (image : list F) x y v :
  length (set_pixel W image x y v) = length image.
Proof. unfold set_pixel. rewrite !length_insert. reflexivity. Qed.

Lemma pixel_some (image : list F) x y :
  Z.of_nat (length image) = 4 * (W * Hh) -> 0 <= x < W -> 0 <= y < Hh ->
  exists v, pixel W image x y = Some v.
Proof.
  intros Hl Hx Hy. pose proof (pixel_index x y Hx Hy). unfold pixel.
  set (off := Z.to_nat (4 * (y * W + x))).
  destruct (lookup_lt_is_Some_2 image off) as [a ->]; [lia|].
  destruct (lookup_lt_is_Some_2 image (S off)) as [b ->]; [lia|].
  destruct (lookup_lt_is_Some_2 image (S (S off))) as [c ->]; [lia|].
  destruct (lookup_lt_is_Some_2 image (S (S (S off)))) as [d ->]; [lia|].
  eexists. reflexivity.
Qed.

Lemma pixel_set_pixel (image : list F) x y v x' y' :
  Z.of_nat (length image) = 4 * (W * Hh) ->
  0 <= x < W -> 0 <= y < Hh -> 0 <= x' < W -> 0 <= y' < Hh ->
  pixel W (set_pixel W image x y v) x' y'
  = if decide ((x', y') = (x, y)) then Some v else pixel W image x' y'.
Proof.
  intros Hl Hx Hy Hx' Hy'.
  pose proof (pixel_index x y Hx Hy) as Hk. pose proof (pixel_index x' y' Hx' Hy') as Hk'.
  unfold pixel, set_pixel.
  set (off := Z.to_nat (4 * (y * W + x))). set (off' := Z.to_nat (4 * (y' * W + x'))).
  destruct (decide ((x', y') = (x, y))) as [Heq|Hne].
  - injection Heq as -> ->. subst off'. fold off.
    rewrite (list_lookup_insert_ne _ _ off), (list_lookup_insert_ne _ _ off),
      (list_lookup_insert_ne _ _ off) by lia.
    rewrite list_lookup_insert_eq by lia.
    rewrite (list_lookup_insert_ne _ _ (S off)), (list_lookup_insert_ne _ _ (S off)) by lia.
    rewrite list_lookup_insert_eq by (rewrite length_insert; lia).
    rewrite (list_lookup_insert_ne _ _ (S (S off))) by lia.
    rewrite list_lookup_insert_eq by (rewrite !length_insert; lia).
    rewrite list_lookup_insert_eq by (rewrite !length_insert; lia).
    destruct v; reflexivity.
  - assert (Hd : y * W + x <> y' * W + x').
    { intros He. destruct (pixel_index_inj x y x' y' Hx Hx' He). congruence. }
    assert ((off' + 4 <= off)%nat \/ (off + 4 <= off')%nat) by lia.
    rewrite !list_lookup_insert_ne by lia. reflexivity.
Qed.

Lemma set_pixel_id (image : list F) x y v :
  pixel W image x y = Some v -> set_pixel W image x y v = image.
Proof.
  unfold pixel, set_pixel. set (off := Z.to_nat (4 * (y * W + x))).
  destruct (image !! off) as [a|] eqn:Ea; [|discriminate].
  destruct (image !! S off) as [b|] eqn:Eb; [|discriminate].
  destruct (image !! S (S off)) as [c|] eqn:Ec; [|discriminate].
  destruct (image !! S (S (S off))) as [d|] eqn:Ed; [|discriminate].
  intros [= <-]. cbn [x4 y4 z4 w4].
  rewrite (list_insert_id image off a Ea), (list_insert_id image (S off) b Eb),
    (list_insert_id image (S (S off)) c Ec). apply list_insert_id. exact Ed.
Qed.

Lemma set_pixel_twice (image : list F) x y v v' :
  set_pixel W (set_pixel W image x y v) x y v' = set_pixel W image x y v'.
Proof.
  unfold set_pixel. set (off := Z.to_nat (4 * (y * W + x))).
  apply list_eq. intros i.
  destruct (decide (i < length image)%nat) as [Hi|Hi].
  - destruct (decide (i = S (S (S off)))); [|destruct (decide (i = S (S off)));
      [|destruct (decide (i = S off)); [|destruct (decide (i = off))]]];
      try subst i;
      repeat first
        [ rewrite list_lookup_insert_ne by lia
        | rewrite list_lookup_insert_eq by (rewrite ?length_insert; lia) ];
      reflexivity.
  - rewrite !lookup_ge_None_2 by (rewrite !length_insert; lia). reflexivity.
Qed.

End PixelFacts.

(** ** The threads of a two-dimensional launch *)

Lemma quot_rem_unique (b q r q' r' : Z) :
  0 <= r < b -> 0 <= r' < b -> q * b + r = q' * b + r' -> q = q' /\ r = r'.
Proof.
  intros Hr Hr' He.
  assert (Hq : q = q').
  { destruct (Z.lt_trichotomy q q') as [Hlt|[Heq|Hgt]]; [|assumption|].
    - exfalso. assert ((q + 1) * b <= q' * b) by (apply Z.mul_le_mono_nonneg_r; lia). lia.
    - exfalso. assert ((q' + 1) * b <= q * b) by (apply Z.mul_le_mono_nonneg_r; lia). lia. }
  subst q'. lia.
Qed.

Section Grid2D.

Variables (gx gy bx by_ : Z).
Hypothesis Hgx : 0 <= gx.
Hypothesis Hgy : 0 <= gy.
Hypothesis Hbx : 0 < bx.
Hypothesis Hby : 0 < by_.
Hypothesis Hx31 : gx * bx <= 2 ^ 31.
Hypothesis Hy31 : gy * by_ <= 2 ^ 31.

Lemma thread_coord (g b blk t : Z) :
  0 < b -> g * b <= 2 ^ 31 -> 0 <= blk < g -> 0 <= t < b ->
  Int32.add (Int32.mul blk b) t = blk * b + t /\ 0 <= blk * b + t < g * b.
Proof.
  intros Hb H31 Hblk Ht.
  assert (0 <= blk * b) by (apply Z.mul_nonneg_nonneg; lia).
  assert ((blk + 1) * b <= g * b) by (apply Z.mul_le_mono_nonneg_r; lia).
  unfold Int32.add, Int32.mul.
  rewrite (wrap_small (blk * b)) by (unfold is_int; lia).
  rewrite wrap_small by (unfold is_int; lia). lia.
Qed.

(** Where the threads of block row [bY] ... of the grid are. *)
Lemma elem_of_grid2D_inv (p : Z * Z) :
  p ∈ grid2D gx gy bx by_ ->
  exists bY bX tY tX,
    0 <= bY < gy /\ 0 <= bX < gx /\ 0 <= tY < by_ /\ 0 <= tX < bx /\
    p = (bX * bx + tX, bY * by_ + tY).
Proof.
  unfold grid2D. intros Hp.
  apply list_elem_of_bind in Hp as (bY & Hp & HbY).
  apply list_elem_of_bind in Hp as (bX & Hp & HbX).
  apply list_elem_of_bind in Hp as (tY & Hp & HtY).
  apply list_elem_of_bind in Hp as (tX & Hp & HtX).
  apply list_elem_of_singleton in Hp.
  apply elem_of_seqZ in HbY, HbX, HtY, HtX.
  destruct (thread_coord gx bx bX tX Hbx Hx31 ltac:(lia) ltac:(lia)) as [Ex _].
  destruct (thread_coord gy by_ bY tY Hby Hy31 ltac:(lia) ltac:(lia)) as [Ey _].
  rewrite Ex, Ey in Hp.
  exists bY, bX, tY, tX. repeat (split; [lia|]). exact Hp.
Qed.

Lemma elem_of_grid2D x y :
  (x, y) ∈ grid2D gx gy bx by_ <-> 0 <= x < gx * bx /\ 0 <= y < gy * by_.
Proof.
  split.
  - intros Hp. apply elem_of_grid2D_inv in Hp
      as (bY & bX & tY & tX & HbY & HbX & HtY & HtX & Hp).
    injection Hp as -> ->.
    destruct (thread_coord gx bx bX tX Hbx Hx31 HbX HtX) as [_ Bx].
    destruct (thread_coord gy by_ bY tY Hby Hy31 HbY HtY) as [_ By].
    lia.
  - intros [Hx Hy]. unfold grid2D.
    pose proof (Z.mod_pos_bound x bx Hbx). pose proof (Z.mod_pos_bound y by_ Hby).
    pose proof (Z.div_mod x bx ltac:(lia)) as Dx. pose proof (Z.div_mod y by_ ltac:(lia)) as Dy.
    assert (0 <= x / bx < gx).
    { split; [apply Z.div_pos; lia|]. apply Z.div_lt_upper_bound; lia. }
    assert (0 <= y / by_ < gy).
    { split; [apply Z.div_pos; lia|]. apply Z.div_lt_upper_bound; lia. }
    apply list_elem_of_bind. exists (y / by_). split; [|apply elem_of_seqZ; lia].
    apply list_elem_of_bind. exists (x / bx). split; [|apply elem_of_seqZ; lia].
    apply list_elem_of_bind. exists (y mod by_). split; [|apply elem_of_seqZ; lia].
    apply list_elem_of_bind. exists (x mod bx). split; [|apply elem_of_seqZ; lia].
    apply list_elem_of_singleton.
    destruct (thread_coord gx bx (x / bx) (x mod bx) Hbx Hx31 ltac:(lia) ltac:(lia)) as [-> _].
    destruct (thread_coord gy by_ (y / by_) (y mod by_) Hby Hy31 ltac:(lia) ltac:(lia))
      as [-> _].
    f_equal; lia.
Qed.

Lemma NoDup_grid2D : NoDup (grid2D gx gy bx by_).
Proof.
  assert (Hcell : forall bY bX tY tX p,
    bY ∈ seqZ 0 gy -> bX ∈ seqZ 0 gx -> tY ∈ seqZ 0 by_ -> tX ∈ seqZ 0 bx ->
    p ∈ [(Int32.add (Int32.mul bX bx) tX, Int32.add (Int32.mul bY by_) tY)] ->
    p = (bX * bx + tX, bY * by_ + tY) /\ 0 <= tX < bx /\ 0 <= tY < by_).
  { intros bY bX tY tX p HbY HbX HtY HtX Hp.
    apply elem_of_seqZ in HbY, HbX, HtY, HtX. apply list_elem_of_singleton in Hp.
    destruct (thread_coord gx bx bX tX Hbx Hx31 ltac:(lia) ltac:(lia)) as [Ex _].
    destruct (thread_coord gy by_ bY tY Hby Hy31 ltac:(lia) ltac:(lia)) as [Ey _].
    rewrite Ex, Ey in Hp. split; [exact Hp|lia]. }
  unfold grid2D.
  apply NoDup_bind; [| |apply NoDup_seqZ].
  - intros bY1 bY2 p H1 H2 Hp1 Hp2.
    apply list_elem_of_bind in Hp1 as (bX1 & Hp1 & HbX1).
    apply list_elem_of_bind in Hp1 as (tY1 & Hp1 & HtY1).
    apply list_elem_of_bind in Hp1 as (tX1 & Hp1 & HtX1).
    apply list_elem_of_bind in Hp2 as (bX2 & Hp2 & HbX2).
    apply list_elem_of_bind in Hp2 as (tY2 & Hp2 & HtY2).
    apply list_elem_of_bind in Hp2 as (tX2 & Hp2 & HtX2).
    destruct (Hcell _ _ _ _ _ H1 HbX1 HtY1 HtX1 Hp1) as (-> & ? & ?).
    destruct (Hcell _ _ _ _ _ H2 HbX2 HtY2 HtX2 Hp2) as (Hp & ? & ?).
    apply pair_equal_spec in Hp as [Hxe Hye].
    destruct (quot_rem_unique by_ bY1 tY1 bY2 tY2); [lia|lia|lia|assumption].
  - intros bY HbY. apply NoDup_bind; [| |apply NoDup_seqZ].
    + intros bX1 bX2 p H1 H2 Hp1 Hp2.
      apply list_elem_of_bind in Hp1 as (tY1 & Hp1 & HtY1).
      apply list_elem_of_bind in Hp1 as (tX1 & Hp1 & HtX1).
      apply list_elem_of_bind in Hp2 as (tY2 & Hp2 & HtY2).
      apply list_elem_of_bind in Hp2 as (tX2 & Hp2 & HtX2).
      destruct (Hcell _ _ _ _ _ HbY H1 HtY1 HtX1 Hp1) as (-> & ? & ?).
      destruct (Hcell _ _ _ _ _ HbY H2 HtY2 HtX2 Hp2) as (Hp & ? & ?).
      apply pair_equal_spec in Hp as [Hxe Hye].
      destruct (quot_rem_unique bx bX1 tX1 bX2 tX2); [lia|lia|lia|assumption].
    + intros bX HbX. apply NoDup_bind; [| |apply NoDup_seqZ].
      * intros tY1 tY2 p H1 H2 Hp1 Hp2.
        apply list_elem_of_bind in Hp1 as (tX1 & Hp1 & HtX1).
        apply list_elem_of_bind in Hp2 as (tX2 & Hp2 & HtX2).
        destruct (Hcell _ _ _ _ _ HbY HbX H1 HtX1 Hp1) as (-> & ? & ?).
        destruct (Hcell _ _ _ _ _ HbY HbX H2 HtX2 Hp2) as (Hp & ? & ?).
        apply pair_equal_spec in Hp as [Hxe Hye]. lia.
      * intros tY HtY. apply NoDup_bind; [| |apply NoDup_seqZ].
        -- intros tX1 tX2 p H1 H2 Hp1 Hp2.
           destruct (Hcell _ _ _ _ _ HbY HbX HtY H1 Hp1) as (-> & ? & ?).
           destruct (Hcell _ _ _ _ _ HbY HbX HtY H2 Hp2) as (Hp & ? & ?).
           apply pair_equal_spec in Hp as [Hxe Hye]. lia.
        -- intros tX HtX. apply NoDup_singleton.
Qed.

End Grid2D.

(** The grid of a launch with [blockDim = (b, b)] over an image: the
    blocks needed to cover the width and the height. *)
Lemma cover_blocks (n b : Z) :
  0 <= n -> 0 < b -> n + b < 2 ^ 31 ->
  let g := Int32.div (Int32.sub (Int32.add n b) 1) b in
  0 <= g /\ n <= g * b < n + b.
Proof. intros Hn Hb H31. apply (ceil_div_bounds n b); assumption. Qed.

(** ** Launches that write one pixel per thread *)

Section PixelLaunch.

Context {F : Type}.
Variables (W Hh : Z) (g : Z -> Z -> float4 F -> float4 F).
Variable thread : Z * Z -> list F -> outcome (list F).
Hypothesis HW : 0 <= W.
Hypothesis HH : 0 <= Hh.
Hypothesis Hin : forall x y (img : list F) old,
  0 <= x < W -> 0 <= y < Hh -> Z.of_nat (length img) = 4 * (W * Hh) ->
  pixel W img x y = Some old ->
  thread (x, y) img = Ok (set_pixel W img x y (g x y old)).
Hypothesis Hout : forall x y (img : list F),
  0 <= x -> 0 <= y -> ~ (x < W /\ y < Hh) -> thread (x, y) img = Ok img.

Lemma pixel_threads (l : list (Z * Z)) :
  NoDup l -> (forall x y, (x, y) ∈ l -> 0 <= x /\ 0 <= y) ->
  forall img : list F, Z.of_nat (length img) = 4 * (W * Hh) ->
  exists img', foldM thread l img = Ok img' /\ length img' = length img /\
    forall x y, 0 <= x < W -> 0 <= y < Hh ->
      pixel W img' x y
      = if decide ((x, y) ∈ l) then g x y <$> pixel W img x y else pixel W img x y.
Proof.
  induction l as [|[a b] l IH]; intros Hnd Hpos img Hl.
  - exists img. split; [reflexivity|]. split; [reflexivity|].
    intros x y _ _. rewrite decide_False by apply not_elem_of_nil. reflexivity.
  - apply NoDup_cons in Hnd as [Hnotin Hnd].
    destruct (Hpos a b ltac:(left)) as [Ha Hb].
    assert (Hpos' : forall x y, (x, y) ∈ l -> 0 <= x /\ 0 <= y)
      by (intros x y Hxy; apply Hpos; right; exact Hxy).
    cbn [foldM].
    destruct (decide (a < W /\ b < Hh)) as [[HaW HbH]|Hno].
    + destruct (pixel_some W Hh HW img a b Hl ltac:(lia) ltac:(lia)) as [old Hold].
      rewrite (Hin a b img old ltac:(lia) ltac:(lia) Hl Hold), bind_Ok.
      destruct (IH Hnd Hpos' (set_pixel W img a b (g a b old)))
        as (img' & Hrun & Hlen & Hpix).
      { rewrite set_pixel_length. exact Hl. }
      exists img'. split; [exact Hrun|]. split.
      { rewrite Hlen. apply set_pixel_length. }
      intros x y Hx Hy. rewrite (Hpix x y Hx Hy).
      rewrite (pixel_set_pixel W Hh HW img a b _ x y Hl) by lia.
      destruct (decide ((x, y) = (a, b))) as [Heq|Hne].
      * injection Heq as -> ->. rewrite decide_False by exact Hnotin.
        rewrite decide_True by left. rewrite Hold. reflexivity.
      * destruct (decide ((x, y) ∈ l)) as [Hm|Hm].
        -- rewrite decide_True by (right; exact Hm). reflexivity.
        -- rewrite decide_False; [reflexivity|].
           intros Hc. apply elem_of_cons in Hc as [Hc|Hc]; [exact (Hne Hc)|exact (Hm Hc)].
    + rewrite (Hout a b img Ha Hb Hno), bind_Ok.
      destruct (IH Hnd Hpos' img Hl) as (img' & Hrun & Hlen & Hpix).
      exists img'. split; [exact Hrun|]. split; [exact Hlen|].
      intros x y Hx Hy. rewrite (Hpix x y Hx Hy).
      destruct (decide ((x, y) ∈ l)) as [Hm|Hm].
      * rewrite decide_True by (right; exact Hm). reflexivity.
      * rewrite decide_False; [reflexivity|].
        intros Hc. apply elem_of_cons in Hc as [Hc|Hc]; [|exact (Hm Hc)].
        injection Hc as -> ->. apply Hno. lia.
Qed.

(** A launch whose grid of [b] by [b] blocks covers the image leaves every
    pixel, once, to the thread of its coordinates. *)
Lemma pixel_launch (b : Z) (img : list F) :
  0 < b -> W + b < 2 ^ 31 -> Hh + b < 2 ^ 31 ->
  Z.of_nat (length img) = 4 * (W * Hh) ->
  exists img',
    foldM thread
      (grid2D (Int32.div (Int32.sub (Int32.add W b) 1) b)
              (Int32.div (Int32.sub (Int32.add Hh b) 1) b) b b) img = Ok img' /\
    map_pixels W Hh g img img'.
Proof.
  intros Hb HWb HHb Hl.
  destruct (cover_blocks W b HW Hb HWb) as [Hgx Bx].
  destruct (cover_blocks Hh b HH Hb HHb) as [Hgy By].
  set (gx := Int32.div (Int32.sub (Int32.add W b) 1) b) in *.
  set (gy := Int32.div (Int32.sub (Int32.add Hh b) 1) b) in *.
  destruct (pixel_threads (grid2D gx gy b b)) with (img := img)
    as (img' & Hrun & Hlen & Hpix).
  - apply NoDup_grid2D; lia.
  - intros x y Hxy. apply elem_of_grid2D in Hxy; lia.
  - exact Hl.
  - exists img'. split; [exact Hrun|]. split; [exact Hlen|].
    intros x y Hx Hy. rewrite (Hpix x y Hx Hy).
    rewrite decide_True; [reflexivity|]. apply elem_of_grid2D; lia.
Qed.

End PixelLaunch.

(** ** Clearing the image *)

Section Clear.

Context {F : Type} `{FloatOps F}.
Variable cu : GlobalConstants F.
Let W := imageWidth cu.
Let Hh := imageHeight cu.
Hypothesis HW : 0 <= W.
Hypothesis HH : 0 <= Hh.
Hypothesis Hsz : 4 * (W * Hh) < 2 ^ 31.

Lemma in_image x y : 0 <= x < W -> 0 <= y < Hh -> (x >=? W) || (y >=? Hh) = false.
Proof.
  intros Hx Hy. destruct (Z.geb_spec x W); [lia|]. destruct (Z.geb_spec y Hh); [lia|].
  reflexivity.
Qed.

Lemma off_image x y : 0 <= x -> 0 <= y -> ~ (x < W /\ y < Hh) -> (x >=? W) || (y >=? Hh) = true.
Proof.
  intros Hx Hy Hno. destruct (Z.geb_spec x W); [reflexivity|].
  destruct (Z.geb_spec y Hh); [reflexivity|]. lia.
Qed.

Lemma store_pixel (img : list F) x y v :
  0 <= x < W -> 0 <= y < Hh -> Z.of_nat (length img) = 4 * (W * Hh) ->
  store4 img (Int32.mul 4 (Int32.add (Int32.mul y W) x)) v = Ok (set_pixel W img x y v).
Proof.
  intros Hx Hy Hl. rewrite (offset_ok W Hh HW x y Hsz Hx Hy).
  pose proof (pixel_index W Hh HW x y Hx Hy). apply store4_pixel; lia.
Qed.

Lemma kernelClearImage_thread (r g b a : F) x y (img : list F) old :
  0 <= x < W -> 0 <= y < Hh -> Z.of_nat (length img) = 4 * (W * Hh) ->
  pixel W img x y = Some old ->
  Kernels.kernelClearImage cu r g b a (x, y) img
  = Ok (set_pixel W img x y (Float4 r g b a)).
Proof.
  intros Hx Hy Hl _. unfold Kernels.kernelClearImage. fold W Hh.
  rewrite (in_image x y Hx Hy). apply store_pixel; assumption.
Qed.

Lemma kernelClearImageSnowflake_thread x y (img : list F) old :
  Hh < 2 ^ 31 ->
  0 <= x < W -> 0 <= y < Hh -> Z.of_nat (length img) = 4 * (W * Hh) ->
  pixel W img x y = Some old ->
  Kernels.kernelClearImageSnowflake cu (x, y) img
  = Ok (set_pixel W img x y
          (Float4 (snow_grey Hh y) (snow_grey Hh y) (snow_grey Hh y) (f_lit 1))).
Proof.
  intros H31 Hx Hy Hl _. unfold Kernels.kernelClearImageSnowflake. fold W Hh.
  rewrite (in_image x y Hx Hy). unfold Int32.sub.
  rewrite (wrap_small (Hh - y)) by (unfold is_int; lia).
  apply store_pixel; assumption.
Qed.

Lemma clearImage_pixels (image : list F) :
  W + 16 < 2 ^ 31 -> Hh + 16 < 2 ^ 31 ->
  Z.of_nat (length image) = 4 * (W * Hh) ->
  exists image', Kernels.clearImage cu image = Ok image' /\
    map_pixels W Hh
      (fun _ y _ =>
         if is_snow (sceneName cu)
         then Float4 (snow_grey Hh y) (snow_grey Hh y) (snow_grey Hh y) (f_lit 1)
         else Float4 (f_lit 1) (f_lit 1) (f_lit 1) (f_lit 1))
      image image'.
Proof.
  intros HW16 HH16 Hl. unfold Kernels.clearImage. fold W Hh.
  destruct (is_snow (sceneName cu)).
  - apply (pixel_launch W Hh _ (Kernels.kernelClearImageSnowflake cu) HW HH); try lia.
    + intros x y img old Hx Hy Hli Hold.
      apply (kernelClearImageSnowflake_thread x y img old); try assumption. lia.
    + intros x y img Hx Hy Hno. unfold Kernels.kernelClearImageSnowflake. fold W Hh.
      rewrite (off_image x y Hx Hy Hno). reflexivity.
  - apply (pixel_launch W Hh _
             (Kernels.kernelClearImage cu (f_lit 1) (f_lit 1) (f_lit 1) (f_lit 1)) HW HH);
      try lia.
    + intros x y img old Hx Hy Hli Hold.
      apply (kernelClearImage_thread _ _ _ _ x y img old); assumption.
    + intros x y img Hx Hy Hno. unfold Kernels.kernelClearImage. fold W Hh.
      rewrite (off_image x y Hx Hy Hno). reflexivity.
Qed.

End Clear.

(** X12: [clearImage] returns on an image of the renderer's size and sets
    every pixel of it: to the grey [.4 + .45 * (height - y) / height] of its
    row, with alpha 1, in the two snowflake scenes, and to white
    [(1, 1, 1, 1)] in the others; the threads beyond the right and lower
    edges of the image write nothing. *)
Theorem clearImage_sets_every_pixel {F : Type} `{FloatOps F} (cu : GlobalConstants F)
    (image : list F) :
  0 <= imageWidth cu -> 0 <= imageHeight cu ->
  imageWidth cu + 16 < 2 ^ 31 -> imageHeight cu + 16 < 2 ^ 31 ->
  4 * (imageWidth cu * imageHeight cu) < 2 ^ 31 ->
  Z.of_nat (length image) = 4 * (imageWidth cu * imageHeight cu) ->
  exists image', Kernels.clearImage cu image = Ok image' /\
    length image' = length image /\
    forall x y, 0 <= x < imageWidth cu -> 0 <= y < imageHeight cu ->
      pixel (imageWidth cu) image' x y
      = Some (if is_snow (sceneName cu)
              then Float4 (snow_grey (imageHeight cu) y) (snow_grey (imageHeight cu) y)
                          (snow_grey (imageHeight cu) y) (f_lit 1)
              else Float4 (f_lit 1) (f_lit 1) (f_lit 1) (f_lit 1)).
Proof.
  intros HW HH HW16 HH16 Hsz Hl.
  destruct (clearImage_pixels cu HW HH Hsz image HW16 HH16 Hl) as (image' & Hrun & Hlen & Hpix).
  exists image'. split; [exact Hrun|]. split; [exact Hlen|].
  intros x y Hx Hy. rewrite (Hpix x y Hx Hy).
  destruct (pixel_some _ _ HW image x y Hl Hx Hy) as [old ->]. reflexivity.
Qed.

Lemma clearImage_sets_every_pixel_witness :
  exists image', Kernels.clearImage one_circle (replicate 100 0%Q) = Ok image' /\
    length image' = length (replicate 100 0%Q) /\
    forall x y, 0 <= x < imageWidth one_circle -> 0 <= y < imageHeight one_circle ->
      pixel (imageWidth one_circle) image' x y
      = Some (if is_snow (sceneName one_circle)
              then Float4 (snow_grey (imageHeight one_circle) y)
                          (snow_grey (imageHeight one_circle) y)
                          (snow_grey (imageHeight one_circle) y) (f_lit 1)
              else Float4 (f_lit 1) (f_lit 1) (f_lit 1) (f_lit 1)).
Proof.
  apply (clearImage_sets_every_pixel one_circle (replicate 100 0%Q)).
  - simpl; lia.
  - simpl; lia.
  - simpl; lia.
  - simpl; lia.
  - simpl; lia.
  - reflexivity.
Defined.

(** ** The hypnosis animation *)

Lemma step_insert {A : Type} (f : A -> A) (l : list A) (n : nat) (v : A) :
  l !! n = Some v ->
  <[n := f v]> ((f <$> take n l) ++ drop n l) = (f <$> take (S n) l) ++ drop (S n) l.
Proof.
  intros Hv. pose proof (lookup_lt_Some _ _ _ Hv) as Hn.
  rewrite (take_S_r l n v Hv), fmap_app, <- app_assoc. cbn [fmap list_fmap app].
  rewrite insert_app_r_alt by (rewrite length_fmap, length_take; lia).
  rewrite length_fmap, length_take. replace (n - n `min` length l)%nat with 0%nat by lia.
  rewrite (drop_S l v n Hv). reflexivity.
Qed.

(** X13: one step of the hypnosis animation on a scene of [N] circles
    replaces the radius of every circle, once: by 0.02 when it is above
    0.5, and by itself plus 0.01 when it is not; the threads from [N] on
    (the last block is padded to 256 threads) write nothing. *)
Theorem advanceHypnosis_steps_every_radius {F : Type} `{FloatOps F}
    (cu : GlobalConstants F) (radius : list F) :
  0 <= numberOfCircles cu -> numberOfCircles cu + 256 < 2 ^ 31 ->
  Z.of_nat (length radius) = numberOfCircles cu ->
  Kernels.advanceHypnosis cu radius = Ok (hypnosis_step <$> radius).
Proof.
  intros HN H31 Hl. set (N := numberOfCircles cu) in *.
  unfold Kernels.advanceHypnosis. fold N.
  destruct (ceil_div_bounds N 256 HN ltac:(lia) H31) as [Hg Hcover].
  set (gridDim := Int32.div (Int32.sub (Int32.add N 256) 1) 256) in *.
  unfold launch1D. rewrite grid1D_seqZ by lia.
  destruct (foldM_seqZ_inv
    (fun c r => r = (hypnosis_step <$> take (Z.to_nat c) radius) ++ drop (Z.to_nat c) radius)
    (Kernels.kernelAdvanceHypnosis cu) (gridDim * 256) radius) as (r' & Hrun & Hinv).
  - reflexivity.
  - intros c r Hc ->. unfold Kernels.kernelAdvanceHypnosis. fold N.
    destruct (Z.geb_spec c N) as [Hge|Hlt].
    + eexists. split; [reflexivity|].
      rewrite !take_ge, !drop_ge by lia. reflexivity.
    + destruct (lookup_lt_is_Some_2 radius (Z.to_nat c)) as [v Hv]; [lia|].
      set (cur := (hypnosis_step <$> take (Z.to_nat c) radius) ++ drop (Z.to_nat c) radius).
      assert (Hcur : cur !! Z.to_nat c = Some v).
      { unfold cur. rewrite lookup_app_r by (rewrite length_fmap, length_take; lia).
        rewrite length_fmap, length_take, lookup_drop. rewrite <- Hv. f_equal. lia. }
      assert (Hlen : Z.of_nat (length cur) = N).
      { unfold cur. rewrite length_app, length_fmap, length_take, length_drop. lia. }
      rewrite (load_lookup cur c v) by (lia || exact Hcur). rewrite bind_Ok.
      replace (Z.to_nat (c + 1)) with (S (Z.to_nat c)) by lia.
      rewrite <- (step_insert hypnosis_step radius (Z.to_nat c) v Hv). fold cur.
      unfold hypnosis_step. destruct (fgt v (f_lit (1 # 2))).
      * eexists. split; [apply store_ok; lia|]. reflexivity.
      * rewrite bind_Ok. eexists. split; [apply store_ok; lia|]. reflexivity.
  - rewrite Hrun. f_equal. rewrite Hinv.
    rewrite take_ge, drop_ge by lia. apply app_nil_r.
Qed.

Lemma advanceHypnosis_steps_every_radius_witness :
  Kernels.advanceHypnosis (flat_scene 3 [] [] [1 # 10; 6 # 10; 1 # 2]%Q 5 5)
    [1 # 10; 6 # 10; 1 # 2]%Q
  = Ok (hypnosis_step <$> [1 # 10; 6 # 10; 1 # 2]%Q).
Proof.
  apply (advanceHypnosis_steps_every_radius
           (flat_scene 3 [] [] [1 # 10; 6 # 10; 1 # 2]%Q 5 5) [1 # 10; 6 # 10; 1 # 2]%Q).
  - simpl; lia.
  - simpl; lia.
  - reflexivity.
Defined.

(** ** Rendering through [shadePixel] *)

Section Shade.

Context {F : Type} `{FloatOps F}.
Variable lookupColor : F -> float3 F.
Variable cu : GlobalConstants F.
Let N := numberOfCircles cu.
Let W := imageWidth cu.
Let Hh := imageHeight cu.
Hypothesis H3N : 0 <= 3 * N < 2 ^ 31.
Hypothesis Hpos : Z.of_nat (length (position cu)) = 3 * N.
Hypothesis Hrad : Z.of_nat (length (radius cu)) = N.
Hypothesis Hcol : Z.of_nat (length (color cu)) = 3 * N.
Hypothesis HW : 0 <= W.
Hypothesis HH : 0 <= Hh.
Hypothesis Hsz : 4 * (W * Hh) < 2 ^ 31.

(** [shadePixel] lays circle [c] over the pixel, or leaves the image as it
    is when the circle does not reach the pixel centre. *)
Lemma shadePixel_paint (pc : F * F) (c : Z) (p : float3 F) (rad : F)
    (img : list F) x y old :
  0 <= c < N -> circle_at cu c = Some (p, rad) ->
  0 <= x < W -> 0 <= y < Hh -> Z.of_nat (length img) = 4 * (W * Hh) ->
  pixel W img x y = Some old ->
  Kernels.shadePixel lookupColor cu pc p (4 * (y * W + x)) c img
  = Ok (set_pixel W img x y (paint lookupColor cu pc old c)).
Proof.
  intros Hc Hat Hx Hy Hl Hold. pose proof (pixel_index W Hh HW x y Hx Hy) as Hk.
  destruct (circle_at_some cu N Hpos Hrad c Hc) as (p' & rad' & Hat' & _ & Hr).
  rewrite Hat in Hat'. injection Hat' as <- <-.
  unfold Kernels.shadePixel. rewrite Hr, bind_Ok.
  change (fadd (fmul (fsub (x3 p) pc.1) (fsub (x3 p) pc.1))
               (fmul (fsub (y3 p) pc.2) (fsub (y3 p) pc.2)))
    with (dist2 p pc).
  destruct (fgt (dist2 p pc) (fmul rad rad)) eqn:Hout.
  - assert (Hcov : covers cu pc c = false) by (unfold covers; rewrite Hat, Hout; reflexivity).
    rewrite (paint_off lookupColor cu pc old c Hcov).
    rewrite (set_pixel_id W img x y old Hold). reflexivity.
  - destruct (shade_paint lookupColor cu N H3N Hrad Hcol pc c p rad old Hc Hat Hout)
      as (sh & Hsh & Hcomp).
    rewrite Hsh, bind_Ok. rewrite (load4_pixel W img x y old) by (lia || exact Hold).
    rewrite bind_Ok, Hcomp. apply store4_pixel; lia.
Qed.

Lemma next_index (i : Z) : 0 <= i < N -> add i 1 = i + 1.
Proof. intros Hi. apply wrap_small. unfold is_int. lia. Qed.

Lemma position_index (c : Z) : 0 <= c < N -> mul 3 c = 3 * c.
Proof. intros Hc. apply wrap_small. unfold is_int. lia. Qed.

(** The loop of [kernelRenderPixels] from circle [i] on. *)
Lemma renderPixels_loop_fold (pc : F * F) x y (n : nat) :
  0 <= x < W -> 0 <= y < Hh ->
  forall (fuel : nat) (i : Z) (img : list F) old,
    0 <= i -> i + Z.of_nat n = N -> (n < fuel)%nat ->
    Z.of_nat (length img) = 4 * (W * Hh) -> pixel W img x y = Some old ->
    Kernels.renderPixels_loop lookupColor cu fuel pc (4 * (y * W + x)) i img
    = Ok (set_pixel W img x y
            (fold_left (paint lookupColor cu pc) (seqZ i (Z.of_nat n)) old)).
Proof.
  intros Hx Hy. induction n as [|n IH]; intros fuel i img old Hi Hn Hfuel Hl Hold.
  - destruct fuel as [|fuel]; [lia|]. cbn [Kernels.renderPixels_loop]. fold N.
    destruct (Z.ltb_spec i N); [lia|]. rewrite seqZ_nil by lia. cbn [fold_left].
    rewrite (set_pixel_id W img x y old Hold). reflexivity.
  - destruct fuel as [|fuel]; [lia|]. cbn [Kernels.renderPixels_loop]. fold N.
    destruct (Z.ltb_spec i N); [|lia].
    destruct (circle_at_some cu N Hpos Hrad i ltac:(lia)) as (p & rad & Hat & Hp & _).
    rewrite position_index, Hp, bind_Ok by lia.
    rewrite (shadePixel_paint pc i p rad img x y old) by (assumption || lia).
    rewrite bind_Ok, next_index by lia.
    rewrite (IH fuel (i + 1) _ (paint lookupColor cu pc old i)); try lia.
    + rewrite set_pixel_twice. rewrite (seqZ_cons i (Z.of_nat (S n))) by lia.
      cbn [fold_left]. do 4 f_equal; lia.
    + rewrite set_pixel_length. exact Hl.
    + rewrite (pixel_set_pixel W Hh HW img x y _ x y Hl) by lia.
      rewrite decide_True by reflexivity. reflexivity.
Qed.

Lemma kernelRenderPixels_thread x y (img : list F) old :
  0 <= x < W -> 0 <= y < Hh -> Z.of_nat (length img) = 4 * (W * Hh) ->
  pixel W img x y = Some old ->
  Kernels.kernelRenderPixels lookupColor cu (x, y) img
  = Ok (set_pixel W img x y
          (fold_left (paint lookupColor cu (pixel_center cu x y)) (seqZ 0 N) old)).
Proof.
  intros Hx Hy Hl Hold. unfold Kernels.kernelRenderPixels.
  rewrite (in_image cu x y Hx Hy). fold W Hh N. rewrite (offset_ok W Hh HW x y Hsz Hx Hy).
  rewrite (renderPixels_loop_fold _ x y (Z.to_nat N) Hx Hy _ 0 img old); try lia; try assumption.
  rewrite Z2Nat.id by lia. reflexivity.
Qed.

(** The loop of [kernelRenderPixelsNew] over the rest of a tile's list. *)
Lemma renderPixelsNew_loop_fold (lst : buf) (blk : Z) (pc : F * F) x y :
  0 <= x < W -> 0 <= y < Hh ->
  0 <= blk * N -> blk * N + N <= Z.of_nat (length lst) < 2 ^ 31 ->
  forall (rest done : list Z) (fuel : nat) (img : list F) old,
    live_row N lst blk (done ++ rest) -> (length rest < fuel)%nat ->
    Z.of_nat (length img) = 4 * (W * Hh) -> pixel W img x y = Some old ->
    Kernels.renderPixelsNew_loop lookupColor cu fuel lst blk N pc (4 * (y * W + x))
      (Z.of_nat (length done)) img
    = Ok (set_pixel W img x y (fold_left (paint lookupColor cu pc) rest old)).
Proof.
  intros Hx Hy Hblk Hlst.
  induction rest as [|c rest IH]; intros done fuel img old (Hlen & Hlive & Hend) Hfuel Hl Hold.
  - destruct fuel as [|fuel]; [simpl in Hfuel; lia|].
    cbn [Kernels.renderPixelsNew_loop fold_left].
    rewrite app_nil_r in Hlen, Hend. rewrite (set_pixel_id W img x y old Hold).
    destruct (Z.ltb_spec (Z.of_nat (length done)) N) as [Hlt|Hge]; [|reflexivity].
    assert (Emul : mul blk N = blk * N) by (apply wrap_small; unfold is_int; lia).
    assert (Eidx : add (blk * N) (Z.of_nat (length done)) = blk * N + Z.of_nat (length done))
      by (apply wrap_small; unfold is_int; lia).
    rewrite Emul, Eidx, load_ok, bind_Ok by lia.
    specialize (Hend Hlt).
    destruct (Z.ltb_spec (get lst (blk * N + Z.of_nat (length done))) 0); [reflexivity|lia].
  - destruct fuel as [|fuel]; [simpl in Hfuel; lia|].
    cbn [Kernels.renderPixelsNew_loop fold_left].
    rewrite length_app in Hlen. simpl in Hlen, Hfuel.
    destruct (Hlive (length done) c) as [Hget Hc].
    { rewrite lookup_app_r by lia. rewrite Nat.sub_diag. reflexivity. }
    destruct (Z.ltb_spec (Z.of_nat (length done)) N) as [Hlt|Hge]; [|lia].
    assert (Emul : mul blk N = blk * N) by (apply wrap_small; unfold is_int; lia).
    assert (Eidx : add (blk * N) (Z.of_nat (length done)) = blk * N + Z.of_nat (length done))
      by (apply wrap_small; unfold is_int; lia).
    assert (Enext : add (Z.of_nat (length done)) 1 = Z.of_nat (length (done ++ [c]))).
    { rewrite length_app. simpl. unfold add. rewrite wrap_small by (unfold is_int; lia). lia. }
    rewrite Emul, Eidx, load_ok, bind_Ok by lia. rewrite Hget.
    destruct (Z.ltb_spec c 0); [lia|].
    destruct (circle_at_some cu N Hpos Hrad c Hc) as (p & rad & Hat & Hp & _).
    rewrite position_index, Hp, bind_Ok by lia.
    rewrite (shadePixel_paint pc c p rad img x y old) by (assumption || lia).
    rewrite bind_Ok, Enext.
    assert (Hrow' : live_row N lst blk ((done ++ [c]) ++ rest)).
    { rewrite <- app_assoc. simpl. split; [rewrite length_app; simpl; lia|].
      split; assumption. }
    rewrite (IH (done ++ [c]) fuel _ (paint lookupColor cu pc old c) Hrow'); try lia.
    + rewrite set_pixel_twice. reflexivity.
    + rewrite set_pixel_length. exact Hl.
    + rewrite (pixel_set_pixel W Hh HW img x y _ x y Hl) by lia.
      rewrite decide_True by reflexivity. reflexivity.
Qed.

Lemma kernelRenderPixelsNew_thread (lst : buf) (blockSize : Z) (cs : list Z) x y
    (img : list F) old :
  0 <= x < W -> 0 <= y < Hh ->
  0 <= pixel_block cu blockSize x y * N ->
  pixel_block cu blockSize x y * N + N <= Z.of_nat (length lst) < 2 ^ 31 ->
  live_row N lst (pixel_block cu blockSize x y) cs ->
  Z.of_nat (length img) = 4 * (W * Hh) -> pixel W img x y = Some old ->
  Kernels.kernelRenderPixelsNew lookupColor cu lst blockSize (x, y) img
  = Ok (set_pixel W img x y
          (fold_left (paint lookupColor cu (pixel_center cu x y)) cs old)).
Proof.
  intros Hx Hy Hblk Hlst Hrow Hl Hold. unfold Kernels.kernelRenderPixelsNew.
  rewrite (in_image cu x y Hx Hy). fold W Hh N. rewrite (offset_ok W Hh HW x y Hsz Hx Hy).
  apply (renderPixelsNew_loop_fold lst _ _ x y Hx Hy Hblk Hlst cs [] (S (Z.to_nat N)) img old);
    try assumption.
  destruct Hrow as [Hlen _]. lia.
Qed.

End Shade.

(** X14: the tile of a pixel is one of the tiles that [setup] sizes the
    tile buffers by: for every pixel of the image the block id that the
    pixel kernels compute, [(y / blockSize) * gridXSize + x / blockSize],
    lies in [0 .. numBlocks - 1]. *)
Theorem pixel_block_in_grid {F : Type} (cu : GlobalConstants F) (blockSize x y : Z) :
  1 <= blockSize -> 0 <= x < imageWidth cu -> 0 <= y < imageHeight cu ->
  imageWidth cu + blockSize < 2 ^ 31 -> imageHeight cu + blockSize < 2 ^ 31 ->
  div (sub (add (imageWidth cu) blockSize) 1) blockSize
  * div (sub (add (imageHeight cu) blockSize) 1) blockSize < 2 ^ 31 ->
  0 <= pixel_block cu blockSize x y < Kernels.setup_numBlocks cu blockSize.
Proof.
  intros Hbs Hx Hy HWb HHb Htiles.
  apply pixel_block_bounds; (assumption || lia).
Qed.

Lemma pixel_block_in_grid_witness :
  0 <= pixel_block corner_circle 64 100 70 < Kernels.setup_numBlocks corner_circle 64.
Proof.
  apply (pixel_block_in_grid corner_circle 64 100 70).
  - lia.
  - simpl; lia.
  - simpl; lia.
  - simpl; lia.
  - simpl; lia.
  - vm_compute; reflexivity.
Defined.

Lemma map_pixels_some {F : Type} (W Hh : Z) (g : Z -> Z -> float4 F -> float4 F)
    (image image' : list F) x y old :
  map_pixels W Hh g image image' -> 0 <= x < W -> 0 <= y < Hh ->
  pixel W image x y = Some old -> pixel W image' x y = Some (g x y old).
Proof. intros [_ Hpix] Hx Hy Hold. rewrite (Hpix x y Hx Hy), Hold. reflexivity. Qed.

Lemma fold_left_filter {A B : Type} (f : B -> A -> B) (P : A -> Prop)
    `{forall a, Decision (P a)} (l : list A) :
  (forall a e, a ∈ l -> ~ P a -> f e a = e) ->
  forall e, fold_left f (filter P l) e = fold_left f l e.
Proof.
  induction l as [|a l IH]; intros Hskip e; [reflexivity|].
  assert (Hrest : forall a' e', a' ∈ l -> ~ P a' -> f e' a' = e')
    by (intros a' e' Hin; apply Hskip; right; exact Hin).
  destruct (decide (P a)) as [Hp|Hp].
  - rewrite filter_cons_True by exact Hp. cbn [fold_left]. apply IH. exact Hrest.
  - rewrite filter_cons_False by exact Hp. cbn [fold_left].
    rewrite (Hskip a e ltac:(left) Hp). apply IH. exact Hrest.
Qed.

Section RenderLaunches.

Context {F : Type} `{FloatOps F}.
Variable lookupColor : F -> float3 F.
Variable cu : GlobalConstants F.
Let N := numberOfCircles cu.
Let W := imageWidth cu.
Let Hh := imageHeight cu.
Hypothesis H3N : 0 <= 3 * N < 2 ^ 31.
Hypothesis Hpos : Z.of_nat (length (position cu)) = 3 * N.
Hypothesis Hrad : Z.of_nat (length (radius cu)) = N.
Hypothesis Hcol : Z.of_nat (length (color cu)) = 3 * N.
Hypothesis HW : 0 <= W.
Hypothesis HH : 0 <= Hh.
Hypothesis Hsz : 4 * (W * Hh) < 2 ^ 31.

Lemma renderPixels_launch (b : Z) (image : list F) :
  0 < b -> W + b < 2 ^ 31 -> Hh + b < 2 ^ 31 ->
  Z.of_nat (length image) = 4 * (W * Hh) ->
  exists image',
    foldM (Kernels.kernelRenderPixels lookupColor cu)
      (grid2D (div (sub (add W b) 1) b) (div (sub (add Hh b) 1) b) b b) image = Ok image' /\
    map_pixels W Hh
      (fun x y => fold_left (paint lookupColor cu (pixel_center cu x y)) (seqZ 0 N))
      image image'.
Proof.
  intros Hb HWb HHb Hl.
  apply (pixel_launch W Hh _ (Kernels.kernelRenderPixels lookupColor cu) HW HH);
    try assumption.
  - intros x y img old Hx Hy Hli Hold.
    apply (kernelRenderPixels_thread lookupColor cu H3N Hpos Hrad Hcol HW Hsz); assumption.
  - intros x y img Hx Hy Hno. unfold Kernels.kernelRenderPixels.
    rewrite (off_image cu x y Hx Hy Hno). reflexivity.
Qed.

Variables (blockSize numBlocks : Z) (hit lst0 lst : buf).
Hypothesis Hbs : 1 <= blockSize.
Hypothesis HN : 1 <= N.
Hypothesis HWb : W + blockSize < 2 ^ 31.
Hypothesis HHb : Hh + blockSize < 2 ^ 31.
Hypothesis Htiles :
  div (sub (add W blockSize) 1) blockSize * div (sub (add Hh blockSize) 1) blockSize
  < 2 ^ 31.
Hypothesis Hnb : numBlocks = Kernels.setup_numBlocks cu blockSize.
Hypothesis Hll : Z.of_nat (length lst) = numBlocks * N.
Hypothesis Hl31 : numBlocks * N < 2 ^ 31.
Hypothesis Hrows : forall t, 0 <= t < numBlocks -> row_built hit lst0 N t lst.

Lemma pixel_row x y :
  0 <= x < W -> 0 <= y < Hh ->
  0 <= pixel_block cu blockSize x y * N
  /\ pixel_block cu blockSize x y * N + N <= Z.of_nat (length lst) < 2 ^ 31
  /\ live_row N lst (pixel_block cu blockSize x y)
       (hits_before hit N (pixel_block cu blockSize x y) N).
Proof.
  intros Hx Hy.
  pose proof (pixel_block_bounds cu blockSize Hbs HW HH HWb HHb Htiles x y Hx Hy) as Hb.
  rewrite <- Hnb in Hb.
  destruct (row_in_grid N numBlocks _ HN Hb) as [Hr0 Hr1].
  split; [exact Hr0|]. split; [lia|].
  apply (row_built_live hit lst0); [lia|]. apply Hrows. exact Hb.
Qed.

Lemma renderPixelsNew_launch (b : Z) (image : list F) :
  0 < b -> W + b < 2 ^ 31 -> Hh + b < 2 ^ 31 ->
  Z.of_nat (length image) = 4 * (W * Hh) ->
  exists image',
    foldM (Kernels.kernelRenderPixelsNew lookupColor cu lst blockSize)
      (grid2D (div (sub (add W b) 1) b) (div (sub (add Hh b) 1) b) b b) image = Ok image' /\
    map_pixels W Hh
      (fun x y =>
         fold_left (paint lookupColor cu (pixel_center cu x y))
           (hits_before hit N (pixel_block cu blockSize x y) N))
      image image'.
Proof.
  intros Hb HWb' HHb' Hl.
  apply (pixel_launch W Hh _ (Kernels.kernelRenderPixelsNew lookupColor cu lst blockSize) HW HH);
    try assumption.
  - intros x y img old Hx Hy Hli Hold.
    destruct (pixel_row x y Hx Hy) as (Hr0 & Hr1 & Hlive).
    apply (kernelRenderPixelsNew_thread lookupColor cu H3N Hpos Hrad Hcol HW Hsz);
      assumption.
  - intros x y img Hx Hy Hno. unfold Kernels.kernelRenderPixelsNew.
    rewrite (off_image cu x y Hx Hy Hno). reflexivity.
Qed.

End RenderLaunches.

(** The circles that the list leaves out do not reach the pixel. *)
Lemma culled_fold {F : Type} `{FloatOps F} (lookupColor : F -> float3 F)
    (cu : GlobalConstants F) (hit : buf) (blk : Z) (pc : F * F) (e : float4 F) :
  (forall c, 0 <= c < numberOfCircles cu -> covers cu pc c = true ->
     get hit (blk * numberOfCircles cu + c) = 1) ->
  fold_left (paint lookupColor cu pc) (hits_before hit (numberOfCircles cu) blk
                                         (numberOfCircles cu)) e
  = fold_left (paint lookupColor cu pc) (seqZ 0 (numberOfCircles cu)) e.
Proof.
  intros Hsound. unfold hits_before. apply fold_left_filter.
  intros c e' Hc Hnot. apply elem_of_seqZ in Hc. apply paint_off.
  destruct (covers cu pc c) eqn:Hcov; [|reflexivity].
  exfalso. apply Hnot. apply Hsound; [lia|exact Hcov].
Qed.

(** Two images with the same pixels are the same image. *)
Lemma image_ext {F : Type} (W Hh : Z) (a b : list F) :
  0 <= W -> 0 <= Hh ->
  Z.of_nat (length a) = 4 * (W * Hh) -> Z.of_nat (length b) = 4 * (W * Hh) ->
  (forall x y, 0 <= x < W -> 0 <= y < Hh -> pixel W a x y = pixel W b x y) ->
  a = b.
Proof.
  intros HW HH Ha Hb Hpix. apply list_eq. intros i.
  destruct (Nat.lt_ge_cases i (length a)) as [Hi|Hi].
  2:{ rewrite !lookup_ge_None_2 by lia. reflexivity. }
  assert (HWpos : 0 < W) by (destruct (Z.eq_dec W 0) as [->|]; lia).
  set (k := Z.of_nat i / 4). set (j := Z.of_nat i mod 4).
  pose proof (Z.div_mod (Z.of_nat i) 4 ltac:(lia)) as Dk. fold k j in Dk.
  pose proof (Z.mod_pos_bound (Z.of_nat i) 4 ltac:(lia)) as Bj. fold j in Bj.
  assert (Bk : 0 <= k < W * Hh).
  { split; [apply Z.div_pos; lia|]. apply Z.div_lt_upper_bound; lia. }
  pose proof (Z.div_mod k W ltac:(lia)) as Dx.
  pose proof (Z.mod_pos_bound k W HWpos) as Bx.
  assert (By : 0 <= k / W < Hh).
  { split; [apply Z.div_pos; lia|]. apply Z.div_lt_upper_bound; lia. }
  specialize (Hpix (k mod W) (k / W) Bx By). unfold pixel in Hpix.
  replace (k / W * W + k mod W) with k in Hpix by lia.
  set (off := Z.to_nat (4 * k)) in Hpix.
  destruct (lookup_lt_is_Some_2 a off) as [a0 Ea0]; [lia|].
  destruct (lookup_lt_is_Some_2 a (S off)) as [a1 Ea1]; [lia|].
  destruct (lookup_lt_is_Some_2 a (S (S off))) as [a2 Ea2]; [lia|].
  destruct (lookup_lt_is_Some_2 a (S (S (S off)))) as [a3 Ea3]; [lia|].
  destruct (lookup_lt_is_Some_2 b off) as [b0 Eb0]; [lia|].
  destruct (lookup_lt_is_Some_2 b (S off)) as [b1 Eb1]; [lia|].
  destruct (lookup_lt_is_Some_2 b (S (S off))) as [b2 Eb2]; [lia|].
  destruct (lookup_lt_is_Some_2 b (S (S (S off)))) as [b3 Eb3]; [lia|].
  rewrite Ea0, Ea1, Ea2, Ea3, Eb0, Eb1, Eb2, Eb3 in Hpix.
  injection Hpix as -> -> -> ->.
  assert (Hj : j = 0 \/ j = 1 \/ j = 2 \/ j = 3) by lia.
  destruct Hj as [Hj | [Hj | [Hj | Hj]]].
  - replace i with off by lia. congruence.
  - replace i with (S off) by lia. congruence.
  - replace i with (S (S off)) by lia. congruence.
  - replace i with (S (S (S off))) by lia. congruence.
Qed.

Lemma map_pixels_unique {F : Type} (W Hh : Z) (g : Z -> Z -> float4 F -> float4 F)
    (image a b : list F) :
  0 <= W -> 0 <= Hh -> Z.of_nat (length image) = 4 * (W * Hh) ->
  map_pixels W Hh g image a -> map_pixels W Hh g image b -> a = b.
Proof.
  intros HW HH Hl [Hla Ha] [Hlb Hb].
  apply (image_ext W Hh); [assumption|assumption|lia|lia|].
  intros x y Hx Hy. rewrite (Ha x y Hx Hy), (Hb x y Hx Hy). reflexivity.
Qed.

Lemma map_pixels_ext {F : Type} (W Hh : Z) (g g' : Z -> Z -> float4 F -> float4 F)
    (image a : list F) :
  (forall x y old, 0 <= x < W -> 0 <= y < Hh -> g x y old = g' x y old) ->
  map_pixels W Hh g image a -> map_pixels W Hh g' image a.
Proof.
  intros Hext [Hl Ha]. split; [exact Hl|]. intros x y Hx Hy. rewrite (Ha x y Hx Hy).
  destruct (pixel W image x y) as [old|]; [|reflexivity].
  cbn [fmap option_fmap option_map]. f_equal. apply Hext; assumption.
Qed.

(** X15: [kernelRenderPixels], launched over a grid of [b] by [b] blocks
    that covers the image, returns and leaves in every pixel the colour it
    held with every circle of the scene laid over it by [shadePixel], in
    the order of the circle indices (the circles that do not reach the
    pixel centre leave it as it is). *)
Theorem kernelRenderPixels_composites_all {F : Type} `{FloatOps F}
    (lookupColor : F -> float3 F) (cu : GlobalConstants F) (b : Z) (image : list F) :
  let N := numberOfCircles cu in
  let W := imageWidth cu in
  let Hh := imageHeight cu in
  0 <= 3 * N < 2 ^ 31 ->
  Z.of_nat (length (position cu)) = 3 * N ->
  Z.of_nat (length (radius cu)) = N ->
  Z.of_nat (length (color cu)) = 3 * N ->
  0 <= W -> 0 <= Hh -> 4 * (W * Hh) < 2 ^ 31 ->
  0 < b -> W + b < 2 ^ 31 -> Hh + b < 2 ^ 31 ->
  Z.of_nat (length image) = 4 * (W * Hh) ->
  exists image',
    foldM (Kernels.kernelRenderPixels lookupColor cu)
      (grid2D (div (sub (add W b) 1) b) (div (sub (add Hh b) 1) b) b b) image = Ok image' /\
    length image' = length image /\
    forall x y old, 0 <= x < W -> 0 <= y < Hh -> pixel W image x y = Some old ->
      pixel W image' x y
      = Some (fold_left (paint lookupColor cu (pixel_center cu x y)) (seqZ 0 N) old).
Proof.
  intros N W Hh H3N Hpos Hrad Hcol HW HH Hsz Hb HWb HHb Hl.
  destruct (renderPixels_launch lookupColor cu H3N Hpos Hrad Hcol HW HH Hsz b image
              Hb HWb HHb Hl) as (image' & Hrun & Hmap).
  exists image'. split; [exact Hrun|]. split; [apply Hmap|].
  intros x y old Hx Hy Hold.
  apply (map_pixels_some _ _ _ _ _ x y old Hmap Hx Hy Hold).
Qed.

Lemma kernelRenderPixels_composites_all_witness :
  exists image',
    foldM (Kernels.kernelRenderPixels no_lookup two_circles)
      (grid2D (div (sub (add 5 32) 1) 32) (div (sub (add 5 32) 1) 32) 32 32)
      (white_image 25) = Ok image' /\
    length image' = length (white_image 25) /\
    forall x y old, 0 <= x < 5 -> 0 <= y < 5 ->
      pixel 5 (white_image 25) x y = Some old ->
      pixel 5 image' x y
      = Some (fold_left (paint no_lookup two_circles (pixel_center two_circles x y))
                (seqZ 0 2) old).
Proof.
  apply (kernelRenderPixels_composites_all no_lookup two_circles 32 (white_image 25)).
  - simpl; lia.
  - reflexivity.
  - reflexivity.
  - reflexivity.
  - simpl; lia.
  - simpl; lia.
  - simpl; lia.
  - lia.
  - simpl; lia.
  - simpl; lia.
  - reflexivity.
Defined.

(** X16: [kernelRenderPixelsNew], launched over a grid that covers the
    image on the lists that the list-build stage has built, returns and
    leaves in every pixel the colour it held with the circles that hit the
    pixel's tile laid over it, in increasing order of their indices. *)
Theorem kernelRenderPixelsNew_composites_tile {F : Type} `{FloatOps F}
    (lookupColor : F -> float3 F) (cu : GlobalConstants F)
    (blockSize numBlocks b : Z) (hit lst0 lst : buf) (image : list F) :
  let N := numberOfCircles cu in
  let W := imageWidth cu in
  let Hh := imageHeight cu in
  1 <= N -> 0 <= 3 * N < 2 ^ 31 ->
  Z.of_nat (length (position cu)) = 3 * N ->
  Z.of_nat (length (radius cu)) = N ->
  Z.of_nat (length (color cu)) = 3 * N ->
  0 <= W -> 0 <= Hh -> 4 * (W * Hh) < 2 ^ 31 ->
  1 <= blockSize -> W + blockSize < 2 ^ 31 -> Hh + blockSize < 2 ^ 31 ->
  div (sub (add W blockSize) 1) blockSize * div (sub (add Hh blockSize) 1) blockSize
  < 2 ^ 31 ->
  numBlocks = Kernels.setup_numBlocks cu blockSize ->
  Z.of_nat (length lst) = numBlocks * N -> numBlocks * N < 2 ^ 31 ->
  (forall t, 0 <= t < numBlocks -> row_built hit lst0 N t lst) ->
  0 < b -> W + b < 2 ^ 31 -> Hh + b < 2 ^ 31 ->
  Z.of_nat (length image) = 4 * (W * Hh) ->
  exists image',
    foldM (Kernels.kernelRenderPixelsNew lookupColor cu lst blockSize)
      (grid2D (div (sub (add W b) 1) b) (div (sub (add Hh b) 1) b) b b) image = Ok image' /\
    length image' = length image /\
    forall x y old, 0 <= x < W -> 0 <= y < Hh -> pixel W image x y = Some old ->
      pixel W image' x y
      = Some (fold_left (paint lookupColor cu (pixel_center cu x y))
                (hits_before hit N (pixel_block cu blockSize x y) N) old).
Proof.
  intros N W Hh HN H3N Hpos Hrad Hcol HW HH Hsz Hbs HWbs HHbs Htiles Hnb Hll Hl31 Hrows
    Hb HWb HHb Hl.
  destruct (renderPixelsNew_launch lookupColor cu H3N Hpos Hrad Hcol HW HH Hsz
              blockSize numBlocks hit lst0 lst Hbs HN HWbs HHbs Htiles Hnb Hll Hl31 Hrows
              b image Hb HWb HHb Hl) as (image' & Hrun & Hmap).
  exists image'. split; [exact Hrun|]. split; [apply Hmap|].
  intros x y old Hx Hy Hold.
  apply (map_pixels_some _ _ _ _ _ x y old Hmap Hx Hy Hold).
Qed.

Lemma two_circles_rows :
  forall t, 0 <= t < 1 -> row_built [1; 1] [7; 7] 2 t [0; 1].
Proof.
  intros t Ht. assert (t = 0) as -> by lia. split; [|split].
  - intros s c. destruct s as [|[|s]]; vm_compute; intros Hs; inversion Hs; reflexivity.
  - vm_compute. intros Hc; discriminate Hc.
  - intros s Hs. exfalso. change (2 < s < 2) in Hs. lia.
Qed.

Lemma kernelRenderPixelsNew_composites_tile_witness :
  exists image',
    foldM (Kernels.kernelRenderPixelsNew no_lookup two_circles [0; 1] 64)
      (grid2D (div (sub (add 5 32) 1) 32) (div (sub (add 5 32) 1) 32) 32 32)
      (white_image 25) = Ok image' /\
    length image' = length (white_image 25) /\
    forall x y old, 0 <= x < 5 -> 0 <= y < 5 ->
      pixel 5 (white_image 25) x y = Some old ->
      pixel 5 image' x y
      = Some (fold_left (paint no_lookup two_circles (pixel_center two_circles x y))
                (hits_before [1; 1] 2 (pixel_block two_circles 64 x y) 2) old).
Proof.
  apply (kernelRenderPixelsNew_composites_tile no_lookup two_circles 64 1 32
           [1; 1] [7; 7] [0; 1] (white_image 25)).
  - simpl; lia.
  - simpl; lia.
  - reflexivity.
  - reflexivity.
  - reflexivity.
  - simpl; lia.
  - simpl; lia.
  - simpl; lia.
  - lia.
  - simpl; lia.
  - simpl; lia.
  - vm_compute; reflexivity.
  - reflexivity.
  - reflexivity.
  - simpl; lia.
  - exact two_circles_rows.
  - lia.
  - simpl; lia.
  - simpl; lia.
  - reflexivity.
Defined.

(** X17: culling by tiles loses nothing: when the hit matrix flags, for
    every pixel, every circle that reaches the pixel centre in the pixel's
    tile, [kernelRenderPixelsNew] on the built lists produces the very image
    that [kernelRenderPixels] computes from all the circles of the scene. *)
Theorem kernelRenderPixelsNew_agrees_with_all_circles {F : Type} `{FloatOps F}
    (lookupColor : F -> float3 F) (cu : GlobalConstants F)
    (blockSize numBlocks b : Z) (hit lst0 lst : buf) (image : list F) :
  let N := numberOfCircles cu in
  let W := imageWidth cu in
  let Hh := imageHeight cu in
  1 <= N -> 0 <= 3 * N < 2 ^ 31 ->
  Z.of_nat (length (position cu)) = 3 * N ->
  Z.of_nat (length (radius cu)) = N ->
  Z.of_nat (length (color cu)) = 3 * N ->
  0 <= W -> 0 <= Hh -> 4 * (W * Hh) < 2 ^ 31 ->
  1 <= blockSize -> W + blockSize < 2 ^ 31 -> Hh + blockSize < 2 ^ 31 ->
  div (sub (add W blockSize) 1) blockSize * div (sub (add Hh blockSize) 1) blockSize
  < 2 ^ 31 ->
  numBlocks = Kernels.setup_numBlocks cu blockSize ->
  Z.of_nat (length lst) = numBlocks * N -> numBlocks * N < 2 ^ 31 ->
  (forall t, 0 <= t < numBlocks -> row_built hit lst0 N t lst) ->
  (forall x y c, 0 <= x < W -> 0 <= y < Hh -> 0 <= c < N ->
     covers cu (pixel_center cu x y) c = true ->
     get hit (pixel_block cu blockSize x y * N + c) = 1) ->
  0 < b -> W + b < 2 ^ 31 -> Hh + b < 2 ^ 31 ->
  Z.of_nat (length image) = 4 * (W * Hh) ->
  exists image',
    foldM (Kernels.kernelRenderPixelsNew lookupColor cu lst blockSize)
      (grid2D (div (sub (add W b) 1) b) (div (sub (add Hh b) 1) b) b b) image = Ok image' /\
    foldM (Kernels.kernelRenderPixels lookupColor cu)
      (grid2D (div (sub (add W b) 1) b) (div (sub (add Hh b) 1) b) b b) image = Ok image'.
Proof.
  intros N W Hh HN H3N Hpos Hrad Hcol HW HH Hsz Hbs HWbs HHbs Htiles Hnb Hll Hl31 Hrows
    Hsound Hb HWb HHb Hl.
  destruct (renderPixelsNew_launch lookupColor cu H3N Hpos Hrad Hcol HW HH Hsz
              blockSize numBlocks hit lst0 lst Hbs HN HWbs HHbs Htiles Hnb Hll Hl31 Hrows
              b image Hb HWb HHb Hl) as (imageNew & HrunN & HmapN).
  destruct (renderPixels_launch lookupColor cu H3N Hpos Hrad Hcol HW HH Hsz b image
              Hb HWb HHb Hl) as (imageAll & HrunA & HmapA).
  subst N W Hh. exists imageNew. split; [exact HrunN|]. rewrite HrunA. f_equal.
  apply (map_pixels_unique _ _ _ image imageAll imageNew HW HH Hl HmapA).
  revert HmapN. apply map_pixels_ext. intros x y old Hx Hy.
  apply culled_fold. intros c Hc Hcov. apply Hsound; assumption.
Qed.

Lemma kernelRenderPixelsNew_agrees_with_all_circles_witness :
  exists image',
    foldM (Kernels.kernelRenderPixelsNew no_lookup two_circles [0; 1] 64)
      (grid2D (div (sub (add 5 32) 1) 32) (div (sub (add 5 32) 1) 32) 32 32)
      (white_image 25) = Ok image' /\
    foldM (Kernels.kernelRenderPixels no_lookup two_circles)
      (grid2D (div (sub (add 5 32) 1) 32) (div (sub (add 5 32) 1) 32) 32 32)
      (white_image 25) = Ok image'.
Proof.
  apply (kernelRenderPixelsNew_agrees_with_all_circles no_lookup two_circles 64 1 32
           [1; 1] [7; 7] [0; 1] (white_image 25)).
  - simpl; lia.
  - simpl; lia.
  - reflexivity.
  - reflexivity.
  - reflexivity.
  - simpl; lia.
  - simpl; lia.
  - simpl; lia.
  - lia.
  - simpl; lia.
  - simpl; lia.
  - vm_compute; reflexivity.
  - reflexivity.
  - reflexivity.
  - simpl; lia.
  - exact two_circles_rows.
  - intros x y c Hx Hy Hc _.
    assert (Ex : x = 0 \/ x = 1 \/ x = 2 \/ x = 3 \/ x = 4) by (simpl in Hx; lia).
    assert (Ey : y = 0 \/ y = 1 \/ y = 2 \/ y = 3 \/ y = 4) by (simpl in Hy; lia).
    assert (Ec : c = 0 \/ c = 1) by (simpl in Hc; lia).
    destruct Ex as [-> | [-> | [-> | [-> | ->]]]];
      destruct Ey as [-> | [-> | [-> | [-> | ->]]]];
      destruct Ec as [-> | ->]; reflexivity.
  - lia.
  - simpl; lia.
  - simpl; lia.
  - reflexivity.
Defined.

(** ** A frame *)

Lemma circle_flag_bit {F : Type} `{FloatOps F} (cu : GlobalConstants F) (blockSize t c : Z) :
  circle_flag cu blockSize t c = 0 \/ circle_flag cu blockSize t c = 1.
Proof.
  unfold circle_flag.
  destruct (position cu !! Z.to_nat (3 * c)); [|left; reflexivity].
  destruct (position cu !! Z.to_nat (3 * c + 1)); [|left; reflexivity].
  destruct (radius cu !! Z.to_nat c); [|left; reflexivity].
  destruct (box_overlap _ _ _ _); [right|left]; reflexivity.
Qed.

Lemma grid_cell (N nb i : Z) :
  1 <= N -> 0 <= i < nb * N -> exists t c, 0 <= t < nb /\ 0 <= c < N /\ i = t * N + c.
Proof.
  intros HN Hi. exists (i / N), (i mod N).
  pose proof (Z.mod_pos_bound i N ltac:(lia)). pose proof (Z.div_mod i N ltac:(lia)).
  split; [|split; [assumption|lia]].
  split; [apply Z.div_pos; lia|]. apply Z.div_lt_upper_bound; lia.
Qed.

(** Two tile buffers with the same cells are the same buffer. *)
Lemma grid_ext (N nb : Z) (a b : buf) :
  1 <= N -> Z.of_nat (length a) = nb * N -> Z.of_nat (length b) = nb * N ->
  (forall t c, 0 <= t < nb -> 0 <= c < N -> get a (t * N + c) = get b (t * N + c)) ->
  a = b.
Proof.
  intros HN Ha Hb Hcells. apply list_eq. intros i.
  destruct (Nat.lt_ge_cases i (length a)) as [Hi|Hi].
  - rewrite (get_lookup a i), (get_lookup b i) by lia. f_equal.
    destruct (grid_cell N nb (Z.of_nat i) HN ltac:(lia)) as (t & c & Ht & Hc & ->).
    apply Hcells; assumption.
  - rewrite !lookup_ge_None_2 by lia. reflexivity.
Qed.

Lemma grid_Forall (P : Z -> Prop) (N nb : Z) (a : buf) :
  1 <= N -> Z.of_nat (length a) = nb * N ->
  (forall t c, 0 <= t < nb -> 0 <= c < N -> P (get a (t * N + c))) -> Forall P a.
Proof.
  intros HN Ha Hcells. apply Forall_lookup. intros i x Hx.
  pose proof (lookup_lt_Some _ _ _ Hx) as Hi.
  destruct (grid_cell N nb (Z.of_nat i) HN ltac:(lia)) as (t & c & Ht & Hc & He).
  specialize (Hcells t c Ht Hc). rewrite <- He in Hcells.
  unfold get in Hcells. rewrite Nat2Z.id, Hx in Hcells. exact Hcells.
Qed.

Lemma filter_ext_in {A : Type} (P Q : A -> Prop) `{forall a, Decision (P a)}
    `{forall a, Decision (Q a)} (l : list A) :
  (forall a, a ∈ l -> (P a <-> Q a)) -> filter P l = filter Q l.
Proof.
  induction l as [|a l IH]; intros Hext; [reflexivity|].
  assert (Hrest : forall a', a' ∈ l -> (P a' <-> Q a'))
    by (intros a' Hin; apply Hext; right; exact Hin).
  destruct (decide (P a)) as [Hp|Hp].
  - rewrite filter_cons_True by exact Hp.
    rewrite (filter_cons_True Q) by (apply (Hext a ltac:(left)); exact Hp).
    f_equal. apply IH. exact Hrest.
  - rewrite filter_cons_False by exact Hp.
    rewrite (filter_cons_False Q) by (intros Hq; apply Hp, (Hext a ltac:(left)); exact Hq).
    apply IH. exact Hrest.
Qed.

Lemma hits_tile {F : Type} `{FloatOps F} (cu : GlobalConstants F) (blockSize t : Z)
    (hit : buf) :
  (forall c, 0 <= c < numberOfCircles cu ->
     get hit (t * numberOfCircles cu + c) = circle_flag cu blockSize t c) ->
  hits_before hit (numberOfCircles cu) t (numberOfCircles cu) = tile_circles cu blockSize t.
Proof.
  intros Hflags. unfold hits_before, tile_circles. apply filter_ext_in.
  intros c Hc. apply elem_of_seqZ in Hc. rewrite Hflags by lia. reflexivity.
Qed.

(** A launch in which one thread stops on an error, and every other thread
    returns an image of the same size or stops on the same error. *)
Lemma threads_fault {F A : Type} (thread : A -> list F -> outcome (list F)) (e : error)
    (L : nat) (l : list A) :
  (forall p img, p ∈ l -> length img = L ->
     thread p img = Err e \/ exists img', thread p img = Ok img' /\ length img' = L) ->
  (exists p, p ∈ l /\ forall img, length img = L -> thread p img = Err e) ->
  forall img, length img = L -> foldM thread l img = Err e.
Proof.
  induction l as [|a l IH]; intros Hall (p & Hp & Hbad) img Hl.
  - apply elem_of_nil in Hp. contradiction.
  - cbn [foldM]. destruct (Hall a img ltac:(left) Hl) as [He|(img' & Hok & Hl')].
    + rewrite He. reflexivity.
    + rewrite Hok, bind_Ok. apply IH; [| |exact Hl'].
      * intros q im Hq. apply Hall. right. exact Hq.
      * apply elem_of_cons in Hp as [->|Hp].
        -- rewrite (Hbad img Hl) in Hok. discriminate Hok.
        -- exists p. split; [exact Hp|exact Hbad].
Qed.

Section Frame.

Context {F : Type} `{FloatOps F}.
Variable lookupColor : F -> float3 F.
Variable cu : GlobalConstants F.
Variables (blockSize numBlocks : Z) (shared : Z -> Z -> Z) (hit0 prefixes0 lst0 : buf).
Let N := numberOfCircles cu.
Let W := imageWidth cu.
Let Hh := imageHeight cu.
Hypothesis HN : 1 <= N.
Hypothesis H3N : 3 * N < 2 ^ 31.
Hypothesis Hpos : Z.of_nat (length (position cu)) = 3 * N.
Hypothesis Hrad : Z.of_nat (length (radius cu)) = N.
Hypothesis Hcol : Z.of_nat (length (color cu)) = 3 * N.
Hypothesis HW : 0 <= W.
Hypothesis HH : 0 <= Hh.
Hypothesis Hsz : 4 * (W * Hh) < 2 ^ 31.
Hypothesis Hbs : 1 <= blockSize.
Hypothesis HWb : W + blockSize < 2 ^ 31.
Hypothesis HHb : Hh + blockSize < 2 ^ 31.
Hypothesis Htiles :
  div (sub (add W blockSize) 1) blockSize * div (sub (add Hh blockSize) 1) blockSize
  < 2 ^ 31.
Hypothesis Hnb : numBlocks = Kernels.setup_numBlocks cu blockSize.
Hypothesis Hsize : numBlocks * N + 1024 < 2 ^ 31.
Hypothesis Hlh : Z.of_nat (length hit0) = numBlocks * N.
Hypothesis Hlp : Z.of_nat (length prefixes0) = numBlocks * N.
Hypothesis Hll : Z.of_nat (length lst0) = numBlocks * N.

Lemma numBlocks_nonneg : 0 <= numBlocks.
Proof.
  destruct (ceil_div_bounds W blockSize HW ltac:(lia) HWb) as [Hgx _].
  destruct (ceil_div_bounds Hh blockSize HH ltac:(lia) HHb) as [Hgy _].
  rewrite Hnb. unfold Kernels.setup_numBlocks. fold W Hh.
  set (gxs := div (sub (add W blockSize) 1) blockSize) in *.
  set (gys := div (sub (add Hh blockSize) 1) blockSize) in *.
  assert (0 <= gxs * gys) by (apply Z.mul_nonneg_nonneg; lia).
  unfold mul. rewrite wrap_small by (unfold is_int; lia). lia.
Qed.

(** The three launches that build the lists of a frame. *)
Lemma render_stages :
  exists hit prefixes lst,
    launch_blocks numBlocks 1024 (kernelMarkBlocks cu 1024 blockSize N) hit0 = Ok hit /\
    foldM (kernelScan2 shared hit N) (seqZ 0 numBlocks) prefixes0 = Ok prefixes /\
    launch_blocks numBlocks 1024 (kernelMakeLists cu 1024 hit prefixes) lst0 = Ok lst /\
    length hit = length hit0 /\ length prefixes = length prefixes0 /\
    length lst = length lst0 /\
    (forall t c, 0 <= t < numBlocks -> 0 <= c < N ->
       get hit (t * N + c) = circle_flag cu blockSize t c) /\
    (forall t, 0 <= t < numBlocks -> prefix_row hit prefixes N t) /\
    (forall t, 0 <= t < numBlocks -> row_built hit lst0 N t lst).
Proof.
  pose proof numBlocks_nonneg as Hnn.
  destruct (mark_grid cu blockSize numBlocks HN Hsize H3N Hpos Hrad hit0 Hnn Hlh)
    as (hit & Hmark & Hlen & Hflags). fold N in Hmark, Hflags.
  assert (Hbits : Forall (fun h => h = 0 \/ h = 1) hit).
  { apply (grid_Forall _ N numBlocks); [exact HN|lia|].
    intros t c Ht Hc. cbv beta. rewrite (Hflags t c Ht Hc). apply circle_flag_bit. }
  destruct (kernelScan2_grid shared hit prefixes0 N numBlocks HN Hsize ltac:(lia) Hlp Hbits Hnn)
    as (prefixes & Hscan & Hlenp & Hpre).
  destruct (makeLists_grid cu hit prefixes lst0 numBlocks HN Hsize ltac:(lia) ltac:(lia) Hll)
    as (lst & Hlists & Hlenl & Hrows); [|exact Hpre|exact Hnn|].
  { intros i Hi. apply (Forall_get (fun h => h = 0 \/ h = 1)); [exact Hbits|lia]. }
  fold N in Hrows. exists hit, prefixes, lst. repeat (split; [assumption|]). assumption.
Qed.

End Frame.

Section FrameThreads.

Context {F : Type} `{FloatOps F}.
Variable lookupColor : F -> float3 F.
Variable cu : GlobalConstants F.
Variables (blockSize numBlocks : Z) (hit lst0 lst : buf).
Let N := numberOfCircles cu.
Let W := imageWidth cu.
Let Hh := imageHeight cu.
Hypothesis HN : 1 <= N.
Hypothesis H3N : 3 * N < 2 ^ 31.
Hypothesis Hpos : Z.of_nat (length (position cu)) = 3 * N.
Hypothesis Hrad : Z.of_nat (length (radius cu)) = N.
Hypothesis Hcol : Z.of_nat (length (color cu)) = 3 * N.
Hypothesis HW : 0 <= W.
Hypothesis HH : 0 <= Hh.
Hypothesis Hsz : 4 * (W * Hh) < 2 ^ 31.
Hypothesis Hbs : 1 <= blockSize.
Hypothesis HWb : W + blockSize < 2 ^ 31.
Hypothesis HHb : Hh + blockSize < 2 ^ 31.
Hypothesis Htiles :
  div (sub (add W blockSize) 1) blockSize * div (sub (add Hh blockSize) 1) blockSize
  < 2 ^ 31.
Hypothesis Hnb : numBlocks = Kernels.setup_numBlocks cu blockSize.
Hypothesis Hll : Z.of_nat (length lst) = numBlocks * N.
Hypothesis Hl31 : numBlocks * N < 2 ^ 31.
Hypothesis Hflags : forall t c, 0 <= t < numBlocks -> 0 <= c < N ->
  get hit (t * N + c) = circle_flag cu blockSize t c.
Hypothesis Hrows : forall t, 0 <= t < numBlocks -> row_built hit lst0 N t lst.

(** A thread of [kernelRenderPixelsLocal] on the lists of the frame. *)
Lemma renderPixelsLocal_thread x y (img : list F) old :
  0 <= x < W -> 0 <= y < Hh -> Z.of_nat (length img) = 4 * (W * Hh) ->
  pixel W img x y = Some old ->
  kernelRenderPixelsLocal lookupColor cu lst blockSize (x, y) img
  = if existsb (covers cu (pixel_center cu x y))
         (tile_circles cu blockSize (pixel_block cu blockSize x y))
    then Ok (set_pixel W img x y
               (fold_left (paint lookupColor cu (pixel_center cu x y))
                  (tile_circles cu blockSize (pixel_block cu blockSize x y)) old))
    else Err Uninitialized.
Proof.
  intros Hx Hy Hl Hold.
  destruct (pixel_row cu HW HH blockSize numBlocks hit lst0 lst Hbs HN HWb HHb Htiles
              Hnb Hll Hl31 Hrows x y Hx Hy) as (Hr0 & Hr1 & Hlive).
  pose proof (pixel_block_bounds cu blockSize Hbs HW HH HWb HHb Htiles x y Hx Hy) as Hb.
  rewrite <- Hnb in Hb.
  rewrite <- (hits_tile cu blockSize (pixel_block cu blockSize x y) hit)
    by (intros c Hc; apply Hflags; assumption).
  apply (render_thread lookupColor cu lst img blockSize x y _ ltac:(fold N; lia)
           Hpos Hrad Hcol Hx Hy Hl Hsz Hr0 Hr1 Hlive old Hold).
Qed.

Lemma renderPixelsLocal_outside x y (img : list F) :
  0 <= x -> 0 <= y -> ~ (x < W /\ y < Hh) ->
  kernelRenderPixelsLocal lookupColor cu lst blockSize (x, y) img = Ok img.
Proof.
  intros Hx Hy Hno. unfold kernelRenderPixelsLocal.
  rewrite (off_image cu x y Hx Hy Hno). reflexivity.
Qed.

Lemma renderPixelsLocal_launch (image : list F) :
  W + 32 < 2 ^ 31 -> Hh + 32 < 2 ^ 31 -> Z.of_nat (length image) = 4 * (W * Hh) ->
  (forall x y, 0 <= x < W -> 0 <= y < Hh ->
     existsb (covers cu (pixel_center cu x y))
       (tile_circles cu blockSize (pixel_block cu blockSize x y)) = true) ->
  exists image',
    foldM (kernelRenderPixelsLocal lookupColor cu lst blockSize)
      (grid2D (div (sub (add W 32) 1) 32) (div (sub (add Hh 32) 1) 32) 32 32) image
    = Ok image' /\
    map_pixels W Hh
      (fun x y =>
         fold_left (paint lookupColor cu (pixel_center cu x y))
           (tile_circles cu blockSize (pixel_block cu blockSize x y)))
      image image'.
Proof.
  intros HW32 HH32 Hl Hcov.
  apply (pixel_launch W Hh _ (kernelRenderPixelsLocal lookupColor cu lst blockSize) HW HH);
    try assumption; try lia.
  - intros x y img old Hx Hy Hli Hold.
    rewrite (renderPixelsLocal_thread x y img old Hx Hy Hli Hold), (Hcov x y Hx Hy).
    reflexivity.
  - apply renderPixelsLocal_outside.
Qed.

Lemma renderPixelsLocal_fault (image : list F) :
  W + 32 < 2 ^ 31 -> Hh + 32 < 2 ^ 31 -> Z.of_nat (length image) = 4 * (W * Hh) ->
  (exists x y, 0 <= x < W /\ 0 <= y < Hh /\
     existsb (covers cu (pixel_center cu x y))
       (tile_circles cu blockSize (pixel_block cu blockSize x y)) = false) ->
  foldM (kernelRenderPixelsLocal lookupColor cu lst blockSize)
    (grid2D (div (sub (add W 32) 1) 32) (div (sub (add Hh 32) 1) 32) 32 32) image
  = Err Uninitialized.
Proof.
  intros HW32 HH32 Hl (x & y & Hx & Hy & Hbad).
  destruct (cover_blocks W 32 HW ltac:(lia) HW32) as [Hgx Bx].
  destruct (cover_blocks Hh 32 HH ltac:(lia) HH32) as [Hgy By].
  set (gx := div (sub (add W 32) 1) 32) in *. set (gy := div (sub (add Hh 32) 1) 32) in *.
  apply (threads_fault _ Uninitialized (Z.to_nat (4 * (W * Hh)))); [| |lia].
  - intros [a b] img Hp Hli.
    apply elem_of_grid2D in Hp; [|lia..]. destruct Hp as [Ha Hb].
    assert (Hpix : 0 <= 4 * (W * Hh)).
    { assert (0 <= W * Hh) by (apply Z.mul_nonneg_nonneg; lia). lia. }
    destruct (decide (a < W /\ b < Hh)) as [[HaW HbH]|Hno].
    + destruct (pixel_some W Hh HW img a b ltac:(lia) ltac:(lia) ltac:(lia)) as [old Hold].
      rewrite (renderPixelsLocal_thread a b img old ltac:(lia) ltac:(lia) ltac:(lia) Hold).
      destruct (existsb (covers cu (pixel_center cu a b))
                  (tile_circles cu blockSize (pixel_block cu blockSize a b))).
      * right. eexists. split; [reflexivity|]. rewrite set_pixel_length. exact Hli.
      * left. reflexivity.
    + right. exists img. split; [|exact Hli].
      apply renderPixelsLocal_outside; lia.
  - exists (x, y). split.
    + apply elem_of_grid2D; lia.
    + intros img Hli.
      assert (Hpix : 0 <= 4 * (W * Hh)).
      { assert (0 <= W * Hh) by (apply Z.mul_nonneg_nonneg; lia). lia. }
      destruct (pixel_some W Hh HW img x y ltac:(lia) Hx Hy) as [old Hold].
      rewrite (renderPixelsLocal_thread x y img old Hx Hy ltac:(lia) Hold), Hbad.
      reflexivity.
Qed.

End FrameThreads.

(** X18: a frame.  When every pixel of the image is reached by some circle
    that the mark phase flags for the pixel's tile, [render] returns: the
    hit matrix holds the flags of the mark phase, and every pixel holds the
    colour it held with the flagged circles of its tile laid over it, in
    increasing order of their indices. *)
Theorem render_frame_composites {F : Type} `{FloatOps F}
    (lookupColor : F -> float3 F) (cu : GlobalConstants F)
    (blockSize numBlocks : Z) (shared : Z -> Z -> Z) (hit0 prefixes0 lst0 : buf)
    (image : list F) :
  let N := numberOfCircles cu in
  let W := imageWidth cu in
  let Hh := imageHeight cu in
  1 <= N -> 3 * N < 2 ^ 31 ->
  Z.of_nat (length (position cu)) = 3 * N ->
  Z.of_nat (length (radius cu)) = N ->
  Z.of_nat (length (color cu)) = 3 * N ->
  0 <= W -> 0 <= Hh -> 4 * (W * Hh) < 2 ^ 31 ->
  1 <= blockSize -> W + blockSize < 2 ^ 31 -> Hh + blockSize < 2 ^ 31 ->
  div (sub (add W blockSize) 1) blockSize * div (sub (add Hh blockSize) 1) blockSize
  < 2 ^ 31 ->
  numBlocks = Kernels.setup_numBlocks cu blockSize ->
  numBlocks * N + 1024 < 2 ^ 31 ->
  Z.of_nat (length hit0) = numBlocks * N ->
  Z.of_nat (length prefixes0) = numBlocks * N ->
  Z.of_nat (length lst0) = numBlocks * N ->
  W + 32 < 2 ^ 31 -> Hh + 32 < 2 ^ 31 ->
  Z.of_nat (length image) = 4 * (W * Hh) ->
  (forall x y, 0 <= x < W -> 0 <= y < Hh ->
     existsb (covers cu (pixel_center cu x y))
       (tile_circles cu blockSize (pixel_block cu blockSize x y)) = true) ->
  exists hit prefixes lst image',
    render lookupColor cu blockSize numBlocks shared hit0 prefixes0 lst0 image
    = Ok (hit, prefixes, lst, image') /\
    length image' = length image /\
    (forall t c, 0 <= t < numBlocks -> 0 <= c < N ->
       get hit (t * N + c) = circle_flag cu blockSize t c) /\
    forall x y old, 0 <= x < W -> 0 <= y < Hh -> pixel W image x y = Some old ->
      pixel W image' x y
      = Some (fold_left (paint lookupColor cu (pixel_center cu x y))
                (tile_circles cu blockSize (pixel_block cu blockSize x y)) old).
Proof.
  intros N W Hh HN H3N Hpos Hrad Hcol HW HH Hsz Hbs HWb HHb Htiles Hnb Hsize Hlh Hlp Hll
    HW32 HH32 Hl Hcov.
  destruct (render_stages cu blockSize numBlocks shared hit0 prefixes0 lst0
              HN H3N Hpos Hrad HW HH Hbs HWb HHb Htiles Hnb Hsize Hlh Hlp Hll)
    as (hit & prefixes & lst & Hmark & Hscan & Hlists & _ & _ & Hlenl & Hflags & _ & Hrows).
  destruct (renderPixelsLocal_launch lookupColor cu blockSize numBlocks hit lst0 lst
              HN H3N Hpos Hrad Hcol HW HH Hsz Hbs HWb HHb Htiles Hnb ltac:(lia) ltac:(lia)
              Hflags Hrows image HW32 HH32 Hl Hcov) as (image' & Hrun & Hmap).
  exists hit, prefixes, lst, image'. split.
  - unfold render. rewrite Hmark, bind_Ok, Hscan, bind_Ok, Hlists, bind_Ok.
    cbv zeta. rewrite Hrun, bind_Ok. reflexivity.
  - split; [apply Hmap|]. split; [exact Hflags|].
    intros x y old Hx Hy Hold.
    apply (map_pixels_some _ _ _ _ _ x y old Hmap Hx Hy Hold).
Qed.

Lemma render_frame_composites_witness :
  exists hit prefixes lst image',
    render no_lookup big_circle 64 1 (fun _ _ => 0) [9] [9] [9] (white_image 4)
    = Ok (hit, prefixes, lst, image') /\
    length image' = length (white_image 4) /\
    (forall t c, 0 <= t < 1 -> 0 <= c < 1 ->
       get hit (t * 1 + c) = circle_flag big_circle 64 t c) /\
    forall x y old, 0 <= x < 2 -> 0 <= y < 2 -> pixel 2 (white_image 4) x y = Some old ->
      pixel 2 image' x y
      = Some (fold_left (paint no_lookup big_circle (pixel_center big_circle x y))
                (tile_circles big_circle 64 (pixel_block big_circle 64 x y)) old).
Proof.
  apply (render_frame_composites no_lookup big_circle 64 1 (fun _ _ => 0) [9] [9] [9]
           (white_image 4)).
  - simpl; lia.
  - simpl; lia.
  - reflexivity.
  - reflexivity.
  - reflexivity.
  - simpl; lia.
  - simpl; lia.
  - simpl; lia.
  - lia.
  - simpl; lia.
  - simpl; lia.
  - vm_compute; reflexivity.
  - reflexivity.
  - simpl; lia.
  - reflexivity.
  - reflexivity.
  - reflexivity.
  - simpl; lia.
  - simpl; lia.
  - reflexivity.
  - intros x y Hx Hy.
    assert (Ex : x = 0 \/ x = 1) by (simpl in Hx; lia).
    assert (Ey : y = 0 \/ y = 1) by (simpl in Hy; lia).
    destruct Ex as [-> | ->]; destruct Ey as [-> | ->]; vm_compute; reflexivity.
Defined.

(** X19: a frame in which some pixel is reached by no circle that the mark
    phase flags for its tile does not return an image: the thread of such a
    pixel stores its local [newColor] without ever having assigned it. *)
Theorem render_frame_uninitialized {F : Type} `{FloatOps F}
    (lookupColor : F -> float3 F) (cu : GlobalConstants F)
    (blockSize numBlocks : Z) (shared : Z -> Z -> Z) (hit0 prefixes0 lst0 : buf)
    (image : list F) :
  let N := numberOfCircles cu in
  let W := imageWidth cu in
  let Hh := imageHeight cu in
  1 <= N -> 3 * N < 2 ^ 31 ->
  Z.of_nat (length (position cu)) = 3 * N ->
  Z.of_nat (length (radius cu)) = N ->
  Z.of_nat (length (color cu)) = 3 * N ->
  0 <= W -> 0 <= Hh -> 4 * (W * Hh) < 2 ^ 31 ->
  1 <= blockSize -> W + blockSize < 2 ^ 31 -> Hh + blockSize < 2 ^ 31 ->
  div (sub (add W blockSize) 1) blockSize * div (sub (add Hh blockSize) 1) blockSize
  < 2 ^ 31 ->
  numBlocks = Kernels.setup_numBlocks cu blockSize ->
  numBlocks * N + 1024 < 2 ^ 31 ->
  Z.of_nat (length hit0) = numBlocks * N ->
  Z.of_nat (length prefixes0) = numBlocks * N ->
  Z.of_nat (length lst0) = numBlocks * N ->
  W + 32 < 2 ^ 31 -> Hh + 32 < 2 ^ 31 ->
  Z.of_nat (length image) = 4 * (W * Hh) ->
  (exists x y, 0 <= x < W /\ 0 <= y < Hh /\
     existsb (covers cu (pixel_center cu x y))
       (tile_circles cu blockSize (pixel_block cu blockSize x y)) = false) ->
  render lookupColor cu blockSize numBlocks shared hit0 prefixes0 lst0 image
  = Err Uninitialized.
Proof.
  intros N W Hh HN H3N Hpos Hrad Hcol HW HH Hsz Hbs HWb HHb Htiles Hnb Hsize Hlh Hlp Hll
    HW32 HH32 Hl Hbad.
  destruct (render_stages cu blockSize numBlocks shared hit0 prefixes0 lst0
              HN H3N Hpos Hrad HW HH Hbs HWb HHb Htiles Hnb Hsize Hlh Hlp Hll)
    as (hit & prefixes & lst & Hmark & Hscan & Hlists & _ & _ & Hlenl & Hflags & _ & Hrows).
  pose proof (renderPixelsLocal_fault lookupColor cu blockSize numBlocks hit lst0 lst
                HN H3N Hpos Hrad Hcol HW HH Hsz Hbs HWb HHb Htiles Hnb ltac:(lia) ltac:(lia)
                Hflags Hrows image HW32 HH32 Hl Hbad) as Hrun.
  unfold render. rewrite Hmark, bind_Ok, Hscan, bind_Ok, Hlists, bind_Ok.
  cbv zeta. rewrite Hrun. reflexivity.
Qed.

Lemma render_frame_uninitialized_witness :
  render no_lookup one_circle 64 1 (fun _ _ => 0) [9] [9] [9] (white_image 25)
  = Err Uninitialized.
Proof.
  apply (render_frame_uninitialized no_lookup one_circle 64 1 (fun _ _ => 0) [9] [9] [9]
           (white_image 25)).
  - simpl; lia.
  - simpl; lia.
  - reflexivity.
  - reflexivity.
  - reflexivity.
  - simpl; lia.
  - simpl; lia.
  - simpl; lia.
  - lia.
  - simpl; lia.
  - simpl; lia.
  - vm_compute; reflexivity.
  - reflexivity.
  - simpl; lia.
  - reflexivity.
  - reflexivity.
  - reflexivity.
  - simpl; lia.
  - simpl; lia.
  - reflexivity.
  - exists 0, 0. split; [simpl; lia|]. split; [simpl; lia|]. vm_compute; reflexivity.
Defined.

(** X20: the scan stage reads nothing that it has not written: its result
    is the same whatever the shared memory of the blocks and the prefix
    buffer held before. *)
Theorem kernelScan2_ignores_old_contents (shared1 shared2 : Z -> Z -> Z)
    (hit prefixes1 prefixes2 : buf) (N numBlocks : Z) :
  1 <= N -> 0 <= numBlocks -> numBlocks * N + 1024 < 2 ^ 31 ->
  Z.of_nat (length hit) = numBlocks * N ->
  Z.of_nat (length prefixes1) = numBlocks * N ->
  Z.of_nat (length prefixes2) = numBlocks * N ->
  Forall (fun h => h = 0 \/ h = 1) hit ->
  exists prefixes,
    foldM (kernelScan2 shared1 hit N) (seqZ 0 numBlocks) prefixes1 = Ok prefixes /\
    foldM (kernelScan2 shared2 hit N) (seqZ 0 numBlocks) prefixes2 = Ok prefixes.
Proof.
  intros HN Hnb Hsize Hlh Hl1 Hl2 Hbits.
  destruct (kernelScan2_grid shared1 hit prefixes1 N numBlocks HN Hsize Hlh Hl1 Hbits Hnb)
    as (p1 & Hrun1 & Hlen1 & Hrow1).
  destruct (kernelScan2_grid shared2 hit prefixes2 N numBlocks HN Hsize Hlh Hl2 Hbits Hnb)
    as (p2 & Hrun2 & Hlen2 & Hrow2).
  exists p1. split; [exact Hrun1|]. rewrite Hrun2. f_equal.
  apply (grid_ext N numBlocks); [exact HN|lia|lia|].
  intros t c Ht Hc. rewrite (Hrow1 t Ht c Hc), (Hrow2 t Ht c Hc). reflexivity.
Qed.

Lemma kernelScan2_ignores_old_contents_witness :
  exists prefixes,
    foldM (kernelScan2 (fun _ _ => 7) [1; 0; 1; 0; 1; 1] 3) (seqZ 0 2) [9; 9; 9; 9; 9; 9]
    = Ok prefixes /\
    foldM (kernelScan2 (fun b i => b + i) [1; 0; 1; 0; 1; 1] 3) (seqZ 0 2) [1; 2; 3; 4; 5; 6]
    = Ok prefixes.
Proof.
  apply (kernelScan2_ignores_old_contents (fun _ _ => 7) (fun b i => b + i)
           [1; 0; 1; 0; 1; 1] [9; 9; 9; 9; 9; 9] [1; 2; 3; 4; 5; 6] 3 2).
  - lia.
  - lia.
  - lia.
  - reflexivity.
  - reflexivity.
  - reflexivity.
  - repeat constructor; lia.
Defined.

(** X21: the mark phase writes every cell of the hit matrix: its result is
    the same whatever the matrix held before. *)
Theorem kernelMarkBlocks_overwrites {F : Type} `{FloatOps F} (cu : GlobalConstants F)
    (blockSize numBlocks : Z) (hit1 hit2 : buf) :
  let N := numberOfCircles cu in
  1 <= N -> 0 <= numBlocks -> numBlocks * N + 1024 < 2 ^ 31 -> 3 * N < 2 ^ 31 ->
  Z.of_nat (length (position cu)) = 3 * N ->
  Z.of_nat (length (radius cu)) = N ->
  Z.of_nat (length hit1) = numBlocks * N ->
  Z.of_nat (length hit2) = numBlocks * N ->
  exists hit,
    launch_blocks numBlocks 1024 (kernelMarkBlocks cu 1024 blockSize N) hit1 = Ok hit /\
    launch_blocks numBlocks 1024 (kernelMarkBlocks cu 1024 blockSize N) hit2 = Ok hit.
Proof.
  intros N HN Hnb Hsize H3N Hpos Hrad Hl1 Hl2.
  destruct (mark_grid cu blockSize numBlocks HN Hsize H3N Hpos Hrad hit1 Hnb Hl1)
    as (h1 & Hrun1 & Hlen1 & Hflags1).
  destruct (mark_grid cu blockSize numBlocks HN Hsize H3N Hpos Hrad hit2 Hnb Hl2)
    as (h2 & Hrun2 & Hlen2 & Hflags2).
  exists h1. split; [exact Hrun1|]. subst N. rewrite Hrun2. f_equal.
  apply (grid_ext (numberOfCircles cu) numBlocks); [exact HN|lia|lia|].
  intros t c Ht Hc. rewrite (Hflags1 t c Ht Hc), (Hflags2 t c Ht Hc). reflexivity.
Qed.

Lemma kernelMarkBlocks_overwrites_witness :
  exists hit,
    launch_blocks 4 1024 (kernelMarkBlocks corner_circle 1024 64 1) [9; 9; 9; 9] = Ok hit /\
    launch_blocks 4 1024 (kernelMarkBlocks corner_circle 1024 64 1) [1; 0; 1; 0] = Ok hit.
Proof.
  apply (kernelMarkBlocks_overwrites corner_circle 64 4 [9; 9; 9; 9] [1; 0; 1; 0]).
  - simpl; lia.
  - lia.
  - simpl; lia.
  - simpl; lia.
  - reflexivity.
  - reflexivity.
  - reflexivity.
  - reflexivity.
Defined.

(** X22: on a frame in which every pixel is reached by a flagged circle of
    its tile, [kernelRenderPixelsLocal], which composites in a local and
    stores once, produces the very image of [kernelRenderPixelsNew], which
    composites in the image through [shadePixel]. *)
Theorem kernelRenderPixelsLocal_agrees_with_New {F : Type} `{FloatOps F}
    (lookupColor : F -> float3 F) (cu : GlobalConstants F)
    (blockSize numBlocks : Z) (hit lst0 lst : buf) (image : list F) :
  let N := numberOfCircles cu in
  let W := imageWidth cu in
  let Hh := imageHeight cu in
  1 <= N -> 3 * N < 2 ^ 31 ->
  Z.of_nat (length (position cu)) = 3 * N ->
  Z.of_nat (length (radius cu)) = N ->
  Z.of_nat (length (color cu)) = 3 * N ->
  0 <= W -> 0 <= Hh -> 4 * (W * Hh) < 2 ^ 31 ->
  1 <= blockSize -> W + blockSize < 2 ^ 31 -> Hh + blockSize < 2 ^ 31 ->
  div (sub (add W blockSize) 1) blockSize * div (sub (add Hh blockSize) 1) blockSize
  < 2 ^ 31 ->
  numBlocks = Kernels.setup_numBlocks cu blockSize ->
  Z.of_nat (length lst) = numBlocks * N -> numBlocks * N < 2 ^ 31 ->
  (forall t c, 0 <= t < numBlocks -> 0 <= c < N ->
     get hit (t * N + c) = circle_flag cu blockSize t c) ->
  (forall t, 0 <= t < numBlocks -> row_built hit lst0 N t lst) ->
  W + 32 < 2 ^ 31 -> Hh + 32 < 2 ^ 31 ->
  Z.of_nat (length image) = 4 * (W * Hh) ->
  (forall x y, 0 <= x < W -> 0 <= y < Hh ->
     existsb (covers cu (pixel_center cu x y))
       (tile_circles cu blockSize (pixel_block cu blockSize x y)) = true) ->
  exists image',
    foldM (kernelRenderPixelsLocal lookupColor cu lst blockSize)
      (grid2D (div (sub (add W 32) 1) 32) (div (sub (add Hh 32) 1) 32) 32 32) image
    = Ok image' /\
    foldM (Kernels.kernelRenderPixelsNew lookupColor cu lst blockSize)
      (grid2D (div (sub (add W 32) 1) 32) (div (sub (add Hh 32) 1) 32) 32 32) image
    = Ok image'.
Proof.
  intros N W Hh HN H3N Hpos Hrad Hcol HW HH Hsz Hbs HWb HHb Htiles Hnb Hll Hl31 Hflags Hrows
    HW32 HH32 Hl Hcov.
  destruct (renderPixelsLocal_launch lookupColor cu blockSize numBlocks hit lst0 lst
              HN H3N Hpos Hrad Hcol HW HH Hsz Hbs HWb HHb Htiles Hnb Hll Hl31
              Hflags Hrows image HW32 HH32 Hl Hcov) as (imageL & HrunL & HmapL).
  destruct (renderPixelsNew_launch lookupColor cu ltac:(fold N; lia) Hpos Hrad Hcol HW HH Hsz
              blockSize numBlocks hit lst0 lst Hbs HN HWb HHb Htiles Hnb Hll Hl31 Hrows
              32 image ltac:(lia) HW32 HH32 Hl) as (imageN & HrunN & HmapN).
  subst N W Hh. exists imageL. split; [exact HrunL|]. rewrite HrunN. f_equal.
  apply (map_pixels_unique _ _ _ image imageN imageL HW HH Hl HmapN).
  revert HmapL. apply map_pixels_ext. intros x y old Hx Hy.
  pose proof (pixel_block_bounds cu blockSize Hbs HW HH HWb HHb Htiles x y Hx Hy) as Hb.
  rewrite <- Hnb in Hb.
  rewrite (hits_tile cu blockSize (pixel_block cu blockSize x y) hit)
    by (intros c Hc; apply Hflags; assumption).
  reflexivity.
Qed.

Lemma kernelRenderPixelsLocal_agrees_with_New_witness :
  exists image',
    foldM (kernelRenderPixelsLocal no_lookup big_circle [0] 64)
      (grid2D (div (sub (add 2 32) 1) 32) (div (sub (add 2 32) 1) 32) 32 32)
      (white_image 4) = Ok image' /\
    foldM (Kernels.kernelRenderPixelsNew no_lookup big_circle [0] 64)
      (grid2D (div (sub (add 2 32) 1) 32) (div (sub (add 2 32) 1) 32) 32 32)
      (white_image 4) = Ok image'.
Proof.
  apply (kernelRenderPixelsLocal_agrees_with_New no_lookup big_circle 64 1
           [1] [9] [0] (white_image 4)).
  - simpl; lia.
  - simpl; lia.
  - reflexivity.
  - reflexivity.
  - reflexivity.
  - simpl; lia.
  - simpl; lia.
  - simpl; lia.
  - lia.
  - simpl; lia.
  - simpl; lia.
  - vm_compute; reflexivity.
  - reflexivity.
  - reflexivity.
  - simpl; lia.
  - intros t c Ht Hc. assert (t = 0) as -> by lia.
    assert (c = 0) as -> by (simpl in Hc; lia). vm_compute; reflexivity.
  - intros t Ht. assert (t = 0) as -> by lia. split; [|split].
    + intros s c. destruct s as [|s]; vm_compute; intros Hs; inversion Hs; reflexivity.
    + vm_compute. intros Hc; discriminate Hc.
    + intros s Hs. exfalso. change (1 < s < 1) in Hs. lia.
  - simpl; lia.
  - simpl; lia.
  - reflexivity.
  - intros x y Hx Hy.
    assert (Ex : x = 0 \/ x = 1) by (simpl in Hx; lia).
    assert (Ey : y = 0 \/ y = 1) by (simpl in Hy; lia).
    destruct Ex as [-> | ->]; destruct Ey as [-> | ->]; vm_compute; reflexivity.
Defined.

